(** * YUI 3 history: state store, change resolution and the location-hash codec

    A shallow embedding of [src/build/history/history-debug.js]
    (modules [history-base] and [history-hash]) and the properties of its
    add/replace state store, of [_resolveChanges], of the
    [createHash]/[parseHash] codec and of the writes to the location hash.

    Layout: the embedding comes first (JavaScript strings, values and
    objects; the YUI helpers the module calls; [HistoryBase]; the static
    methods of [History]; the [History] instance methods), the proofs follow. *)

From Stdlib Require Import List NArith ZArith Lia Zify Bool String Ascii.
Import ListNotations.
Open Scope N_scope.
Open Scope list_scope.

Set Implicit Arguments.

(* ================================================================== *)
(** ** JavaScript strings *)

(** A JavaScript string is a sequence of 16-bit code units.  Code units are
    kept as [N]; numbers from 65536 on are no code units. *)
Definition jsstring := list N.

(** String literals of the source, written as Rocq strings. *)
Definition js (s : string) : jsstring := map N_of_ascii (list_ascii_of_string s).
Arguments js s%_string.

Definition AMP      : N := Eval cbv in N_of_ascii "&".
Definition EQUALS   : N := Eval cbv in N_of_ascii "=".
Definition HASH     : N := Eval cbv in N_of_ascii "#".
Definition QUESTION : N := Eval cbv in N_of_ascii "?".
Definition PERCENT  : N := Eval cbv in N_of_ascii "%".
Definition PLUS     : N := Eval cbv in N_of_ascii "+".
Definition SPACE    : N := Eval cbv in N_of_ascii " ".
Definition DIGIT_0  : N := Eval cbv in N_of_ascii "0".
Definition DIGIT_2  : N := Eval cbv in N_of_ascii "2".

Fixpoint str_eqb (a b : jsstring) : bool :=
  match a, b with
  | [], [] => true
  | x :: a', y :: b' => (x =? y) && str_eqb a' b'
  | _, _ => false
  end.

(** [s.indexOf(pat) === 0] *)
Fixpoint starts_with (pat s : jsstring) : bool :=
  match pat, s with
  | [], _ => true
  | p :: pat', c :: s' => (p =? c) && starts_with pat' s'
  | _ :: _, [] => false
  end.

(** [s.indexOf(pat)]; [None] stands for -1. *)
Fixpoint indexOf (s pat : jsstring) : option nat :=
  if starts_with pat s then Some O
  else match s with
       | [] => None
       | _ :: s' => option_map S (indexOf s' pat)
       end.

(** [s.replace(pat, '')] with a string pattern: the first occurrence goes. *)
Fixpoint replace_first (s pat : jsstring) : jsstring :=
  if starts_with pat s then skipn (List.length pat) s
  else match s with
       | [] => []
       | c :: s' => c :: replace_first s' pat
       end.

(** [s.substr(1)] *)
Definition substr1 (s : jsstring) : jsstring := tl s.

(** [s.charAt(0) === c] *)
Definition charAt0_is (c : N) (s : jsstring) : bool :=
  match s with
  | x :: _ => x =? c
  | [] => false
  end.

(** [s.split(sep)] for a one-character separator. *)
Fixpoint split (sep : N) (s : jsstring) : list jsstring :=
  match s with
  | [] => [[]]
  | c :: s' =>
      if c =? sep then [] :: split sep s'
      else match split sep s' with
           | p :: ps => (c :: p) :: ps
           | [] => [[c]]
           end
  end.

(** [parts.join(sep)] *)
Fixpoint join (sep : N) (parts : list jsstring) : jsstring :=
  match parts with
  | [] => []
  | p :: ps =>
      match ps with
      | [] => p
      | _ :: _ => p ++ sep :: join sep ps
      end
  end.

(** [s.replace(/\+/g, ' ')] *)
Definition replace_plus (s : jsstring) : jsstring :=
  map (fun c => if c =? PLUS then SPACE else c) s.

(** [s.replace(/%20/g, '+')] *)
Fixpoint replace_pct20 (s : jsstring) : jsstring :=
  match s with
  | [] => []
  | c :: s' =>
      match s' with
      | h1 :: h2 :: s3 =>
          if (c =? PERCENT) && (h1 =? DIGIT_2) && (h2 =? DIGIT_0)
          then PLUS :: replace_pct20 s3
          else c :: replace_pct20 s'
      | _ => c :: replace_pct20 s'
      end
  end.

(** Failure (a thrown exception) is [None]. *)
Notation "'let?' x ':=' e 'in' k" :=
  (match e with Some x => k | None => None end)
  (at level 10, x pattern, e at level 100, k at level 200).

(* ================================================================== *)
(** ** URI component coding (ECMAScript 15.1.3)

    [encodeURIComponent] and [decodeURIComponent] belong to the language, not
    to the repository; they are modelled after the algorithms [Encode] and
    [Decode] of the standard.  Both throw [URIError], here [None]. *)

Definition uriUnescaped (c : N) : bool :=
  ((65 <=? c) && (c <=? 90)) || ((97 <=? c) && (c <=? 122)) ||
  ((48 <=? c) && (c <=? 57)) || existsb (N.eqb c) (js "-_.!~*'()").

Definition hexDigit (d : N) : N := if d <? 10 then 48 + d else 55 + d.

Definition hexVal (c : N) : option N :=
  if (48 <=? c) && (c <=? 57) then Some (c - 48)
  else if (65 <=? c) && (c <=? 70) then Some (c - 55)
  else if (97 <=? c) && (c <=? 102) then Some (c - 87)
  else None.

(** The octets of the UTF-8 form of code point [V]. *)
Definition utf8 (V : N) : list N :=
  if V <? 0x80 then [V]
  else if V <? 0x800 then [0xC0 + V / 64; 0x80 + V mod 64]
  else if V <? 0x10000 then
    [0xE0 + V / 4096; 0x80 + (V / 64) mod 64; 0x80 + V mod 64]
  else
    [0xF0 + V / 262144; 0x80 + (V / 4096) mod 64;
     0x80 + (V / 64) mod 64; 0x80 + V mod 64].

(** ["%XX"] for every octet. *)
Definition escape (octets : list N) : jsstring :=
  flat_map (fun b => [PERCENT; hexDigit (b / 16); hexDigit (b mod 16)]) octets.

Definition is_low_surrogate (c : N) : bool := (0xDC00 <=? c) && (c <=? 0xDFFF).
Definition is_high_surrogate (c : N) : bool := (0xD800 <=? c) && (c <=? 0xDBFF).

Fixpoint encodeURIComponent (s : jsstring) : option jsstring :=
  match s with
  | [] => Some []
  | C :: s1 =>
      if uriUnescaped C then
        let? R := encodeURIComponent s1 in Some (C :: R)
      else if is_low_surrogate C then None
      else if negb (is_high_surrogate C) then
        if C <? 0x10000 then
          let? R := encodeURIComponent s1 in Some (escape (utf8 C) ++ R)
        else None
      else
        match s1 with
        | [] => None
        | kChar :: s2 =>
            if is_low_surrogate kChar then
              let V := (C - 0xD800) * 0x400 + (kChar - 0xDC00) + 0x10000 in
              let? R := encodeURIComponent s2 in Some (escape (utf8 V) ++ R)
            else None
        end
  end.

(** The code units of a decoded code point [V], when the [n] octets read were
    a valid UTF-8 form of it. *)
Definition decoded_units (n V : N) : option jsstring :=
  if ((n =? 2) && (0x80 <=? V))
     || ((n =? 3) && (0x800 <=? V) && negb ((0xD800 <=? V) && (V <=? 0xDFFF)))
  then Some [V]
  else if (n =? 4) && (0x10000 <=? V) && (V <=? 0x10FFFF) then
    Some [0xD800 + (V - 0x10000) / 0x400; 0xDC00 + (V - 0x10000) mod 0x400]
  else None.

(** [Decode] with an empty reserved set.  Between characters the state is
    [None]; inside a multi-octet sequence it is [Some (j, n, V)]: [j] further
    continuation octets of an [n]-octet sequence are due, [V] is the value
    read so far. *)
Fixpoint Decode (pending : option (nat * N * N)) (s : jsstring)
  : option jsstring :=
  match s with
  | [] => match pending with None => Some [] | Some _ => None end
  | C :: s1 =>
      if C =? PERCENT then
        match s1 with
        | h1 :: h2 :: s3 =>
            let? d1 := hexVal h1 in
            let? d2 := hexVal h2 in
            let B := 16 * d1 + d2 in
            match pending with
            | None =>
                if B <? 0x80 then let? R := Decode None s3 in Some (B :: R)
                else if B <? 0xC0 then None
                else if B <? 0xE0 then Decode (Some (O, 2, B - 0xC0)) s3
                else if B <? 0xF0 then Decode (Some (1%nat, 3, B - 0xE0)) s3
                else if B <? 0xF8 then Decode (Some (2%nat, 4, B - 0xF0)) s3
                else None
            | Some (j, n, V) =>
                if (0x80 <=? B) && (B <? 0xC0) then
                  let V' := V * 64 + (B - 0x80) in
                  match j with
                  | O => let? U := decoded_units n V' in
                         let? R := Decode None s3 in Some (U ++ R)
                  | S j' => Decode (Some (j', n, V')) s3
                  end
                else None
            end
        | _ => None
        end
      else
        match pending with
        | None => let? R := Decode None s1 in Some (C :: R)
        | Some _ => None
        end
  end.

Definition decodeURIComponent (s : jsstring) : option jsstring := Decode None s.

(* ================================================================== *)
(** ** JavaScript values and objects *)

(** The values a history item takes: the API documents [String|null], and a
    missing argument is [undefined]. *)
Inductive value : Type :=
| undefined
| null
| str (s : jsstring).

(** [a === b] *)
Definition strict_eq (a b : value) : bool :=
  match a, b with
  | undefined, undefined => true
  | null, null => true
  | str x, str y => str_eqb x y
  | _, _ => false
  end.

(** An object is the list of its own enumerable properties in enumeration
    order (insertion order).  Properties inherited from [Object.prototype]
    and the numeric ordering of integer-like keys are not modelled. *)
Definition object (A : Type) := list (jsstring * A).

Fixpoint lookup {A} (o : object A) (key : jsstring) : option A :=
  match o with
  | [] => None
  | (k, v) :: o' => if str_eqb k key then Some v else lookup o' key
  end.

(** [o[key]] *)
Definition get (o : object value) (key : jsstring) : value :=
  match lookup o key with
  | Some v => v
  | None => undefined
  end.

(** [o[key] = v]: an existing property keeps its place, a new one goes last. *)
Fixpoint set_prop {A} (o : object A) (key : jsstring) (v : A) : object A :=
  match o with
  | [] => [(key, v)]
  | (k, x) :: o' =>
      if str_eqb k key then (k, v) :: o' else (k, x) :: set_prop o' key v
  end.

(** [delete o[key]] *)
Definition delete {A} (o : object A) (key : jsstring) : object A :=
  filter (fun p => negb (str_eqb (fst p) key)) o.

Module Lang.

(** Modelled from the spec: [Y.Lang.isValue] of the YUI core, which is not
    under [src/] ("keys whose value is not a defined (present) value are
    omitted"): false for [null] and [undefined]; a string, also the empty
    one, is a value. *)
Definition isValue (v : value) : bool :=
  match v with
  | undefined | null => false
  | str _ => true
  end.

End Lang.

Module Obj.

(** Modelled from the spec: [Y.Object.owns] of the YUI core, not under
    [src/]: whether the key is an own property ("present in state"). *)
Definition owns {A} (o : object A) (key : jsstring) : bool :=
  match lookup o key with
  | Some _ => true
  | None => false
  end.

(** Modelled from the spec: [Y.Object.each] of the YUI core, not under
    [src/] ("iteration order = map iteration order"): [each(o, fn)] calls
    [fn(value, key)] for the own properties in enumeration order.  Here [fn]
    is given the variables it updates. *)
Definition each {A S} (o : object A) (fn : S -> A -> jsstring -> S) (s : S)
  : S :=
  fold_left (fun s p => fn s (snd p) (fst p)) o s.

End Obj.

(** Modelled from the spec: [Y.mix] and [Y.merge] of the YUI core, not
    under [src/] ("merges the partial update into canonical state"):
    [Y.mix(r, s, true)] writes every own property of [s] to [r], and
    [Y.merge(a, b)] is a new object with the properties of [a], then those
    of [b]; [null] and [undefined] values are copied like any other. *)
Definition mix {A} (r s : object A) : object A :=
  Obj.each s (fun r v k => set_prop r k v) r.

Definition merge {A} (a b : object A) : object A := mix (mix [] a) b.

(* ================================================================== *)
(** ** The state the module works on, and what it does to the outside *)

(** [_state] is [YUI.Env.History._state], shared by all instances;
    [hashPrefix] is the static [History.hashPrefix]; [fragment] is what
    follows the ['#'] of [window.location]. *)
Record world : Type := {
  _state : object value;
  hashPrefix : jsstring;
  fragment : jsstring
}.

Definition set_state (s : object value) (w : world) : world :=
  {| _state := s; hashPrefix := hashPrefix w; fragment := fragment w |}.

Definition set_fragment (f : jsstring) (w : world) : world :=
  {| _state := _state w; hashPrefix := hashPrefix w; fragment := f |}.

(** The characters a fragment keeps as they are assigned: printable ASCII
    other than the space, the double quote, ['<'], ['>'] and the backquote.
    The location percent-encodes every other character; the hashes that
    [createHash] writes hold none of those. *)
Definition kept_by_location (c : N) : bool :=
  (0x21 <=? c) && (c <=? 0x7E)
  && negb ((c =? 0x22) || (c =? 0x3C) || (c =? 0x3E) || (c =? 0x60)).

(** Reading [location.hash]: empty without a fragment, else ['#'] and the
    fragment, taken as the browser holds it. *)
Definition location_hash (w : world) : jsstring :=
  match fragment w with
  | [] => []
  | _ :: _ => HASH :: fragment w
  end.

(** The [src] of an event: ['add'], ['replace'] or ['hash']. *)
Inductive source : Type := SRC_ADD | SRC_REPLACE | SRC_HASH.

(** An entry of [changed]. *)
Record item_change : Type := { newVal : value; prevVal : value }.

(** What [_resolveChanges] hands to [_fireEvents]. *)
Record changes : Type := {
  changed : object item_change;
  newState : object value;
  prevState : object value;
  removed : object value
}.

(** The observable steps of a call, in the order they happen: the events
    fired (the global ['change'] with its facade, ['<key>Change'],
    ['<key>Remove']) and the calls that write the location hash.
    Subscribers are outside the module and not modelled; the default
    function of ['change'] is. *)
Inductive effect : Type :=
| fire_change (e_changed : object item_change) (e_newVal e_prevVal : object value)
              (e_removed : object value) (e_src : source)
| fire_key_Change (key : jsstring) (e_newVal e_prevVal : value) (e_src : source)
| fire_key_Remove (key : jsstring) (e_prevVal : value) (e_src : source)
| call_setHash (hash : jsstring)
| call_replaceHash (hash : jsstring).

(** [this]: the methods a subclass overrides. *)
Class this_type : Type := {
  this_storeState : source -> object value -> world -> option (world * list effect)
}.

(** The first argument of [add] and [replace]: the name of a single key with
    its value, or an object of key/value pairs. *)
Inductive state_arg : Type :=
| a_key (key : jsstring) (v : value)
| a_state (state : object value).

(* ================================================================== *)
(** ** history-base *)

Module HistoryBase.

Definition _storeState (src : source) (newState : object value) (w : world)
  : option (world * list effect) :=
  Some (set_state newState w, []).

Section Methods.
Context {this : this_type}.

Definition _fireChangeEvent (src : source) (key : jsstring) (v : item_change)
  : list effect :=
  [fire_key_Change key (newVal v) (prevVal v) src].

Definition _fireRemoveEvent (src : source) (key : jsstring) (v : value)
  : list effect :=
  [fire_key_Remove key v src].

Definition _defChangeFn (e_src : source) (e_newVal : object value) (w : world)
  : option (world * list effect) :=
  this_storeState e_src e_newVal w.

(** Modelled from the spec: [fire] of the event system, not under [src/]
    ("publish(name) -> notify(subscribers, payload)"): firing the global
    event notifies its subscribers and runs the default function that
    [_init] publishes for it, [_defChangeFn], before [fire] returns; the
    per-item events follow.  A call that throws leaves no result ([None]). *)
Definition _fireEvents (src : source) (c : changes) (w : world)
  : option (world * list effect) :=
  let? (w', stored) := _defChangeFn src (newState c) w in
  Some (w',
        fire_change (changed c) (newState c) (prevState c) (removed c) src
        :: stored
        ++ Obj.each (changed c)
             (fun fired v key => fired ++ _fireChangeEvent src key v) []
        ++ Obj.each (removed c)
             (fun fired v key => fired ++ _fireRemoveEvent src key v) []).

(** The first loop: what was added or changed. *)
Definition added_or_changed (prevState newState : object value)
  : object item_change * bool :=
  Obj.each newState
    (fun '(changed, isChanged) newVal key =>
       let prevVal := get prevState key in
       if negb (strict_eq newVal prevVal) then
         (set_prop changed key {| newVal := newVal; prevVal := prevVal |},
          true)
       else (changed, isChanged))
    ([], false).

(** The second loop: what was removed; it deletes from [newState]. *)
Definition removed_from (prevState newState : object value) (isChanged : bool)
  : object value * object value * bool :=
  Obj.each prevState
    (fun '(newState, removed, isChanged) prevVal key =>
       if negb (Obj.owns newState key) || strict_eq (get newState key) null
       then (delete newState key, set_prop removed key prevVal, true)
       else (newState, removed, isChanged))
    (newState, [], isChanged).

Definition _resolveChanges (src : source) (newState : object value) (w : world)
  : option (world * list effect) :=
  let prevState := _state w in
  let '(changed, isChanged) := added_or_changed prevState newState in
  let '(newState, removed, isChanged) :=
    removed_from prevState newState isChanged in
  if isChanged then
    _fireEvents src
      {| changed := changed; newState := newState;
         prevState := prevState; removed := removed |} w
  else Some (w, []).

Definition _change (src : source) (a : state_arg) (w : world)
  : option (world * list effect) :=
  let state :=
    match a with
    | a_key key v => set_prop [] key v
    | a_state state => state
    end in
  _resolveChanges src (merge (_state w) state) w.

Definition add (a : state_arg) (w : world) : option (world * list effect) :=
  _change SRC_ADD a w.

Definition replace (a : state_arg) (w : world) : option (world * list effect) :=
  _change SRC_REPLACE a w.

(** [_init(config)], with [initialState = config && config.initialState]:
    [None] when there is none.  An [object] is a simple object, neither a
    function nor an array; publishing the event leaves the state alone. *)
Definition _init (initialState : option (object value)) (w : world)
  : option (world * list effect) :=
  match initialState with
  | Some initialState => add (a_state (merge (_state w) initialState)) w
  | None => Some (w, [])
  end.

End Methods.

(** A plain [HistoryBase] instance. *)
Definition this : this_type := {| this_storeState := _storeState |}.

(** What [get] returns: the value of one item, or an object of all. *)
Inductive get_result : Type :=
| one_value (v : value)
| all_values (state : object value).

(** [get(key)]; [key] is [None] when the argument is left out.  The empty
    string is falsy, like a missing argument. *)
Definition get (key : option jsstring) (w : world) : get_result :=
  let state := _state w in
  match key with
  | Some (c :: key') =>
      one_value (if Obj.owns state (c :: key') then get state (c :: key')
                 else undefined)
  | Some [] | None => all_values (mix [] state)
  end.

End HistoryBase.

(* ================================================================== *)
(** ** history-hash *)

Module History.

(** *** Static methods *)

Definition decode (s : jsstring) : option jsstring :=
  decodeURIComponent (replace_plus s).

Definition encode (s : jsstring) : option jsstring :=
  let? e := encodeURIComponent s in Some (replace_pct20 e).

(** The array [hash] that the loop of [createHash] fills: one entry for
    every property whose value [isValue], in enumeration order. *)
Fixpoint createHash_each (params : object value) : option (list jsstring) :=
  match params with
  | [] => Some []
  | (key, v) :: rest =>
      if Lang.isValue v then
        match v with
        | str s =>
            let? k := encode key in
            let? e := encode s in
            let? hash := createHash_each rest in
            Some ((k ++ EQUALS :: e) :: hash)
        | undefined | null => createHash_each rest
        end
      else createHash_each rest
  end.

Definition createHash (params : object value) : option jsstring :=
  let? hash := createHash_each params in Some (join AMP hash).

(** The variant of browsers other than Gecko. *)
Definition getHash (w : world) : jsstring :=
  let hash := substr1 (location_hash w) in
  let prefix := hashPrefix w in
  match prefix, indexOf hash prefix with
  | _ :: _, Some O => replace_first hash prefix
  | _, _ => hash
  end.

(** [_REGEX_HASH = /([^\?#&]+)=([^&]+)/g] *)
Definition class1 (c : N) : bool :=
  negb ((c =? QUESTION) || (c =? HASH) || (c =? AMP)).
Definition class2 (c : N) : bool := negb (c =? AMP).

(** The longest run of characters of a class, and what follows it. *)
Fixpoint span (p : N -> bool) (s : jsstring) : jsstring * jsstring :=
  match s with
  | [] => ([], [])
  | c :: s' =>
      if p c then let (run, rest) := span p s' in (c :: run, rest)
      else ([], s)
  end.

(** ['='] and the second group, after a candidate for the first group:
    the group is greedy and nothing follows it in the pattern. *)
Definition equals_group2 (s : jsstring) : option (jsstring * jsstring) :=
  match s with
  | c :: s' =>
      if c =? EQUALS then
        match span class2 s' with
        | ([], _) => None
        | (g2, rest) => Some (g2, rest)
        end
      else None
  | [] => None
  end.

(** A match that starts at the head of [s]: the first group takes as many
    characters as it can, and gives them back one at a time while the rest
    of the pattern fails.  The result is both groups and the input left. *)
Fixpoint _REGEX_HASH_at (s : jsstring)
  : option (jsstring * jsstring * jsstring) :=
  match s with
  | [] => None
  | c :: s' =>
      if class1 c then
        match _REGEX_HASH_at s' with
        | Some (g1, g2, rest) => Some (c :: g1, g2, rest)
        | None =>
            match equals_group2 s' with
            | Some (g2, rest) => Some ([c], g2, rest)
            | None => None
            end
        end
      else None
  end.

(** [s.match(_REGEX_HASH) || []]: the matched substrings from left to
    right; a search resumes where the last match ended, so [skip] counts
    the characters of the current match still to pass. *)
Fixpoint match_REGEX_HASH (skip : nat) (s : jsstring) : list jsstring :=
  match s with
  | [] => []
  | c :: s' =>
      match skip with
      | S k => match_REGEX_HASH k s'
      | O =>
          match _REGEX_HASH_at s with
          | Some (g1, g2, _) =>
              (g1 ++ EQUALS :: g2)
              :: match_REGEX_HASH (List.length g1 + List.length g2) s'
          | None => match_REGEX_HASH O s'
          end
      end
  end.

(** The loop of [parseHash] over [matches].  A match holds an ['='], so
    [split] gives two parameters at least; with fewer, [decode] would be
    called on [undefined] and throw. *)
Fixpoint parseHash_each (matches : list jsstring) (params : object value)
  : option (object value) :=
  match matches with
  | [] => Some params
  | m :: rest =>
      match split EQUALS m with
      | param0 :: param1 :: _ =>
          let? k := decode param0 in
          let? v := decode param1 in
          parseHash_each rest (set_prop params k (str v))
      | _ => None
      end
  end.

(** [hash] is [None] when the argument is left out. *)
Definition parseHash (hash : option jsstring) (w : world)
  : option (object value) :=
  let hash := match hash with Some h => h | None => getHash w end in
  let prefix := hashPrefix w in
  let hash :=
    match prefix with
    | [] => hash
    | _ :: _ =>
        match indexOf hash prefix with
        | Some O => replace_first hash prefix
        | Some 1%nat =>
            if charAt0_is HASH hash then replace_first hash prefix else hash
        | _ => hash
        end
    end in
  parseHash_each (match_REGEX_HASH O hash) [].

(** [location.replace('#' + ...)]: the fragment is what follows the
    ['#']; no history entry is added.  The fragment is taken to be the
    string as assigned, which holds for strings of [kept_by_location]
    characters; the location would percent-encode the others. *)
Definition replaceHash (hash : jsstring) (w : world) : world * list effect :=
  let hash' := if charAt0_is HASH hash then substr1 hash else hash in
  (set_fragment (hashPrefix w ++ hash') w, [call_replaceHash hash]).

(** [location.hash = ...]: the browser drops one leading ['#'] of the
    value assigned; a history entry is added.  As for [replaceHash], the
    fragment is taken to be the string as assigned, which holds for strings
    of [kept_by_location] characters. *)
Definition setHash (hash : jsstring) (w : world) : world * list effect :=
  let hash' := if charAt0_is HASH hash then substr1 hash else hash in
  let v := hashPrefix w ++ hash' in
  (set_fragment (if charAt0_is HASH v then substr1 v else v) w,
   [call_setHash hash]).

(** *** Instance methods *)

Definition _storeState (src : source) (newState : object value) (w : world)
  : option (world * list effect) :=
  let? newHash := createHash newState in
  let? (w1, e1) := HistoryBase._storeState src newState w in
  if negb (str_eqb (getHash w1) newHash) then
    let (w2, e2) :=
      match src with
      | SRC_REPLACE => replaceHash newHash w1
      | _ => setHash newHash w1
      end in
    Some (w2, e1 ++ e2)
  else Some (w1, e1).

(** A [History] instance: [_storeState] is overridden, the rest is
    inherited. *)
Definition this : this_type := {| this_storeState := _storeState |}.

Definition _afterHashChange (e_newHash : jsstring) (w : world)
  : option (world * list effect) :=
  let? s := parseHash (Some e_newHash) w in
  HistoryBase._resolveChanges (this := this) SRC_HASH s w.

(** The synthetic ['hashchange'] event after the location was changed from
    outside (the user, back/forward): the notifier fires with
    [newHash = getHash()], which runs [_afterHashChange] on the instance. *)
Definition hashchange (new_fragment : jsstring) (w : world)
  : option (world * list effect) :=
  let w' := set_fragment new_fragment w in
  _afterHashChange (getHash w') w'.

(** [_init(config)]: without an [initialState] the bookmarked state,
    [parseHash()], is taken; then the inherited [_init] runs.  The
    subscription to ['hashchange'] is what [hashchange] above relies on. *)
Definition _init (initialState : option (object value)) (w : world)
  : option (world * list effect) :=
  let? initialState :=
    match initialState with
    | Some s => Some s
    | None => parseHash None w
    end in
  HistoryBase._init (this := this) (Some initialState) w.

End History.

(* ================================================================== *)
(** ** Vocabulary of the statements *)

(** A page with the given state, no prefix and an empty fragment. *)
Definition world_of (s : object value) : world :=
  {| _state := s; hashPrefix := []; fragment := [] |}.

(** The [src] an event carries. *)
Definition effect_src (e : effect) : option source :=
  match e with
  | fire_change _ _ _ _ src => Some src
  | fire_key_Change _ _ _ src => Some src
  | fire_key_Remove _ _ src => Some src
  | call_setHash _ | call_replaceHash _ => None
  end.

(** The same event with another [src]. *)
Definition with_src (src : source) (e : effect) : effect :=
  match e with
  | fire_change c n p r _ => fire_change c n p r src
  | fire_key_Change k n p _ => fire_key_Change k n p src
  | fire_key_Remove k p _ => fire_key_Remove k p src
  | call_setHash h => call_setHash h
  | call_replaceHash h => call_replaceHash h
  end.

Definition is_event (e : effect) : bool :=
  match effect_src e with Some _ => true | None => false end.

(** The calls that write the fragment. *)
Definition is_hash_write (e : effect) : bool := negb (is_event e).

(** The test of the first loop of [_resolveChanges] on a property of the
    new state. *)
Definition differs (prevState : object value) (p : jsstring * value) : bool :=
  negb (strict_eq (snd p) (get prevState (fst p))).

(** The test of the second loop of [_resolveChanges]. *)
Definition is_removed (newState : object value) (p : jsstring * value) : bool :=
  negb (Obj.owns newState (fst p)) || strict_eq (get newState (fst p)) null.

(** The entry of [changed] that a property of the new state gives rise to. *)
Definition changed_entry (prevState : object value) (p : jsstring * value)
  : object item_change :=
  if differs prevState p
  then [(fst p, {| newVal := snd p; prevVal := get prevState (fst p) |})]
  else [].

(** A string without unpaired surrogates, the strings [encodeURIComponent]
    accepts. *)
Fixpoint well_formed (s : jsstring) : bool :=
  match s with
  | [] => true
  | C :: s1 =>
      if is_low_surrogate C then false
      else if is_high_surrogate C then
        match s1 with
        | kChar :: s2 => is_low_surrogate kChar && well_formed s2
        | [] => false
        end
      else (C <? 0x10000) && well_formed s1
  end.

(** The code units of code point [V]: itself, or a surrogate pair. *)
Definition code_units (V : N) : jsstring :=
  if V <? 0x10000 then [V]
  else [0xD800 + (V - 0x10000) / 0x400; 0xDC00 + (V - 0x10000) mod 0x400].

(** The characters [History.encode] writes: unescaped ones, ['%'] (with
    hexadecimal digits, which are unescaped characters) and ['+']. *)
Definition encoded_char (c : N) : bool :=
  uriUnescaped c || (c =? PERCENT) || (c =? PLUS).

(** A well-formed string is encoded, in characters of [encoded_char], and
    the encoding, after [encode]'s and [decode]'s replacements, decodes to
    it. *)
Definition roundtrips (s : jsstring) : Prop :=
  well_formed s = true ->
  exists e,
    encodeURIComponent s = Some e
    /\ Decode None (replace_plus (replace_pct20 e)) = Some s
    /\ Forall (fun c => encoded_char c = true) (replace_pct20 e).

(** Only well-formed strings are encoded. *)
Definition accepted_is_well_formed (s : jsstring) : Prop :=
  forall e, encodeURIComponent s = Some e -> well_formed s = true.

(** [parseHash] after its handling of the prefix: the matches of
    [_REGEX_HASH], split and decoded. *)
Definition parse_unprefixed (hash : jsstring) : option (object value) :=
  History.parseHash_each (History.match_REGEX_HASH O hash) [].

(** No two ['='] in a row. *)
Fixpoint no_double_equals (s : jsstring) : bool :=
  match s with
  | [] => true
  | a :: s' =>
      match s' with
      | b :: _ => negb ((a =? EQUALS) && (b =? EQUALS)) && no_double_equals s'
      | [] => true
      end
  end.

(** A page with the given prefix, an empty state and no fragment. *)
Definition world_with_prefix (prefix : jsstring) : world :=
  {| _state := []; hashPrefix := prefix; fragment := [] |}.

(** A match whose second parameter, as [split] finds it, is not empty. *)
Definition has_value (m : jsstring) : Prop :=
  exists p0 p1 ps, split EQUALS m = p0 :: p1 :: ps /\ p1 <> [].

(** No key bound to the empty string. *)
Definition no_empty_value (o : object value) : Prop :=
  forall k, lookup o k <> Some (str []).

(** A state whose keys are distinct and whose keys and values are non-empty
    well-formed strings. *)
Definition hashable_pair (p : jsstring * value) : Prop :=
  fst p <> [] /\ well_formed (fst p) = true
  /\ exists s, snd p = str s /\ s <> [] /\ well_formed s = true.

Definition hashable (state : object value) : Prop :=
  NoDup (map fst state) /\ Forall hashable_pair state.

(** The segment of the hash that [createHash] writes for a pair. *)
Definition written_as (p : jsstring * value) (seg : jsstring) : Prop :=
  exists k s e,
    snd p = str s /\ History.encode (fst p) = Some k /\ History.encode s = Some e
    /\ seg = k ++ EQUALS :: e /\ k <> [] /\ e <> [].

(** The two kinds of instance: of [HistoryBase] itself, and of [History]. *)
Definition is_instance (this : this_type) : Prop :=
  this = HistoryBase.this \/ this = History.this.

(** What [replace] does where [add] does [e]: the same event with
    [SRC_REPLACE], and [replaceHash] for [setHash]. *)
Definition as_replace (e : effect) : effect :=
  match e with
  | call_setHash h => call_replaceHash h
  | _ => with_src SRC_REPLACE e
  end.


(* ================================================================== *)
(** * Proofs *)

(** ** Strings and objects *)

Lemma str_eqb_eq (a b : jsstring) : str_eqb a b = true <-> a = b.
Proof.
  revert b; induction a as [|x a IH]; intros [|y b]; simpl;
    try (split; [discriminate | congruence]); try tauto.
  rewrite andb_true_iff, N.eqb_eq, IH. split.
  - intros [-> ->]; reflexivity.
  - intros H; inversion H; auto.
Qed.

Lemma str_eqb_refl (a : jsstring) : str_eqb a a = true.
Proof. apply str_eqb_eq; reflexivity. Qed.

Lemma str_eqb_neq (a b : jsstring) : a <> b -> str_eqb a b = false.
Proof.
  intros H. destruct (str_eqb a b) eqn:E; [|reflexivity].
  apply str_eqb_eq in E. contradiction.
Qed.

Lemma str_eqb_false (a b : jsstring) : str_eqb a b = false -> a <> b.
Proof. intros E ->. rewrite str_eqb_refl in E. discriminate. Qed.

Lemma str_eqb_sym (a b : jsstring) : str_eqb a b = str_eqb b a.
Proof.
  destruct (str_eqb b a) eqn:E.
  - apply str_eqb_eq in E. subst. apply str_eqb_refl.
  - apply str_eqb_neq. intros ->. rewrite str_eqb_refl in E. discriminate.
Qed.

Ltac str_cases a b :=
  let E := fresh "E" in
  destruct (str_eqb a b) eqn:E;
  [apply str_eqb_eq in E; try subst | pose proof (@str_eqb_false _ _ E)].

Section ObjectFacts.
Context {A : Type}.
Implicit Types (o : object A) (k : jsstring) (v : A).

Lemma lookup_set_prop_same o k v : lookup (set_prop o k v) k = Some v.
Proof.
  induction o as [|[k' x] o IH]; simpl.
  - now rewrite str_eqb_refl.
  - str_cases k' k; simpl.
    + now rewrite str_eqb_refl.
    + now rewrite E.
Qed.

Lemma lookup_set_prop_other o k k' v :
  k <> k' -> lookup (set_prop o k v) k' = lookup o k'.
Proof.
  intros Hne. induction o as [|[j x] o IH]; simpl.
  - now rewrite str_eqb_neq.
  - str_cases j k; simpl.
    + now rewrite (str_eqb_neq Hne).
    + now rewrite IH.
Qed.

Lemma lookup_delete_same o k : lookup (delete o k) k = None.
Proof.
  induction o as [|[j x] o IH]; simpl; [reflexivity|].
  str_cases j k; simpl; [assumption|]. now rewrite E.
Qed.

Lemma lookup_delete_other o k k' :
  k <> k' -> lookup (delete o k) k' = lookup o k'.
Proof.
  intros Hne. induction o as [|[j x] o IH]; simpl; [reflexivity|].
  str_cases j k; simpl.
  - now rewrite (str_eqb_neq Hne).
  - now rewrite IH.
Qed.

Lemma lookup_In o k v : lookup o k = Some v -> In (k, v) o.
Proof.
  induction o as [|[j x] o IH]; simpl; [discriminate|].
  str_cases j k.
  - intros [= ->]. now left.
  - intros H'. right. auto.
Qed.

Lemma lookup_None_keys o k : lookup o k = None <-> ~ In k (map fst o).
Proof.
  induction o as [|[j x] o IH]; simpl; [tauto|].
  str_cases j k.
  - split; [discriminate | intros H; exfalso; apply H; now left].
  - rewrite IH. split; [intros H1 [H2|H2]; auto | tauto].
Qed.

(** Writing a property that is not there appends it. *)
Lemma set_prop_absent o k v : lookup o k = None -> set_prop o k v = o ++ [(k, v)].
Proof.
  induction o as [|[j x] o IH]; simpl; [reflexivity|].
  str_cases j k; [discriminate|]. intros H'. now rewrite IH.
Qed.

(** Writing the value a property already has changes nothing. *)
Lemma set_prop_present o k v : lookup o k = Some v -> set_prop o k v = o.
Proof.
  induction o as [|[j x] o IH]; simpl; [discriminate|].
  str_cases j k.
  - now intros [= ->].
  - intros H'. now rewrite IH.
Qed.

Lemma mix_app (r s1 s2 : object A) : mix r (s1 ++ s2) = mix (mix r s1) s2.
Proof. unfold mix, Obj.each. apply fold_left_app. Qed.

(** Copying an object with distinct keys into an empty one gives it back:
    this is how [add] clones the current state. *)
Lemma mix_nil_NoDup_aux (r s : object A) :
  NoDup (map fst (r ++ s)) -> mix r s = r ++ s.
Proof.
  revert r. induction s as [|[k v] s IH]; intros r Hnd.
  - now rewrite app_nil_r.
  - change (mix r ((k, v) :: s)) with (mix (set_prop r k v) s).
    rewrite set_prop_absent.
    + rewrite IH; rewrite <- app_assoc; [reflexivity | exact Hnd].
    + apply lookup_None_keys. intros Hin.
      rewrite map_app in Hnd. simpl in Hnd.
      apply NoDup_remove_2 in Hnd. apply Hnd, in_or_app. now left.
Qed.

Lemma mix_nil_NoDup (s : object A) : NoDup (map fst s) -> mix [] s = s.
Proof. intros H. now rewrite mix_nil_NoDup_aux. Qed.

Lemma keys_set_prop_absent o k v :
  lookup o k = None -> map fst (set_prop o k v) = map fst o ++ [k].
Proof. intros H. rewrite set_prop_absent by assumption. now rewrite map_app. Qed.

Lemma keys_set_prop_present o k v x :
  lookup o k = Some x -> map fst (set_prop o k v) = map fst o.
Proof.
  induction o as [|[j y] o IH]; simpl; [discriminate|].
  str_cases j k; simpl; [reflexivity|]. intros H'. now rewrite IH.
Qed.

Lemma NoDup_set_prop o k v : NoDup (map fst o) -> NoDup (map fst (set_prop o k v)).
Proof.
  intros Hnd. destruct (lookup o k) eqn:E.
  - erewrite keys_set_prop_present by eassumption. assumption.
  - rewrite keys_set_prop_absent by assumption.
    apply lookup_None_keys in E.
    apply NoDup_app; [assumption | repeat constructor; inversion 1 | ].
    intros x Hx [<-|[]]. contradiction.
Qed.

Lemma NoDup_delete o k : NoDup (map fst o) -> NoDup (map fst (delete o k)).
Proof.
  induction o as [|[j x] o IH]; simpl; [auto|].
  intros Hnd. inversion Hnd as [|? ? Hnin Hnd']; subst.
  destruct (negb (str_eqb j k)); simpl; [|auto].
  constructor; [|auto].
  intros Hin. apply Hnin. unfold delete in Hin.
  apply in_map_iff in Hin as [[j' x'] [Hj Hin]]. simpl in Hj; subst.
  apply filter_In in Hin as [Hin _].
  apply in_map_iff. now exists (j, x').
Qed.

End ObjectFacts.

(** The per-item events of [_fireEvents], as a list. *)
Lemma each_fire {A} (o : object A) (f : jsstring -> A -> list effect) acc :
  Obj.each o (fun fired v key => fired ++ f key v) acc
  = acc ++ flat_map (fun p => f (fst p) (snd p)) o.
Proof.
  unfold Obj.each. revert acc.
  induction o as [|[k v] o IH]; intros acc; simpl.
  - now rewrite app_nil_r.
  - now rewrite IH, <- app_assoc.
Qed.

(* ================================================================== *)
(** ** HistoryBase: the two loops of [_resolveChanges] in closed form *)


Lemma keys_changed_entries prev new :
  incl (map fst (flat_map (changed_entry prev) new)) (map fst new).
Proof.
  induction new as [|[k v] new IH]; simpl; [apply incl_refl|].
  rewrite map_app. unfold changed_entry at 1. destruct (differs prev (k, v)); simpl.
  - apply incl_cons; [now left | now apply incl_tl].
  - now apply incl_tl.
Qed.

Lemma added_or_changed_gen prev new ch b :
  NoDup (map fst ch ++ map fst new) ->
  Obj.each new
    (fun '(changed, isChanged) newVal key =>
       let prevVal := get prev key in
       if negb (strict_eq newVal prevVal) then
         (set_prop changed key {| newVal := newVal; prevVal := prevVal |}, true)
       else (changed, isChanged))
    (ch, b)
  = (ch ++ flat_map (changed_entry prev) new, b || existsb (differs prev) new).
Proof.
  unfold Obj.each. revert ch b.
  induction new as [|[k v] new IH]; intros ch b Hnd; simpl.
  - now rewrite app_nil_r, orb_false_r.
  - unfold changed_entry at 1, differs at 1 2. simpl.
    destruct (negb (strict_eq v (get prev k))) eqn:E.
    + assert (Hk : lookup ch k = None).
      { apply lookup_None_keys. intros Hin.
        apply NoDup_remove_2 in Hnd. apply Hnd, in_or_app. now left. }
      rewrite IH.
      * rewrite set_prop_absent by assumption.
        now rewrite <- app_assoc, orb_true_r.
      * rewrite keys_set_prop_absent by assumption.
        now rewrite <- app_assoc.
    + rewrite IH; [reflexivity|].
      apply NoDup_remove_1 in Hnd. exact Hnd.
Qed.

Lemma added_or_changed_eq prev new :
  NoDup (map fst new) ->
  HistoryBase.added_or_changed prev new
  = (flat_map (changed_entry prev) new, existsb (differs prev) new).
Proof.
  intros Hnd. unfold HistoryBase.added_or_changed.
  now rewrite added_or_changed_gen.
Qed.

Lemma is_removed_delete_other (new : object value) k p :
  k <> fst p -> is_removed (delete new k) p = is_removed new p.
Proof.
  intros Hne. unfold is_removed, Obj.owns, get.
  now rewrite lookup_delete_other.
Qed.

Lemma removed_from_gen prev new rem b :
  NoDup (map fst rem ++ map fst prev) ->
  Obj.each prev
    (fun '(newState, removed, isChanged) prevVal key =>
       if negb (Obj.owns newState key) || strict_eq (get newState key) null
       then (delete newState key, set_prop removed key prevVal, true)
       else (newState, removed, isChanged))
    (new, rem, b)
  = (fold_left (@delete value) (map fst (filter (is_removed new) prev)) new,
     rem ++ filter (is_removed new) prev,
     b || existsb (is_removed new) prev).
Proof.
  unfold Obj.each. revert new rem b.
  induction prev as [|[k v] prev IH]; intros new rem b Hnd; simpl.
  - now rewrite app_nil_r, orb_false_r.
  - assert (Hk : lookup rem k = None).
    { apply lookup_None_keys. intros Hin.
      apply NoDup_remove_2 in Hnd. apply Hnd, in_or_app. now left. }
    assert (Hprev : ~ In k (map fst prev)).
    { apply NoDup_remove_2 in Hnd. intros Hin. apply Hnd, in_or_app. now right. }
    change (negb (Obj.owns new k) || strict_eq (get new k) null)
      with (is_removed new (k, v)).
    destruct (is_removed new (k, v)) eqn:E.
    + rewrite IH.
      * assert (Hf : filter (is_removed (delete new k)) prev
                     = filter (is_removed new) prev).
        { apply filter_ext_in. intros p Hp. apply is_removed_delete_other.
          intros ->. apply Hprev. now apply in_map. }
        assert (He : existsb (is_removed (delete new k)) prev
                     = existsb (is_removed new) prev).
        { clear -Hprev. induction prev as [|p prev IH]; simpl; [reflexivity|].
          rewrite is_removed_delete_other, IH; [reflexivity| |].
          - intros Hin. apply Hprev. now right.
          - intros ->. apply Hprev. now left. }
        rewrite Hf, He, set_prop_absent by assumption. simpl.
        now rewrite <- app_assoc, orb_true_r.
      * rewrite keys_set_prop_absent by assumption.
        now rewrite <- app_assoc.
    + rewrite IH; [reflexivity|].
      apply NoDup_remove_1 in Hnd. exact Hnd.
Qed.

Lemma removed_from_eq prev new b :
  NoDup (map fst prev) ->
  HistoryBase.removed_from prev new b
  = (fold_left (@delete value) (map fst (filter (is_removed new) prev)) new,
     filter (is_removed new) prev,
     b || existsb (is_removed new) prev).
Proof.
  intros Hnd. unfold HistoryBase.removed_from.
  now rewrite removed_from_gen.
Qed.

(** [_resolveChanges] on distinct keys: the change set, then the store and
    the events, or nothing at all. *)
Lemma resolveChanges_eq {this : this_type} src new w :
  NoDup (map fst (_state w)) -> NoDup (map fst new) ->
  HistoryBase._resolveChanges src new w
  = let prev := _state w in
    let rem := filter (is_removed new) prev in
    if existsb (differs prev) new || existsb (is_removed new) prev then
      HistoryBase._fireEvents src
        {| changed := flat_map (changed_entry prev) new;
           newState := fold_left (@delete value) (map fst rem) new;
           prevState := prev;
           removed := rem |} w
    else Some (w, []).
Proof.
  intros Hp Hn. unfold HistoryBase._resolveChanges.
  rewrite added_or_changed_eq by assumption.
  rewrite removed_from_eq by assumption.
  reflexivity.
Qed.

(* ================================================================== *)
(** ** HistoryBase: add and replace *)

(** With a plain [HistoryBase] the run of [_fireEvents] is the store and the
    three groups of events. *)
Lemma fireEvents_base src c w :
  HistoryBase._fireEvents (this := HistoryBase.this) src c w
  = Some (set_state (newState c) w,
          fire_change (changed c) (newState c) (prevState c) (removed c) src
          :: flat_map (fun p => HistoryBase._fireChangeEvent src (fst p) (snd p))
               (changed c)
          ++ flat_map (fun p => HistoryBase._fireRemoveEvent src (fst p) (snd p))
               (removed c)).
Proof.
  unfold HistoryBase._fireEvents, HistoryBase._defChangeFn. simpl.
  now rewrite !each_fire.
Qed.

Lemma map_with_src_fired src src0 c n p r ch rm :
  map (with_src src)
    (fire_change c n p r src0
     :: flat_map (fun p => HistoryBase._fireChangeEvent src0 (fst p) (snd p)) ch
     ++ flat_map (fun p => HistoryBase._fireRemoveEvent src0 (fst p) (snd p)) rm)
  = fire_change c n p r src
    :: flat_map (fun p => HistoryBase._fireChangeEvent src (fst p) (snd p)) ch
    ++ flat_map (fun p => HistoryBase._fireRemoveEvent src (fst p) (snd p)) rm.
Proof.
  simpl. f_equal. rewrite map_app. f_equal.
  - induction ch as [|[k v] ch IH]; simpl; [reflexivity | now rewrite IH].
  - induction rm as [|[k v] rm IH]; simpl; [reflexivity | now rewrite IH].
Qed.

Lemma fired_src src c n p r ch rm :
  Forall (fun e => effect_src e = Some src)
    (fire_change c n p r src
     :: flat_map (fun p => HistoryBase._fireChangeEvent src (fst p) (snd p)) ch
     ++ flat_map (fun p => HistoryBase._fireRemoveEvent src (fst p) (snd p)) rm).
Proof.
  constructor; [reflexivity|]. apply Forall_app. split.
  - induction ch as [|[k v] ch IH]; simpl; constructor; auto.
  - induction rm as [|[k v] rm IH]; simpl; constructor; auto.
Qed.

(** A run of [_change] on a plain [HistoryBase]: nothing, or the global
    event first, all events carrying [src], and the same run as with any
    other [src] up to that tag. *)
Lemma change_base_src src src0 a w :
  HistoryBase._change (this := HistoryBase.this) src a w
  = match HistoryBase._change (this := HistoryBase.this) src0 a w with
    | Some (w', es) => Some (w', map (with_src src) es)
    | None => None
    end.
Proof.
  unfold HistoryBase._change, HistoryBase._resolveChanges.
  destruct (HistoryBase.added_or_changed _ _) as [ch b1].
  destruct (HistoryBase.removed_from _ _ _) as [[ns rm] b]. destruct b.
  - rewrite !fireEvents_base. simpl newState; simpl changed; simpl removed.
    simpl prevState. now rewrite map_with_src_fired.
  - reflexivity.
Qed.

Lemma change_base_shape src a w :
  match HistoryBase._change (this := HistoryBase.this) src a w with
  | Some (w', es) =>
      Forall (fun e => effect_src e = Some src) es /\
      ((es = [] /\ w' = w) \/
       exists c n r rest,
         es = fire_change c n (_state w) r src :: rest /\ _state w' = n)
  | None => False
  end.
Proof.
  unfold HistoryBase._change, HistoryBase._resolveChanges.
  destruct (HistoryBase.added_or_changed _ _) as [ch b1].
  destruct (HistoryBase.removed_from _ _ _) as [[ns rm] b]. destruct b.
  - rewrite fireEvents_base. split; [apply fired_src|].
    right. simpl. eauto 6.
  - split; [constructor | now left].
Qed.

(** *** Facts on objects used below *)

Lemma lookup_app {A} (a b : object A) k :
  lookup (a ++ b) k = match lookup a k with Some v => Some v | None => lookup b k end.
Proof.
  induction a as [|[j x] a IH]; simpl; [reflexivity|].
  destruct (str_eqb j k); [reflexivity | exact IH].
Qed.

Lemma lookup_fold_delete_out {A} ks (o : object A) k :
  ~ In k ks -> lookup (fold_left (@delete A) ks o) k = lookup o k.
Proof.
  revert o. induction ks as [|j ks IH]; intros o Hnin; simpl; [reflexivity|].
  rewrite IH by (intros H; apply Hnin; now right).
  apply lookup_delete_other. intros ->. apply Hnin. now left.
Qed.

Lemma lookup_fold_delete_in {A} ks (o : object A) k :
  In k ks -> lookup (fold_left (@delete A) ks o) k = None.
Proof.
  revert o. induction ks as [|j ks IH]; intros o Hin; simpl; [destruct Hin|].
  destruct (in_dec (list_eq_dec N.eq_dec) k ks) as [Hk|Hk].
  - now apply IH.
  - destruct Hin as [->|Hin]; [|contradiction].
    rewrite lookup_fold_delete_out by assumption. apply lookup_delete_same.
Qed.

Lemma NoDup_fold_delete {A} ks (o : object A) :
  NoDup (map fst o) -> NoDup (map fst (fold_left (@delete A) ks o)).
Proof.
  revert o. induction ks as [|j ks IH]; intros o H; simpl; [assumption|].
  apply IH. now apply NoDup_delete.
Qed.

Lemma keys_filter_incl {A} (f : jsstring * A -> bool) (o : object A) :
  incl (map fst (filter f o)) (map fst o).
Proof.
  intros k Hin. apply in_map_iff in Hin as [p [<- Hp]].
  apply filter_In in Hp as [Hp _]. now apply in_map.
Qed.

Lemma NoDup_mix {A} (r s : object A) :
  NoDup (map fst r) -> NoDup (map fst (mix r s)).
Proof.
  unfold mix, Obj.each. revert r.
  induction s as [|[k v] s IH]; intros r H; simpl; [assumption|].
  apply IH. now apply NoDup_set_prop.
Qed.

Lemma NoDup_merge {A} (a b : object A) : NoDup (map fst (merge a b)).
Proof. unfold merge. apply NoDup_mix, NoDup_mix. constructor. Qed.

(** The candidate state of [add(key, v)] and [replace(key, v)]. *)
Lemma merge_key (S : object value) k v :
  NoDup (map fst S) -> merge S (set_prop [] k v) = set_prop S k v.
Proof. intros H. unfold merge. now rewrite mix_nil_NoDup. Qed.

Lemma get_lookup (o : object value) k v : lookup o k = Some v -> get o k = v.
Proof. unfold get. now intros ->. Qed.

Lemma get_absent (o : object value) k : lookup o k = None -> get o k = undefined.
Proof. unfold get. now intros ->. Qed.

Lemma strict_eq_refl v : strict_eq v v = true.
Proof. destruct v; simpl; auto using str_eqb_refl. Qed.

Lemma strict_eq_eq a b : strict_eq a b = true <-> a = b.
Proof.
  destruct a, b; simpl; try (split; [discriminate | congruence]); try tauto.
  rewrite str_eqb_eq. split; congruence.
Qed.

(** In an object with distinct keys every listed pair is what [get] finds. *)
Lemma NoDup_lookup {A} (o : object A) k v :
  NoDup (map fst o) -> In (k, v) o -> lookup o k = Some v.
Proof.
  induction o as [|[j x] o IH]; simpl; intros Hnd Hin; [destruct Hin|].
  inversion Hnd as [|? ? Hnin Hnd']; subst.
  destruct Hin as [[= -> ->]|Hin].
  - now rewrite str_eqb_refl.
  - str_cases j k.
    + exfalso. apply Hnin. apply in_map_iff. now exists (k, v).
    + auto.
Qed.

(** *** Nulling a key that the state does not hold *)

Lemma change_null_absent src w k :
  NoDup (map fst (_state w)) -> lookup (_state w) k = None ->
  exists c n r rest,
    HistoryBase._change (this := HistoryBase.this) src (a_key k null) w
    = Some (set_state n w, fire_change c n (_state w) r src :: rest)
    /\ lookup c k = Some {| newVal := null; prevVal := undefined |}
    /\ lookup r k = None
    /\ lookup n k = Some null
    /\ In (fire_key_Change k null undefined src) rest
    /\ NoDup (map fst n).
Proof.
  intros Hnd Hk. unfold HistoryBase._change.
  rewrite merge_key, set_prop_absent by assumption.
  assert (Hnd' : NoDup (map fst (_state w ++ [(k, null)]))).
  { rewrite <- set_prop_absent by assumption. now apply NoDup_set_prop. }
  rewrite resolveChanges_eq by assumption. cbv zeta.
  assert (Hd : differs (_state w) (k, null) = true).
  { unfold differs. simpl. now rewrite get_absent. }
  rewrite existsb_app. simpl existsb at 2. rewrite Hd. simpl orb.
  rewrite orb_true_r. simpl orb.
  rewrite fireEvents_base. cbn [changed newState prevState removed].
  set (rem := filter (is_removed (_state w ++ [(k, null)])) (_state w)).
  assert (Hrem : ~ In k (map fst rem)).
  { intros Hin. apply keys_filter_incl in Hin.
    now apply lookup_None_keys in Hk. }
  assert (Hc : lookup (flat_map (changed_entry (_state w)) (_state w ++ [(k, null)])) k
               = Some {| newVal := null; prevVal := undefined |}).
  { rewrite flat_map_app, lookup_app.
    replace (lookup (flat_map (changed_entry (_state w)) (_state w)) k) with (@None item_change).
    - simpl. unfold changed_entry. rewrite Hd. simpl.
      now rewrite str_eqb_refl, get_absent.
    - symmetry. apply lookup_None_keys. intros Hin.
      apply keys_changed_entries in Hin. now apply lookup_None_keys in Hk. }
  eexists _, _, _, _. split; [reflexivity|]. repeat split.
  - exact Hc.
  - now apply lookup_None_keys.
  - rewrite lookup_fold_delete_out by assumption.
    rewrite lookup_app, Hk. simpl. now rewrite str_eqb_refl.
  - apply in_or_app. left. apply in_flat_map.
    exists (k, {| newVal := null; prevVal := undefined |}).
    split; [now apply lookup_In | now left].
  - now apply NoDup_fold_delete.
Qed.

Lemma NoDup_keys_filter {A} (f : jsstring * A -> bool) (o : object A) :
  NoDup (map fst o) -> NoDup (map fst (filter f o)).
Proof.
  induction o as [|[j x] o IH]; simpl; intros Hnd; [constructor|].
  inversion Hnd as [|? ? Hnin Hnd']; subst.
  destruct (f (j, x)); simpl; [|auto].
  constructor; [|auto]. intros Hin. apply Hnin. now apply keys_filter_incl in Hin.
Qed.

Lemma lookup_filter {A} (f : jsstring * A -> bool) (o : object A) k v :
  NoDup (map fst o) -> lookup o k = Some v -> f (k, v) = true ->
  lookup (filter f o) k = Some v.
Proof.
  intros Hnd Hl Hf. apply NoDup_lookup; [now apply NoDup_keys_filter|].
  apply filter_In. split; [now apply lookup_In | assumption].
Qed.

(** *** Nulling a key whose stored value is [null] *)

Lemma change_null_on_null src w k :
  NoDup (map fst (_state w)) -> lookup (_state w) k = Some null ->
  exists c n r rest,
    HistoryBase._change (this := HistoryBase.this) src (a_key k null) w
    = Some (set_state n w, fire_change c n (_state w) r src :: rest)
    /\ lookup r k = Some null
    /\ lookup n k = None
    /\ In (fire_key_Remove k null src) rest.
Proof.
  intros Hnd Hk. unfold HistoryBase._change.
  rewrite merge_key, set_prop_present by assumption.
  rewrite resolveChanges_eq by assumption. cbv zeta.
  assert (Hr : is_removed (_state w) (k, null) = true).
  { unfold is_removed. simpl. rewrite (get_lookup _ _ Hk). apply orb_true_r. }
  assert (He : existsb (is_removed (_state w)) (_state w) = true).
  { apply existsb_exists. exists (k, null). split; [now apply lookup_In | exact Hr]. }
  rewrite He, orb_true_r, fireEvents_base. cbn [changed newState prevState removed].
  assert (Hl : lookup (filter (is_removed (_state w)) (_state w)) k = Some null)
    by now apply lookup_filter.
  eexists _, _, _, _. split; [reflexivity|]. repeat split.
  - exact Hl.
  - apply lookup_fold_delete_in. apply lookup_In in Hl.
    apply in_map_iff. now exists (k, null).
  - apply in_or_app. right. apply in_flat_map.
    exists (k, null). split; [now apply lookup_In | now left].
Qed.

(** *** Passing [undefined] for a key that holds a string *)

Lemma change_undefined_present src w k v :
  NoDup (map fst (_state w)) -> lookup (_state w) k = Some (str v) ->
  exists c n r rest,
    HistoryBase._change (this := HistoryBase.this) src (a_key k undefined) w
    = Some (set_state n w, fire_change c n (_state w) r src :: rest)
    /\ lookup n k = Some undefined.
Proof.
  intros Hnd Hk. unfold HistoryBase._change.
  rewrite merge_key by assumption.
  assert (Hnd' : NoDup (map fst (set_prop (_state w) k undefined)))
    by now apply NoDup_set_prop.
  rewrite resolveChanges_eq by assumption. cbv zeta.
  assert (Hl : lookup (set_prop (_state w) k undefined) k = Some undefined)
    by apply lookup_set_prop_same.
  assert (He : existsb (differs (_state w)) (set_prop (_state w) k undefined) = true).
  { apply existsb_exists. exists (k, undefined). split; [now apply lookup_In|].
    unfold differs. simpl. now rewrite (get_lookup _ _ Hk). }
  rewrite He. simpl orb. rewrite fireEvents_base.
  cbn [changed newState prevState removed].
  eexists _, _, _, _. split; [reflexivity|].
  rewrite lookup_fold_delete_out; [exact Hl|].
  intros Hin. apply in_map_iff in Hin as [[k' pv] [Hk' Hin]]. simpl in Hk'. subst k'.
  apply filter_In in Hin as [_ Hr]. unfold is_removed, Obj.owns in Hr. simpl in Hr.
  rewrite (get_lookup _ _ Hl), Hl in Hr. discriminate.
Qed.

(** *** Nulling a key that holds a value *)

(** The key leaves the stored state and is reported in [removed] with its
    old value; it is also reported in [changed], as going to [null]. *)
Lemma change_null_present src w k v :
  NoDup (map fst (_state w)) -> lookup (_state w) k = Some v -> v <> null ->
  exists c n r rest,
    HistoryBase._change (this := HistoryBase.this) src (a_key k null) w
    = Some (set_state n w, fire_change c n (_state w) r src :: rest)
    /\ lookup c k = Some {| newVal := null; prevVal := v |}
    /\ lookup r k = Some v
    /\ lookup n k = None.
Proof.
  intros Hnd Hk Hv. unfold HistoryBase._change. rewrite merge_key by assumption.
  set (merged := set_prop (_state w) k null).
  assert (Hndm : NoDup (map fst merged)) by now apply NoDup_set_prop.
  assert (Hm : lookup merged k = Some null) by apply lookup_set_prop_same.
  rewrite resolveChanges_eq by assumption. cbv zeta.
  assert (Hd : differs (_state w) (k, null) = true).
  { unfold differs. cbn [fst snd]. rewrite (get_lookup _ _ Hk).
    destruct v; try reflexivity. contradiction. }
  assert (He : existsb (differs (_state w)) merged = true).
  { apply existsb_exists. exists (k, null). split; [now apply lookup_In | exact Hd]. }
  rewrite He. cbn [orb]. rewrite fireEvents_base.
  cbn [changed newState prevState removed].
  assert (Hr : lookup (filter (is_removed merged) (_state w)) k = Some v).
  { apply lookup_filter; [assumption | assumption |].
    unfold is_removed. cbn [fst]. rewrite (get_lookup _ _ Hm). apply orb_true_r. }
  eexists _, _, _, _. split; [reflexivity|]. repeat split.
  - apply NoDup_lookup.
    + clear -Hndm. induction merged as [|[j x] m IH]; [constructor|].
      inversion Hndm as [|? ? Hnin Hnd']; subst. cbn [flat_map].
      unfold changed_entry at 1. destruct (differs (_state w) (j, x)); [|auto].
      cbn [app map fst]. constructor; [|auto].
      intros Hin. apply keys_changed_entries in Hin. contradiction.
    + apply in_flat_map. exists (k, null). split; [now apply lookup_In|].
      unfold changed_entry. rewrite Hd. cbn [fst snd].
      rewrite (get_lookup _ _ Hk). now left.
  - exact Hr.
  - apply lookup_fold_delete_in. apply lookup_In in Hr.
    apply in_map_iff. now exists (k, v).
Qed.

(** C1 (Scenario B).  With the state [{a: "1", b: "2"}],
    [add({a: null, c: "3"})] stores [{b: "2", c: "3"}] and reports
    [removed = {a: "1"}], but its [changed] holds the nulled key [a] (with
    [newVal = null]) next to [c], and [aChange] is fired before [aRemove]:
    the first loop of [_resolveChanges] does not leave out [null] values. *)
Theorem scenario_B_changed_holds_nulled_key :
  HistoryBase.add (this := HistoryBase.this)
    (a_state [(js "a", null); (js "c", str (js "3"))])
    (world_of [(js "a", str (js "1")); (js "b", str (js "2"))])
  = Some (world_of [(js "b", str (js "2")); (js "c", str (js "3"))],
          [fire_change
             [(js "a", {| newVal := null; prevVal := str (js "1") |});
              (js "c", {| newVal := str (js "3"); prevVal := undefined |})]
             [(js "b", str (js "2")); (js "c", str (js "3"))]
             [(js "a", str (js "1")); (js "b", str (js "2"))]
             [(js "a", str (js "1"))]
             SRC_ADD;
           fire_key_Change (js "a") null (str (js "1")) SRC_ADD;
           fire_key_Change (js "c") (str (js "3")) undefined SRC_ADD;
           fire_key_Remove (js "a") (str (js "1")) SRC_ADD]).
Proof. reflexivity. Qed.

(** C2.  The stored state does come to hold a key bound to [null]: when the
    state (of distinct keys) has no key [k], [add(k, null)] and
    [replace(k, null)] both store [k] with the value [null].  Only keys of
    the previous state are ever deleted from the new one. *)
Theorem null_for_absent_key_is_stored (w : world) (k : jsstring) :
  NoDup (map fst (_state w)) -> lookup (_state w) k = None ->
  (exists w' es,
     HistoryBase.add (this := HistoryBase.this) (a_key k null) w = Some (w', es)
     /\ lookup (_state w') k = Some null)
  /\ (exists w' es,
        HistoryBase.replace (this := HistoryBase.this) (a_key k null) w = Some (w', es)
        /\ lookup (_state w') k = Some null).
Proof.
  intros Hnd Hk. split.
  - destruct (change_null_absent SRC_ADD w k Hnd Hk)
      as (c & n & r & rest & Heq & _ & _ & Hn & _).
    exists (set_state n w). eexists. split; [exact Heq | exact Hn].
  - destruct (change_null_absent SRC_REPLACE w k Hnd Hk)
      as (c & n & r & rest & Heq & _ & _ & Hn & _).
    exists (set_state n w). eexists. split; [exact Heq | exact Hn].
Qed.

Lemma null_for_absent_key_is_stored_witness :
  (exists w' es,
     HistoryBase.add (this := HistoryBase.this) (a_key (js "k") null) (world_of [])
     = Some (w', es)
     /\ lookup (_state w') (js "k") = Some null)
  /\ (exists w' es,
        HistoryBase.replace (this := HistoryBase.this) (a_key (js "k") null)
          (world_of [])
        = Some (w', es)
        /\ lookup (_state w') (js "k") = Some null).
Proof.
  apply (null_for_absent_key_is_stored (world_of []) (js "k")).
  - constructor.
  - reflexivity.
Defined.

(** The same for [undefined]: a key that holds a string and is given
    [undefined] stays in the stored state, bound to [undefined]. *)
Lemma undefined_for_present_key_is_stored (w : world) (k v : jsstring) :
  NoDup (map fst (_state w)) -> lookup (_state w) k = Some (str v) ->
  exists w' es,
    HistoryBase.add (this := HistoryBase.this) (a_key k undefined) w = Some (w', es)
    /\ lookup (_state w') k = Some undefined.
Proof.
  intros Hnd Hk.
  destruct (change_undefined_present SRC_ADD w k Hnd Hk)
    as (c & n & r & rest & Heq & Hn).
  exists (set_state n w). eexists. split; [exact Heq | exact Hn].
Qed.

Example add_undefined_stores_undefined :
  HistoryBase.add (this := HistoryBase.this) (a_key (js "k") undefined)
    (world_of [(js "k", str (js "1"))])
  = Some (world_of [(js "k", undefined)],
          [fire_change
             [(js "k", {| newVal := undefined; prevVal := str (js "1") |})]
             [(js "k", undefined)] [(js "k", str (js "1"))] [] SRC_ADD;
           fire_key_Change (js "k") undefined (str (js "1")) SRC_ADD]).
Proof. reflexivity. Qed.

(** C3.  Nulling a key that the state (of distinct keys) does not hold
    leaves [removed] without that key, yet it is no silent call: the global
    change event is fired, with the key in [changed] as going from
    [undefined] to [null], and so is the key's own change event. *)
Theorem null_for_absent_key_fires_events (w : world) (k : jsstring) :
  NoDup (map fst (_state w)) -> lookup (_state w) k = None ->
  exists w' c n r rest,
    HistoryBase.add (this := HistoryBase.this) (a_key k null) w
    = Some (w', fire_change c n (_state w) r SRC_ADD :: rest)
    /\ lookup c k = Some {| newVal := null; prevVal := undefined |}
    /\ lookup r k = None
    /\ In (fire_key_Change k null undefined SRC_ADD) rest.
Proof.
  intros Hnd Hk.
  destruct (change_null_absent SRC_ADD w k Hnd Hk)
    as (c & n & r & rest & Heq & Hc & Hr & _ & Hin & _).
  exists (set_state n w), c, n, r, rest. auto.
Qed.

Lemma null_for_absent_key_fires_events_witness :
  exists w' c n r rest,
    HistoryBase.add (this := HistoryBase.this) (a_key (js "k") null) (world_of [])
    = Some (w', fire_change c n [] r SRC_ADD :: rest)
    /\ lookup c (js "k") = Some {| newVal := null; prevVal := undefined |}
    /\ lookup r (js "k") = None
    /\ In (fire_key_Change (js "k") null undefined SRC_ADD) rest.
Proof.
  apply (null_for_absent_key_fires_events (world_of []) (js "k")).
  - constructor.
  - reflexivity.
Defined.

Example add_null_to_empty_state :
  HistoryBase.add (this := HistoryBase.this) (a_key (js "k") null) (world_of [])
  = Some (world_of [(js "k", null)],
          [fire_change [(js "k", {| newVal := null; prevVal := undefined |})]
             [(js "k", null)] [] [] SRC_ADD;
           fire_key_Change (js "k") null undefined SRC_ADD]).
Proof. reflexivity. Qed.

(** C5.  A second identical call is not always silent: when the state (of
    distinct keys) has no key [k], [add(k, null)] stores [k] bound to
    [null], and the same call again finds candidate and previous state
    alike at every key, yet fires the global change event with [k] in
    [removed], and the key's remove event. *)
Theorem second_add_of_null_fires_remove (w : world) (k : jsstring) :
  NoDup (map fst (_state w)) -> lookup (_state w) k = None ->
  exists w1 es1 w2 c n r rest,
    HistoryBase.add (this := HistoryBase.this) (a_key k null) w = Some (w1, es1)
    /\ HistoryBase.add (this := HistoryBase.this) (a_key k null) w1
       = Some (w2, fire_change c n (_state w1) r SRC_ADD :: rest)
    /\ merge (_state w1) (set_prop [] k null) = _state w1
    /\ lookup r k = Some null
    /\ In (fire_key_Remove k null SRC_ADD) rest.
Proof.
  intros Hnd Hk.
  destruct (change_null_absent SRC_ADD w k Hnd Hk)
    as (c1 & n1 & r1 & rest1 & Heq1 & _ & _ & Hn1 & _ & Hnd1).
  destruct (change_null_on_null SRC_ADD (set_state n1 w) k Hnd1 Hn1)
    as (c & n & r & rest & Heq & Hr & _ & Hin).
  exists (set_state n1 w). eexists. exists (set_state n (set_state n1 w)), c, n, r, rest.
  split; [exact Heq1|]. split; [exact Heq|]. split; [|auto].
  cbn [_state set_state]. rewrite merge_key by assumption.
  now apply set_prop_present.
Qed.

Lemma second_add_of_null_fires_remove_witness :
  exists w1 es1 w2 c n r rest,
    HistoryBase.add (this := HistoryBase.this) (a_key (js "k") null) (world_of [])
    = Some (w1, es1)
    /\ HistoryBase.add (this := HistoryBase.this) (a_key (js "k") null) w1
       = Some (w2, fire_change c n (_state w1) r SRC_ADD :: rest)
    /\ merge (_state w1) (set_prop [] (js "k") null) = _state w1
    /\ lookup r (js "k") = Some null
    /\ In (fire_key_Remove (js "k") null SRC_ADD) rest.
Proof.
  apply (second_add_of_null_fires_remove (world_of []) (js "k")).
  - constructor.
  - reflexivity.
Defined.

Example add_null_twice :
  HistoryBase.add (this := HistoryBase.this) (a_key (js "k") null)
    (world_of [(js "k", null)])
  = Some (world_of [],
          [fire_change [] [] [(js "k", null)] [(js "k", null)] SRC_ADD;
           fire_key_Remove (js "k") null SRC_ADD]).
Proof. reflexivity. Qed.

(* ================================================================== *)
(** ** URI component coding *)

Ltac Zify.zify_post_hook ::= Z.to_euclidean_division_equations.

(** Boolean tests in the hypotheses, as propositions. *)
Ltac b2p :=
  repeat match goal with
    | H : _ || _ = true |- _ => apply orb_true_iff in H; destruct H as [H|H]
    | H : _ && _ = true |- _ => apply andb_true_iff in H; destruct H
    | H : _ || _ = false |- _ => apply orb_false_iff in H; destruct H
    | H : _ && _ = false |- _ => apply andb_false_iff in H; destruct H as [H|H]
    | H : negb _ = true |- _ => apply negb_true_iff in H
    | H : negb _ = false |- _ => apply negb_false_iff in H
    | H : (_ <? _) = true |- _ => apply N.ltb_lt in H
    | H : (_ <? _) = false |- _ => apply N.ltb_ge in H
    | H : (_ <=? _) = true |- _ => apply N.leb_le in H
    | H : (_ <=? _) = false |- _ => apply N.leb_gt in H
    | H : (_ =? _) = true |- _ => apply N.eqb_eq in H
    | H : (_ =? _) = false |- _ => apply N.eqb_neq in H
    | H : false = true |- _ => discriminate H
    | H : true = false |- _ => discriminate H
    end.

(** Settle the comparisons of the goal one way or the other. *)
Ltac cmp :=
  repeat match goal with
    | |- context [?a <? ?b] =>
        first [ replace (a <? b) with true by (symmetry; apply N.ltb_lt; lia)
              | replace (a <? b) with false by (symmetry; apply N.ltb_ge; lia) ]
    | |- context [?a <=? ?b] =>
        first [ replace (a <=? b) with true by (symmetry; apply N.leb_le; lia)
              | replace (a <=? b) with false by (symmetry; apply N.leb_gt; lia) ]
    | |- context [?a =? ?b] =>
        first [ replace (a =? b) with true by (symmetry; apply N.eqb_eq; lia)
              | replace (a =? b) with false by (symmetry; apply N.eqb_neq; lia) ]
    end.

Lemma uriUnescaped_range c :
  uriUnescaped c = true ->
  c < 128 /\ c <> PERCENT /\ c <> PLUS /\ c <> EQUALS /\ c <> AMP /\ c <> HASH
  /\ c <> QUESTION /\ c <> SPACE.
Proof.
  unfold uriUnescaped, PERCENT, PLUS, EQUALS, AMP, HASH, QUESTION, SPACE.
  cbn [js list_ascii_of_string map existsb]. cbv [N_of_ascii N_of_digits].
  cbn [N.add N.mul Pos.add Pos.succ Pos.mul].
  intros H. b2p; lia.
Qed.

Lemma uriUnescaped_alnum c :
  (48 <= c <= 57) \/ (65 <= c <= 90) \/ (97 <= c <= 122) -> uriUnescaped c = true.
Proof.
  intros H. unfold uriUnescaped.
  destruct H as [H|[H|H]]; cmp; reflexivity || (rewrite ?orb_true_r; reflexivity).
Qed.

Lemma hexDigit_range d : d < 16 -> (48 <= hexDigit d <= 57) \/ (65 <= hexDigit d <= 70).
Proof. unfold hexDigit. intros H. destruct (N.ltb_spec d 10); lia. Qed.

Lemma hexVal_hexDigit d : d < 16 -> hexVal (hexDigit d) = Some d.
Proof.
  unfold hexVal, hexDigit. intros H.
  destruct (N.ltb_spec d 10).
  - cmp. cbn [andb]. f_equal. lia.
  - cmp. cbn [andb]. f_equal. lia.
Qed.

(** One escaped octet, read by [Decode]. *)
Lemma Decode_escape st b Y :
  b < 256 ->
  Decode st (PERCENT :: hexDigit (b / 16) :: hexDigit (b mod 16) :: Y)
  = match st with
    | None =>
        if b <? 0x80 then let? R := Decode None Y in Some (b :: R)
        else if b <? 0xC0 then None
        else if b <? 0xE0 then Decode (Some (O, 2, b - 0xC0)) Y
        else if b <? 0xF0 then Decode (Some (1%nat, 3, b - 0xE0)) Y
        else if b <? 0xF8 then Decode (Some (2%nat, 4, b - 0xF0)) Y
        else None
    | Some (j, n, V) =>
        if (0x80 <=? b) && (b <? 0xC0) then
          match j with
          | O => let? U := decoded_units n (V * 64 + (b - 0x80)) in
                 let? R := Decode None Y in Some (U ++ R)
          | S j' => Decode (Some (j', n, V * 64 + (b - 0x80))) Y
          end
        else None
    end.
Proof.
  intros Hb. cbn [Decode]. rewrite N.eqb_refl.
  rewrite !hexVal_hexDigit by lia. cbv zeta.
  replace (16 * (b / 16) + b mod 16) with b by lia. reflexivity.
Qed.

Lemma escape_cons b octets :
  escape (b :: octets)
  = PERCENT :: hexDigit (b / 16) :: hexDigit (b mod 16) :: escape octets.
Proof. reflexivity. Qed.

(** The escaped UTF-8 form of a code point decodes to its code units. *)
Lemma Decode_utf8 V Y :
  V < 0x110000 -> ~ (0xD800 <= V <= 0xDFFF) ->
  Decode None (escape (utf8 V) ++ Y)
  = let? R := Decode None Y in Some (code_units V ++ R).
Proof.
  intros Hmax Hsur. unfold utf8, code_units.
  destruct (N.ltb_spec V 0x80); [|destruct (N.ltb_spec V 0x800);
    [|destruct (N.ltb_spec V 0x10000)]].
  - rewrite escape_cons. cbn [escape flat_map app].
    rewrite Decode_escape by lia. cmp. reflexivity.
  - rewrite !escape_cons. cbn [escape flat_map app].
    rewrite Decode_escape by lia. cmp.
    rewrite Decode_escape by lia. cmp. cbn [andb].
    replace ((0xC0 + V / 64 - 0xC0) * 64 + (0x80 + V mod 64 - 0x80)) with V by lia.
    unfold decoded_units. cmp. reflexivity.
  - rewrite !escape_cons. cbn [escape flat_map app].
    rewrite Decode_escape by lia. cmp.
    rewrite Decode_escape by lia. cmp. cbn [andb].
    rewrite Decode_escape by lia. cmp. cbn [andb].
    replace (((0xE0 + V / 4096 - 0xE0) * 64 + (0x80 + (V / 64) mod 64 - 0x80)) * 64
             + (0x80 + V mod 64 - 0x80)) with V by lia.
    unfold decoded_units.
    assert (Hs : (0xD800 <=? V) && (V <=? 0xDFFF) = false).
    { apply andb_false_iff.
      destruct (N.leb_spec 0xD800 V); [right; apply N.leb_gt; lia | now left]. }
    rewrite Hs. cmp. reflexivity.
  - rewrite !escape_cons. cbn [escape flat_map app].
    rewrite Decode_escape by lia. cmp.
    rewrite Decode_escape by lia. cmp. cbn [andb].
    rewrite Decode_escape by lia. cmp. cbn [andb].
    rewrite Decode_escape by lia. cmp. cbn [andb].
    replace ((((0xF0 + V / 262144 - 0xF0) * 64 + (0x80 + (V / 4096) mod 64 - 0x80)) * 64
              + (0x80 + (V / 64) mod 64 - 0x80)) * 64
             + (0x80 + V mod 64 - 0x80)) with V by lia.
    unfold decoded_units. cmp. reflexivity.
Qed.

Lemma utf8_octets V :
  V < 0x110000 -> Forall (fun b => b < 256) (utf8 V).
Proof.
  intros H. unfold utf8.
  destruct (N.ltb_spec V 0x80); [|destruct (N.ltb_spec V 0x800);
    [|destruct (N.ltb_spec V 0x10000)]];
    repeat constructor; lia.
Qed.

Lemma utf8_octets_not_space V :
  V < 0x110000 -> V <> 32 -> Forall (fun b => b < 256 /\ b <> 32) (utf8 V).
Proof.
  intros H Hs. unfold utf8.
  destruct (N.ltb_spec V 0x80); [|destruct (N.ltb_spec V 0x800);
    [|destruct (N.ltb_spec V 0x10000)]];
    repeat constructor; lia.
Qed.

Lemma replace_pct20_unfold c h1 h2 s3 :
  replace_pct20 (c :: h1 :: h2 :: s3)
  = if (c =? PERCENT) && (h1 =? DIGIT_2) && (h2 =? DIGIT_0)
    then PLUS :: replace_pct20 s3
    else c :: replace_pct20 (h1 :: h2 :: s3).
Proof. reflexivity. Qed.

Lemma replace_pct20_cons c s :
  c <> PERCENT -> replace_pct20 (c :: s) = c :: replace_pct20 s.
Proof.
  intros Hc. destruct s as [|h1 [|h2 s3]]; try reflexivity.
  rewrite replace_pct20_unfold. apply N.eqb_neq in Hc. now rewrite Hc.
Qed.

Lemma replace_pct20_escape octets R :
  Forall (fun b => b < 256 /\ b <> 32) octets ->
  replace_pct20 (escape octets ++ R) = escape octets ++ replace_pct20 R.
Proof.
  induction 1 as [|b octets [Hb Hs] _ IH]; [reflexivity|].
  rewrite escape_cons. cbn [app].
  pose proof (hexDigit_range (d := b / 16)) as H1.
  pose proof (hexDigit_range (d := b mod 16)) as H2.
  assert (Hne : (hexDigit (b / 16) =? DIGIT_2) && (hexDigit (b mod 16) =? DIGIT_0) = false).
  { apply andb_false_iff. unfold hexDigit, DIGIT_2, DIGIT_0.
    destruct (N.ltb_spec (b / 16) 10); destruct (N.ltb_spec (b mod 16) 10);
      destruct (N.eq_dec (b / 16) 2);
      try (left; apply N.eqb_neq; lia); right; apply N.eqb_neq; lia. }
  rewrite replace_pct20_unfold, <- andb_assoc, Hne, andb_false_r.
  f_equal. rewrite !replace_pct20_cons by (unfold PERCENT; lia).
  now rewrite IH.
Qed.

Lemma replace_pct20_space R :
  replace_pct20 (escape (utf8 SPACE) ++ R) = PLUS :: replace_pct20 R.
Proof. reflexivity. Qed.

Lemma replace_plus_escape octets X :
  Forall (fun b => b < 256) octets ->
  replace_plus (escape octets ++ X) = escape octets ++ replace_plus X.
Proof.
  induction 1 as [|b octets Hb _ IH]; [reflexivity|].
  rewrite escape_cons. unfold replace_plus in *. cbn [app map]. rewrite IH.
  pose proof (hexDigit_range (d := b / 16)) as H1.
  pose proof (hexDigit_range (d := b mod 16)) as H2.
  unfold PLUS, PERCENT. cmp. reflexivity.
Qed.

Lemma escape_encoded octets :
  Forall (fun b => b < 256) octets ->
  Forall (fun c => encoded_char c = true) (escape octets).
Proof.
  induction 1 as [|b octets Hb _ IH]; [constructor|].
  rewrite escape_cons.
  pose proof (hexDigit_range (d := b / 16)) as H1.
  pose proof (hexDigit_range (d := b mod 16)) as H2.
  constructor; [reflexivity|].
  constructor; [unfold encoded_char; rewrite uriUnescaped_alnum; [reflexivity|lia]|].
  constructor; [unfold encoded_char; rewrite uriUnescaped_alnum; [reflexivity|lia]|].
  assumption.
Qed.

(** An escaped code point survives [encode]'s and [decode]'s handling of
    ["%20"] and ['+']. *)
Lemma escaped_point_roundtrip V R :
  V < 0x110000 -> ~ (0xD800 <= V <= 0xDFFF) ->
  Decode None (replace_plus (replace_pct20 (escape (utf8 V) ++ R)))
  = (let? r := Decode None (replace_plus (replace_pct20 R)) in
     Some (code_units V ++ r))
  /\ (Forall (fun c => encoded_char c = true) (replace_pct20 R) ->
      Forall (fun c => encoded_char c = true)
        (replace_pct20 (escape (utf8 V) ++ R))).
Proof.
  intros Hmax Hsur. destruct (N.eq_dec V SPACE) as [->|Hsp].
  - rewrite replace_pct20_space. split; [reflexivity|].
    intros H. constructor; [reflexivity | assumption].
  - pose proof (utf8_octets Hmax) as Ho.
    rewrite replace_pct20_escape by (apply utf8_octets_not_space; assumption).
    rewrite replace_plus_escape by assumption. split.
    + now apply Decode_utf8.
    + intros H. apply Forall_app. split; [now apply escape_encoded | assumption].
Qed.

Lemma unescaped_roundtrip C R :
  uriUnescaped C = true ->
  Decode None (replace_plus (replace_pct20 (C :: R)))
  = (let? r := Decode None (replace_plus (replace_pct20 R)) in Some (C :: r))
  /\ (Forall (fun c => encoded_char c = true) (replace_pct20 R) ->
      Forall (fun c => encoded_char c = true) (replace_pct20 (C :: R))).
Proof.
  intros Hu. pose proof (uriUnescaped_range _ Hu) as (_ & Hp & Hpl & _).
  rewrite replace_pct20_cons by assumption. split.
  - unfold replace_plus. cbn [map Decode].
    apply N.eqb_neq in Hp, Hpl. now rewrite Hpl, Hp.
  - intros H. constructor; [|assumption]. unfold encoded_char. now rewrite Hu.
Qed.

(** Strings are read one or two code units at a time. *)
Lemma jsstring_ind2 (P : jsstring -> Prop) :
  P [] -> (forall c, P [c]) ->
  (forall c k s, P s -> P (k :: s) -> P (c :: k :: s)) ->
  forall s, P s.
Proof.
  intros H0 H1 H2 s.
  assert (H : P s /\ forall c, P (c :: s)); [|tauto].
  induction s as [|k s [IH1 IH2]]; split; auto.
Qed.


Lemma roundtrips_step C s1 :
  roundtrips s1 -> (forall k s2, s1 = k :: s2 -> roundtrips s2) ->
  roundtrips (C :: s1).
Proof.
  intros IH1 IH2 Hwf. cbn [well_formed encodeURIComponent] in *.
  destruct (uriUnescaped C) eqn:Hu.
  - pose proof (uriUnescaped_range _ Hu) as (Hlt & _).
    assert (Hl : is_low_surrogate C = false).
    { unfold is_low_surrogate. apply andb_false_iff. left. apply N.leb_gt. lia. }
    assert (Hh : is_high_surrogate C = false).
    { unfold is_high_surrogate. apply andb_false_iff. left. apply N.leb_gt. lia. }
    rewrite Hl, Hh in Hwf. b2p.
    destruct (IH1 H0) as (e & -> & Hd & Hf).
    exists (C :: e). split; [reflexivity|].
    destruct (@unescaped_roundtrip C e Hu) as [-> Hf'].
    rewrite Hd. auto.
  - destruct (is_low_surrogate C) eqn:Hl; [discriminate|].
    destruct (is_high_surrogate C) eqn:Hh; cbn [negb].
    + destruct s1 as [|k s2]; [discriminate|].
      b2p. rewrite H. clear Hl. unfold is_high_surrogate, is_low_surrogate in *. b2p.
      destruct (IH2 k s2 eq_refl H0) as (e & -> & Hd & Hf).
      eexists. split; [reflexivity|].
      set (V := (C - 0xD800) * 0x400 + (k - 0xDC00) + 0x10000).
      assert (HV : V < 0x110000) by (unfold V; lia).
      assert (HS : ~ (0xD800 <= V <= 0xDFFF)) by (unfold V; lia).
      destruct (@escaped_point_roundtrip _ e HV HS) as [-> Hf'].
      rewrite Hd. split; [|auto].
      unfold code_units. replace (V <? 0x10000) with false
        by (symmetry; apply N.ltb_ge; unfold V; lia).
      cbn [app]. do 2 f_equal; [unfold V; lia|].
      f_equal. unfold V. lia.
    + b2p. pose proof H as Hlt. apply N.ltb_lt in H. rewrite H.
      destruct (IH1 H0) as (e & -> & Hd & Hf).
      eexists. split; [reflexivity|].
      assert (HV : C < 0x110000) by lia.
      assert (HS : ~ (0xD800 <= C <= 0xDFFF)).
      { unfold is_high_surrogate, is_low_surrogate in *. b2p; lia. }
      destruct (@escaped_point_roundtrip _ e HV HS) as [-> Hf'].
      rewrite Hd. split; [|auto].
      unfold code_units. now rewrite H.
Qed.

Lemma well_formed_roundtrips s : roundtrips s.
Proof.
  induction s as [| c | c k s IH1 IH2] using jsstring_ind2.
  - intros _. exists []. repeat split. constructor.
  - apply roundtrips_step.
    + intros _. exists []. repeat split. constructor.
    + discriminate.
  - apply roundtrips_step; [assumption|]. now intros k' s2 [= -> ->].
Qed.

(** [encodeURIComponent] accepts the well-formed strings and no others. *)
Lemma accepted_step C s1 :
  accepted_is_well_formed s1 ->
  (forall k s2, s1 = k :: s2 -> accepted_is_well_formed s2) ->
  accepted_is_well_formed (C :: s1).
Proof.
  intros IH1 IH2 e. cbn [well_formed encodeURIComponent].
  destruct (uriUnescaped C) eqn:Hu.
  - pose proof (uriUnescaped_range _ Hu) as (Hlt & _).
    unfold is_low_surrogate, is_high_surrogate. cmp. cbn [andb].
    destruct (encodeURIComponent s1) eqn:E; [|intros; discriminate].
    intros _. exact (IH1 _ E).
  - destruct (is_low_surrogate C); [intros; discriminate|].
    destruct (is_high_surrogate C); cbn [negb].
    + destruct s1 as [|k s2]; [intros; discriminate|].
      destruct (is_low_surrogate k); [|intros; discriminate].
      destruct (encodeURIComponent s2) eqn:E; [|intros; discriminate].
      intros _. exact (IH2 k s2 eq_refl _ E).
    + destruct (C <? 0x10000); [|intros; discriminate].
      destruct (encodeURIComponent s1) eqn:E; [|intros; discriminate].
      intros _. exact (IH1 _ E).
Qed.

Lemma encodeURIComponent_well_formed s : accepted_is_well_formed s.
Proof.
  induction s as [| c | c k s IH1 IH2] using jsstring_ind2.
  - intros e _. reflexivity.
  - apply accepted_step; [intros e _; reflexivity | discriminate].
  - apply accepted_step; [assumption|]. now intros k' s2 [= -> ->].
Qed.

(** [decode] inverts [encode] on every string that [encode] accepts, and
    [encode] accepts the well-formed strings. *)
Lemma encode_decode s :
  well_formed s = true ->
  exists e, History.encode s = Some e /\ History.decode e = Some s
            /\ Forall (fun c => encoded_char c = true) e.
Proof.
  intros Hwf. destruct (well_formed_roundtrips s Hwf) as (e & He & Hd & Hf).
  exists (replace_pct20 e). unfold History.encode, History.decode, decodeURIComponent.
  rewrite He. auto.
Qed.

Lemma encode_total_iff s :
  (exists e, History.encode s = Some e) <-> well_formed s = true.
Proof.
  split.
  - intros [e He]. unfold History.encode in He.
    destruct (encodeURIComponent s) eqn:E; [|discriminate].
    exact (@encodeURIComponent_well_formed s _ E).
  - intros Hwf. destruct (encode_decode s Hwf) as (e & He & _). eauto.
Qed.

(* ================================================================== *)
(** ** The pattern [_REGEX_HASH] *)

Lemma span_app p s : fst (History.span p s) ++ snd (History.span p s) = s.
Proof.
  induction s as [|c s IH]; cbn [History.span]; [reflexivity|].
  destruct (p c); [|reflexivity].
  destruct (History.span p s) as [run rest]. cbn [fst snd app] in *. now rewrite IH.
Qed.

(** A run does not see what follows a character outside the class. *)
Lemma span_stop p s1 c s2 :
  p c = false ->
  History.span p (s1 ++ c :: s2)
  = (fst (History.span p s1), snd (History.span p s1) ++ c :: s2).
Proof.
  intros Hc. induction s1 as [|a s1 IH]; cbn [History.span app].
  - now rewrite Hc.
  - destruct (p a); [|reflexivity].
    rewrite IH. now destruct (History.span p s1).
Qed.

Lemma span_all p s : forallb p s = true -> History.span p s = (s, []).
Proof.
  induction s as [|a s IH]; cbn [History.span forallb]; [reflexivity|].
  intros H. apply andb_true_iff in H as [Ha Hs]. now rewrite Ha, IH.
Qed.

Lemma class1_AMP : History.class1 AMP = false.
Proof. reflexivity. Qed.

Lemma class2_AMP : History.class2 AMP = false.
Proof. reflexivity. Qed.

Lemma equals_group2_stop s1 s2 :
  History.equals_group2 (s1 ++ AMP :: s2)
  = match History.equals_group2 s1 with
    | Some (g2, rest) => Some (g2, rest ++ AMP :: s2)
    | None => None
    end.
Proof.
  destruct s1 as [|c s1]; [reflexivity|]. cbn [History.equals_group2 app].
  destruct (c =? EQUALS); [|reflexivity].
  rewrite span_stop by apply class2_AMP.
  destruct (History.span History.class2 s1) as [[|a g2] rest]; reflexivity.
Qed.

(** A match never reaches past an ['&']. *)
Lemma REGEX_HASH_at_stop s1 s2 :
  History._REGEX_HASH_at (s1 ++ AMP :: s2)
  = match History._REGEX_HASH_at s1 with
    | Some (g1, g2, rest) => Some (g1, g2, rest ++ AMP :: s2)
    | None => None
    end.
Proof.
  induction s1 as [|c s1 IH]; [reflexivity|].
  cbn [History._REGEX_HASH_at app]. destruct (History.class1 c); [|reflexivity].
  rewrite IH. destruct (History._REGEX_HASH_at s1) as [[[g1 g2] rest]|]; [reflexivity|].
  rewrite equals_group2_stop.
  destruct (History.equals_group2 s1) as [[g2 rest]|]; reflexivity.
Qed.

Lemma equals_group2_eq s g2 rest :
  History.equals_group2 s = Some (g2, rest) ->
  s = EQUALS :: g2 ++ rest /\ g2 <> [].
Proof.
  destruct s as [|c s]; [discriminate|]. cbn [History.equals_group2].
  destruct (N.eqb_spec c EQUALS); [subst|discriminate].
  pose proof (span_app History.class2 s) as Hs.
  destruct (History.span History.class2 s) as [[|a run] r]; [discriminate|].
  intros [= <- <-]. cbn [fst snd] in Hs. now rewrite Hs.
Qed.

(** A match is the first group, ['='] and the second group, both groups
    being non-empty, and it is a prefix of the string searched. *)
Lemma REGEX_HASH_at_eq s g1 g2 rest :
  History._REGEX_HASH_at s = Some (g1, g2, rest) ->
  s = g1 ++ EQUALS :: g2 ++ rest /\ g1 <> [] /\ g2 <> [].
Proof.
  revert g1 g2 rest. induction s as [|c s IH]; intros g1 g2 rest; [discriminate|].
  cbn [History._REGEX_HASH_at]. destruct (History.class1 c); [|discriminate].
  destruct (History._REGEX_HASH_at s) as [[[h1 h2] r]|].
  - intros [= <- <- <-]. destruct (IH _ _ _ eq_refl) as (-> & _ & Hg2).
    repeat split; [discriminate | assumption].
  - destruct (History.equals_group2 s) as [[h2 r]|] eqn:E; [|discriminate].
    intros [= <- <- <-]. apply equals_group2_eq in E as [-> Hg2].
    repeat split; [discriminate | assumption].
Qed.

(** The matcher against the pattern: what it returns is a match (both
    groups within their classes, the second as long as it can be), ... *)
Lemma span_run p s :
  forallb p (fst (History.span p s)) = true
  /\ match snd (History.span p s) with
     | [] => True
     | c :: _ => p c = false
     end.
Proof.
  induction s as [|c s [IH1 IH2]]; cbn [History.span]; [now split|].
  destruct (p c) eqn:E.
  - destruct (History.span p s) as [run rest]. cbn [fst snd forallb] in *.
    now rewrite E, IH1.
  - now split.
Qed.

Lemma equals_group2_sound s g2 rest :
  History.equals_group2 s = Some (g2, rest) ->
  forallb History.class2 g2 = true
  /\ match rest with [] => True | c :: _ => History.class2 c = false end.
Proof.
  destruct s as [|c s]; [discriminate|]. cbn [History.equals_group2].
  destruct (c =? EQUALS); [|discriminate].
  pose proof (span_run History.class2 s) as H.
  destruct (History.span History.class2 s) as [[|a run] r]; [discriminate|].
  now intros [= <- <-].
Qed.

Lemma REGEX_HASH_at_sound s : forall g1 g2 rest,
  History._REGEX_HASH_at s = Some (g1, g2, rest) ->
  forallb History.class1 g1 = true
  /\ forallb History.class2 g2 = true
  /\ match rest with [] => True | c :: _ => History.class2 c = false end.
Proof.
  induction s as [|c s IH]; intros g1 g2 rest; [discriminate|].
  cbn [History._REGEX_HASH_at]. destruct (History.class1 c) eqn:Ec; [|discriminate].
  destruct (History._REGEX_HASH_at s) as [[[h1 h2] r]|].
  - intros [= <- <- <-]. destruct (IH _ _ _ eq_refl) as (H1 & H2 & H3).
    cbn [forallb]. now rewrite Ec, H1.
  - destruct (History.equals_group2 s) as [[h2 r]|] eqn:E; [|discriminate].
    intros [= <- <- <-]. apply equals_group2_sound in E as [H2 H3].
    cbn [forallb]. now rewrite Ec.
Qed.

Lemma span_nonempty p c s : p c = true -> fst (History.span p (c :: s)) <> [].
Proof.
  intros H. cbn [History.span]. rewrite H.
  now destruct (History.span p s).
Qed.

(** ... and wherever the pattern can match from the head of the string the
    matcher finds a match, with a first group at least as long. *)
Lemma REGEX_HASH_at_greedy g1' : forall g2' r',
  g1' <> [] -> forallb History.class1 g1' = true ->
  g2' <> [] -> forallb History.class2 g2' = true ->
  exists g1 g2 rest,
    History._REGEX_HASH_at (g1' ++ EQUALS :: g2' ++ r') = Some (g1, g2, rest)
    /\ (List.length g1' <= List.length g1)%nat.
Proof.
  induction g1' as [|c t IH]; intros g2' r' Hne H1 Hg2 H2; [contradiction|].
  cbn [forallb] in H1. apply andb_true_iff in H1 as [Hc Ht].
  cbn [app History._REGEX_HASH_at]. rewrite Hc.
  destruct t as [|d t].
  - cbn [app]. destruct (History._REGEX_HASH_at (EQUALS :: g2' ++ r'))
      as [[[g1 g2] rest]|].
    + exists (c :: g1), g2, rest. split; [reflexivity | simpl; lia].
    + cbn [History.equals_group2]. rewrite N.eqb_refl.
      destruct g2' as [|a g2']; [contradiction|].
      cbn [forallb] in H2. apply andb_true_iff in H2 as [Ha _].
      pose proof (span_nonempty History.class2 a (g2' ++ r') Ha) as Hs.
      cbn [app]. destruct (History.span History.class2 (a :: g2' ++ r'))
        as [[|b run] rest]; [now contradiction Hs|].
      exists [c], (b :: run), rest. split; [reflexivity | simpl; lia].
  - destruct (IH g2' r') as (g1 & g2 & rest & E & Hl); try assumption; [discriminate|].
    rewrite E. exists (c :: g1), g2, rest. split; [reflexivity | simpl in *; lia].
Qed.

Lemma match_REGEX_HASH_skip_all k s :
  (List.length s <= k)%nat -> History.match_REGEX_HASH k s = [].
Proof.
  revert k. induction s as [|c s IH]; intros k Hk; [reflexivity|].
  cbn [History.match_REGEX_HASH]. destruct k as [|k]; [simpl in Hk; lia|].
  apply IH. simpl in Hk. lia.
Qed.

(** The matches of a string cut at an ['&'] are those of the two parts. *)
Lemma match_REGEX_HASH_app k s1 s2 :
  (k <= List.length s1)%nat ->
  History.match_REGEX_HASH k (s1 ++ AMP :: s2)
  = History.match_REGEX_HASH k s1 ++ History.match_REGEX_HASH O s2.
Proof.
  revert k. induction s1 as [|c s1 IH]; intros k Hk.
  - destruct k; [|simpl in Hk; lia]. reflexivity.
  - cbn [History.match_REGEX_HASH app]. destruct k as [|k].
    + change (c :: s1 ++ AMP :: s2) with ((c :: s1) ++ AMP :: s2).
      rewrite REGEX_HASH_at_stop.
      destruct (History._REGEX_HASH_at (c :: s1)) as [[[g1 g2] rest]|] eqn:E.
      * apply REGEX_HASH_at_eq in E as (E & Hg1 & _).
        rewrite IH; [reflexivity|].
        apply (f_equal (@List.length N)) in E.
        rewrite length_app in E. simpl in E. rewrite length_app in E.
        destruct g1; [contradiction|]. simpl in *. lia.
      * apply IH. lia.
    + apply IH. simpl in Hk. lia.
Qed.

Lemma match_REGEX_HASH_join segs :
  History.match_REGEX_HASH O (join AMP segs)
  = flat_map (History.match_REGEX_HASH O) segs.
Proof.
  induction segs as [|p segs IH]; [reflexivity|].
  cbn [join flat_map]. destruct segs as [|q segs].
  - now rewrite app_nil_r.
  - rewrite match_REGEX_HASH_app by lia. now rewrite IH.
Qed.

(** Nothing matches where there is no ['=']. *)
Lemma REGEX_HASH_at_no_equals s :
  ~ In EQUALS s -> History._REGEX_HASH_at s = None.
Proof.
  intros Hn. destruct (History._REGEX_HASH_at s) as [[[g1 g2] rest]|] eqn:E;
    [|reflexivity].
  apply REGEX_HASH_at_eq in E as (-> & _). exfalso. apply Hn.
  apply in_or_app. right. now left.
Qed.

Lemma match_REGEX_HASH_no_equals s :
  ~ In EQUALS s -> History.match_REGEX_HASH O s = [].
Proof.
  induction s as [|c s IH]; intros Hn; [reflexivity|].
  cbn [History.match_REGEX_HASH].
  rewrite REGEX_HASH_at_no_equals by assumption. apply IH. intros H. apply Hn. now right.
Qed.

(** Nothing matches in ["key="]: the second group needs a character. *)
Lemma REGEX_HASH_at_no_value key :
  ~ In EQUALS key -> History._REGEX_HASH_at (key ++ [EQUALS]) = None.
Proof.
  induction key as [|c key IH]; intros Hn; [reflexivity|].
  cbn [History._REGEX_HASH_at app]. destruct (History.class1 c); [|reflexivity].
  rewrite IH by (intros H; apply Hn; now right).
  destruct key as [|a key]; [reflexivity|]. cbn [History.equals_group2 app].
  destruct (N.eqb_spec a EQUALS); [|reflexivity].
  exfalso. apply Hn. right. now left.
Qed.

Lemma match_REGEX_HASH_no_value key :
  ~ In EQUALS key -> History.match_REGEX_HASH O (key ++ [EQUALS]) = [].
Proof.
  induction key as [|c key IH]; intros Hn; [reflexivity|].
  cbn [History.match_REGEX_HASH app].
  change (c :: key ++ [EQUALS]) with ((c :: key) ++ [EQUALS]).
  rewrite REGEX_HASH_at_no_value by assumption. apply IH. intros H. apply Hn. now right.
Qed.

(* ================================================================== *)
(** ** parseHash *)

Lemma starts_with_app p h : starts_with p (p ++ h) = true.
Proof.
  induction p as [|c p IH]; [reflexivity|].
  cbn [starts_with app]. now rewrite N.eqb_refl, IH.
Qed.

Lemma starts_with_eq p s : starts_with p s = true -> exists h, s = p ++ h.
Proof.
  revert s. induction p as [|c p IH]; intros s H; [now exists s|].
  destruct s as [|a s]; [discriminate|]. cbn [starts_with] in H.
  apply andb_true_iff in H as [Hc Hp]. apply N.eqb_eq in Hc. subst a.
  destruct (IH _ Hp) as [h ->]. now exists h.
Qed.

Lemma skipn_prefix (p h : jsstring) : skipn (List.length p) (p ++ h) = h.
Proof. induction p as [|c p IH]; [reflexivity | exact IH]. Qed.

(** When the prefix also starts one character earlier, dropping it there
    leaves that character in front of the rest. *)
Lemma skipn_prefix_shifted p : forall c h,
  starts_with p (c :: p ++ h) = true ->
  skipn (List.length p) (c :: p ++ h) = c :: h.
Proof.
  induction p as [|a p IH]; intros c h H; [reflexivity|].
  cbn [starts_with app] in H. apply andb_true_iff in H as [Ha Hp].
  apply N.eqb_eq in Ha. subst a. cbn [List.length skipn app]. now apply IH.
Qed.

Lemma indexOf_unfold s pat :
  indexOf s pat
  = if starts_with pat s then Some O
    else match s with [] => None | _ :: s' => option_map S (indexOf s' pat) end.
Proof. destruct s; reflexivity. Qed.

Lemma replace_first_unfold s pat :
  replace_first s pat
  = if starts_with pat s then skipn (List.length pat) s
    else match s with [] => [] | c :: s' => c :: replace_first s' pat end.
Proof. destruct s; reflexivity. Qed.

Lemma indexOf_app p h : indexOf (p ++ h) p = Some O.
Proof. now rewrite indexOf_unfold, starts_with_app. Qed.

Lemma replace_first_app p h : replace_first (p ++ h) p = h.
Proof. rewrite replace_first_unfold, starts_with_app. apply skipn_prefix. Qed.

Lemma match_REGEX_HASH_HASH h :
  History.match_REGEX_HASH O (HASH :: h) = History.match_REGEX_HASH O h.
Proof. reflexivity. Qed.

Lemma parseHash_no_prefix w h :
  hashPrefix w = [] -> History.parseHash (Some h) w = parse_unprefixed h.
Proof. intros H. unfold History.parseHash. now rewrite H. Qed.

(** The prefix at the start of the string is taken off. *)
Lemma parseHash_prefix w h :
  hashPrefix w <> [] ->
  History.parseHash (Some (hashPrefix w ++ h)) w = parse_unprefixed h.
Proof.
  intros Hp. unfold History.parseHash.
  destruct (hashPrefix w) as [|c p] eqn:E; [contradiction|].
  rewrite indexOf_app, replace_first_app. reflexivity.
Qed.

(** So is the prefix after a leading ['#']; the ['#'] left starts no match. *)
Lemma parseHash_hash_prefix w h :
  hashPrefix w <> [] ->
  History.parseHash (Some (HASH :: hashPrefix w ++ h)) w = parse_unprefixed h.
Proof.
  intros Hp. unfold History.parseHash, parse_unprefixed.
  destruct (hashPrefix w) as [|c p] eqn:E; [contradiction|].
  rewrite <- (match_REGEX_HASH_HASH h).
  rewrite indexOf_unfold, replace_first_unfold.
  destruct (starts_with (c :: p) (HASH :: (c :: p) ++ h)) eqn:Es.
  - now rewrite skipn_prefix_shifted.
  - rewrite indexOf_app. cbn [option_map charAt0_is]. rewrite N.eqb_refl.
    now rewrite replace_first_app.
Qed.

Lemma parse_unprefixed_skip_left seg rest :
  ~ In EQUALS seg -> parse_unprefixed (seg ++ AMP :: rest) = parse_unprefixed rest.
Proof.
  intros H. unfold parse_unprefixed.
  rewrite match_REGEX_HASH_app by lia. now rewrite match_REGEX_HASH_no_equals.
Qed.

Lemma parse_unprefixed_skip_right seg rest :
  ~ In EQUALS seg -> parse_unprefixed (rest ++ AMP :: seg) = parse_unprefixed rest.
Proof.
  intros H. unfold parse_unprefixed.
  rewrite match_REGEX_HASH_app by lia.
  now rewrite (match_REGEX_HASH_no_equals seg), app_nil_r.
Qed.

(** C8 (Scenario C).  With the prefix ["!"], ["#!foo=bar&baz=quux"] decodes
    to [{foo: "bar", baz: "quux"}].  A prefix at the start of the string, or
    right after a leading ['#'], is taken off before the pairs are read; a
    segment without ['='] between ['&'] contributes nothing and raises
    nothing; the empty string gives the empty map. *)
Theorem parseHash_scenario_C_prefix_and_segments :
  History.parseHash (Some (js "#!foo=bar&baz=quux")) (world_with_prefix (js "!"))
  = Some [(js "foo", str (js "bar")); (js "baz", str (js "quux"))]
  /\ (forall w h,
        hashPrefix w <> [] ->
        History.parseHash (Some (hashPrefix w ++ h)) w = parse_unprefixed h
        /\ History.parseHash (Some (HASH :: hashPrefix w ++ h)) w = parse_unprefixed h)
  /\ (forall w h, hashPrefix w = [] -> History.parseHash (Some h) w = parse_unprefixed h)
  /\ (forall seg rest,
        ~ In EQUALS seg ->
        parse_unprefixed (seg ++ AMP :: rest) = parse_unprefixed rest
        /\ parse_unprefixed (rest ++ AMP :: seg) = parse_unprefixed rest
        /\ parse_unprefixed seg = Some [])
  /\ (forall w, History.parseHash (Some []) w = Some []).
Proof.
  split; [reflexivity|]. split; [|split; [|split]].
  - intros w h Hp. split; [now apply parseHash_prefix | now apply parseHash_hash_prefix].
  - apply parseHash_no_prefix.
  - intros seg rest H. split; [|split].
    + now apply parse_unprefixed_skip_left.
    + now apply parse_unprefixed_skip_right.
    + unfold parse_unprefixed. now rewrite match_REGEX_HASH_no_equals.
  - intros w. unfold History.parseHash.
    destruct (hashPrefix w) as [|c p]; [reflexivity|].
    cbn [indexOf starts_with]. reflexivity.
Qed.

Lemma parseHash_scenario_C_prefix_and_segments_witness :
  History.parseHash (Some (js "!a=1")) (world_with_prefix (js "!"))
  = Some [(js "a", str (js "1"))]
  /\ History.parseHash (Some (js "#!a=1")) (world_with_prefix (js "!"))
     = Some [(js "a", str (js "1"))]
  /\ History.parseHash (Some (js "junk&a=1&more")) (world_with_prefix [])
     = Some [(js "a", str (js "1"))].
Proof.
  destruct parseHash_scenario_C_prefix_and_segments as (_ & Hp & Hn & Hs & _).
  split; [|split].
  - apply (Hp (world_with_prefix (js "!")) (js "a=1")). discriminate.
  - apply (Hp (world_with_prefix (js "!")) (js "a=1")). discriminate.
  - rewrite (Hn (world_with_prefix []) (js "junk&a=1&more") eq_refl).
    change (js "junk&a=1&more") with (js "junk" ++ AMP :: js "a=1" ++ AMP :: js "more").
    destruct (Hs (js "junk") (js "a=1" ++ AMP :: js "more")) as (-> & _).
    { vm_compute. intuition discriminate. }
    destruct (Hs (js "more") (js "a=1")) as (_ & -> & _).
    { vm_compute. intuition discriminate. }
    reflexivity.
Defined.

(* ================================================================== *)
(** ** Empty values *)

Lemma decoded_units_nonempty n V U : decoded_units n V = Some U -> U <> [].
Proof.
  unfold decoded_units.
  destruct (_ || _); [intros [= <-]; discriminate|].
  destruct (_ && _); [intros [= <-]; discriminate | discriminate].
Qed.

(** Inside a multi-octet sequence [Decode] still has a character to give. *)
Lemma Decode_pending_nonempty m : forall s st r,
  (List.length s <= m)%nat -> Decode (Some st) s = Some r -> r <> [].
Proof.
  induction m as [|m IH]; intros s st r Hlen.
  - destruct s; [discriminate | simpl in Hlen; lia].
  - destruct s as [|c [|h1 [|h2 s3]]]; cbn [Decode].
    + discriminate.
    + destruct (c =? PERCENT); discriminate.
    + destruct (c =? PERCENT); discriminate.
    + destruct (c =? PERCENT); [|discriminate].
      destruct (hexVal h1); [|discriminate]. destruct (hexVal h2); [|discriminate].
      cbv zeta. destruct st as [[j k] V].
      destruct (_ && _); [|discriminate].
      destruct j as [|j].
      * destruct (decoded_units k _) as [U|] eqn:EU; [|discriminate].
        destruct (Decode None s3); [|discriminate]. intros [= <-].
        apply decoded_units_nonempty in EU. now destruct U.
      * apply IH. simpl in Hlen. lia.
Qed.

Lemma Decode_nonempty s r : s <> [] -> Decode None s = Some r -> r <> [].
Proof.
  destruct s as [|c s1]; [contradiction|]. intros _. cbn [Decode].
  destruct (c =? PERCENT).
  - destruct s1 as [|h1 [|h2 s3]]; try discriminate.
    destruct (hexVal h1); [|discriminate]. destruct (hexVal h2); [|discriminate].
    cbv zeta.
    repeat match goal with
           | |- context [if ?b then _ else _] => destruct b
           end;
      try discriminate;
      try (now apply (@Decode_pending_nonempty (List.length s3)));
      destruct (Decode None s3); [intros [= <-]|]; discriminate.
  - destruct (Decode None s1); [intros [= <-]|]; discriminate.
Qed.

Lemma decode_nonempty s r : s <> [] -> History.decode s = Some r -> r <> [].
Proof.
  intros Hs. unfold History.decode, decodeURIComponent. apply Decode_nonempty.
  destruct s; [contradiction | discriminate].
Qed.

(** *** The parameter after the first ['='] *)

Lemma split_cons_other c s :
  c <> EQUALS ->
  exists p ps, split EQUALS s = p :: ps /\ split EQUALS (c :: s) = (c :: p) :: ps.
Proof.
  intros Hc. cbn [split]. apply N.eqb_neq in Hc. rewrite Hc.
  destruct (split EQUALS s) as [|p ps] eqn:E.
  - destruct s as [|a s]; [discriminate|]. cbn [split] in E.
    destruct (a =? EQUALS); [discriminate|].
    destruct (split EQUALS s); discriminate.
  - eauto.
Qed.

Lemma split_nonempty_head c s :
  c <> EQUALS -> exists p ps, split EQUALS (c :: s) = (c :: p) :: ps.
Proof.
  intros Hc. destruct (split_cons_other s Hc) as (p & ps & _ & H). eauto.
Qed.

(** Without two ['='] in a row, what [split] finds after the first ['='] of
    a match is not empty. *)
Lemma split_second_nonempty g1 : forall g2,
  g2 <> [] -> no_double_equals (g1 ++ EQUALS :: g2) = true ->
  exists p0 p1 ps, split EQUALS (g1 ++ EQUALS :: g2) = p0 :: p1 :: ps /\ p1 <> [].
Proof.
  assert (Hhead : forall c t, no_double_equals (EQUALS :: c :: t) = true ->
                              exists p0 p1 ps,
                                split EQUALS (EQUALS :: c :: t) = p0 :: p1 :: ps
                                /\ p1 <> []).
  { intros c t H. cbn [no_double_equals] in H.
    apply andb_true_iff in H as [H _]. apply negb_true_iff in H.
    rewrite N.eqb_refl in H. cbn [andb] in H. apply N.eqb_neq in H.
    destruct (split_nonempty_head t H) as (p & ps & E).
    exists [], (c :: p), ps. cbn [split]. rewrite N.eqb_refl.
    cbn [split] in E. rewrite E. split; [reflexivity | discriminate]. }
  induction g1 as [|a g1 IH]; intros g2 Hg2 Hn.
  - destruct g2 as [|c t]; [contradiction|]. now apply Hhead.
  - destruct (N.eq_dec a EQUALS) as [->|Ha].
    + cbn [app] in *. destruct (g1 ++ EQUALS :: g2) as [|c t] eqn:E.
      * destruct g1; discriminate.
      * now apply Hhead.
    + assert (Hn' : no_double_equals (g1 ++ EQUALS :: g2) = true).
      { cbn [app no_double_equals] in Hn.
        destruct (g1 ++ EQUALS :: g2) as [|c t] eqn:E; [reflexivity|].
        now apply andb_true_iff in Hn as [_ Hn]. }
      destruct (IH g2 Hg2 Hn') as (p0 & p1 & ps & E & Hp1).
      destruct (split_cons_other (g1 ++ EQUALS :: g2) Ha) as (p & ps' & E1 & E2).
      rewrite E in E1. injection E1 as <- <-.
      exists (a :: p0), p1, ps. cbn [app]. now rewrite E2.
Qed.

Lemma no_double_equals_unfold c d s :
  no_double_equals (c :: d :: s)
  = negb ((c =? EQUALS) && (d =? EQUALS)) && no_double_equals (d :: s).
Proof. reflexivity. Qed.

Lemma no_double_equals_tail c s :
  no_double_equals (c :: s) = true -> no_double_equals s = true.
Proof.
  cbn [no_double_equals]. destruct s as [|b s]; [reflexivity|].
  intros H. now apply andb_true_iff in H as [_ H].
Qed.

Lemma no_double_equals_app_r a b :
  no_double_equals (a ++ b) = true -> no_double_equals b = true.
Proof.
  induction a as [|c a IH]; [auto|]. intros H. apply IH.
  now apply no_double_equals_tail in H.
Qed.

Lemma no_double_equals_app_l a b :
  no_double_equals (a ++ b) = true -> no_double_equals a = true.
Proof.
  induction a as [|c a IH]; [reflexivity|]. intros H.
  pose proof (no_double_equals_tail _ _ H) as Ht. specialize (IH Ht).
  destruct a as [|d a]; [reflexivity|].
  cbn [app] in H. rewrite no_double_equals_unfold in H |- *.
  apply andb_true_iff in H as [H _]. now rewrite H, IH.
Qed.

Lemma no_double_equals_skipn n s :
  no_double_equals s = true -> no_double_equals (skipn n s) = true.
Proof.
  revert s. induction n as [|n IH]; intros s H; [assumption|].
  destruct s as [|c s]; [reflexivity|]. cbn [skipn]. apply IH.
  now apply no_double_equals_tail in H.
Qed.

(** *** The matches of a string without two ['='] in a row *)

Lemma matches_have_values s : forall k,
  no_double_equals s = true -> Forall has_value (History.match_REGEX_HASH k s).
Proof.
  induction s as [|c s IH]; intros k Hn; [constructor|].
  pose proof (no_double_equals_tail _ _ Hn) as Hn'.
  cbn [History.match_REGEX_HASH]. destruct k as [|k]; [|now apply IH].
  destruct (History._REGEX_HASH_at (c :: s)) as [[[g1 g2] rest]|] eqn:E;
    [|now apply IH].
  constructor; [|now apply IH].
  apply REGEX_HASH_at_eq in E as (E & _ & Hg2).
  apply split_second_nonempty; [assumption|].
  rewrite E in Hn. apply no_double_equals_app_l with (b := rest).
  now rewrite <- app_assoc.
Qed.

Lemma no_empty_value_set_prop o k v :
  v <> [] -> no_empty_value o -> no_empty_value (set_prop o k (str v)).
Proof.
  intros Hv Ho j. destruct (list_eq_dec N.eq_dec k j) as [->|Hne].
  - rewrite lookup_set_prop_same. congruence.
  - rewrite lookup_set_prop_other by assumption. apply Ho.
Qed.

Lemma parseHash_each_no_empty_value matches : forall params r,
  Forall has_value matches -> no_empty_value params ->
  History.parseHash_each matches params = Some r -> no_empty_value r.
Proof.
  induction matches as [|m matches IH]; intros params r Hm Hp.
  - now intros [= <-].
  - inversion Hm as [|? ? (p0 & p1 & ps & E & Hp1) Hm']; subst.
    cbn [History.parseHash_each]. rewrite E.
    destruct (History.decode p0) as [k|]; [|discriminate].
    destruct (History.decode p1) as [v|] eqn:Ev; [|discriminate].
    apply IH; [assumption|]. apply no_empty_value_set_prop; [|assumption].
    exact (decode_nonempty Hp1 Ev).
Qed.

Lemma indexOf_zero s p : indexOf s p = Some O -> starts_with p s = true.
Proof.
  rewrite indexOf_unfold. destruct (starts_with p s); [reflexivity|].
  destruct s; [discriminate|]. destruct (indexOf s p); discriminate.
Qed.

(** What [parseHash] reads after its handling of the prefix has no two
    ['='] in a row if the string given has none. *)
Lemma parseHash_stripped w h :
  exists h',
    History.parseHash (Some h) w = parse_unprefixed h'
    /\ (no_double_equals h = true -> no_double_equals h' = true).
Proof.
  unfold History.parseHash, parse_unprefixed.
  destruct (hashPrefix w) as [|c p]; [now exists h|].
  destruct (indexOf h (c :: p)) as [[|[|i]]|] eqn:Ei; try (now exists h).
  - eexists. split; [reflexivity|]. intros Hn.
    apply indexOf_zero in Ei. rewrite replace_first_unfold, Ei.
    now apply no_double_equals_skipn.
  - destruct (charAt0_is HASH h) eqn:Ec; [|now exists h].
    eexists. split; [reflexivity|]. intros Hn.
    destruct h as [|a h]; [discriminate|]. cbn [charAt0_is] in Ec.
    apply N.eqb_eq in Ec. subst a.
    rewrite indexOf_unfold in Ei. rewrite replace_first_unfold.
    destruct (starts_with (c :: p) (HASH :: h)); [discriminate|].
    destruct (indexOf h (c :: p)) as [[|i]|] eqn:Ei'; try discriminate.
    apply indexOf_zero in Ei'. rewrite replace_first_unfold, Ei'.
    apply no_double_equals_tail in Hn.
    assert (Hs := no_double_equals_skipn (List.length (c :: p)) _ Hn).
    destruct (skipn (List.length (c :: p)) h) as [|b t] eqn:Es; [reflexivity|].
    rewrite no_double_equals_unfold, Hs. reflexivity.
Qed.

(** *** The strings [createHash] writes *)

Lemma encode_chars s e :
  History.encode s = Some e -> Forall (fun c => encoded_char c = true) e.
Proof.
  intros He. assert (Hwf : well_formed s = true).
  { apply encode_total_iff. eauto. }
  destruct (encode_decode s Hwf) as (e' & He' & _ & Hf). congruence.
Qed.

Lemma encoded_char_plain c :
  encoded_char c = true ->
  c <> EQUALS /\ c <> AMP /\ c <> HASH /\ c <> QUESTION.
Proof.
  unfold encoded_char. intros H. apply orb_true_iff in H as [H|H].
  - apply orb_true_iff in H as [H|H].
    + apply uriUnescaped_range in H. tauto.
    + apply N.eqb_eq in H. subst. repeat split; discriminate.
  - apply N.eqb_eq in H. subst. repeat split; discriminate.
Qed.

Lemma encoded_no_equals e :
  Forall (fun c => encoded_char c = true) e -> ~ In EQUALS e.
Proof.
  intros Hf Hin. rewrite Forall_forall in Hf.
  apply Hf, encoded_char_plain in Hin. tauto.
Qed.

Lemma no_double_equals_plain a b :
  ~ In EQUALS a -> no_double_equals b = true -> no_double_equals (a ++ b) = true.
Proof.
  induction a as [|c a IH]; intros Ha Hb; [assumption|].
  assert (Hc : c <> EQUALS) by (intros ->; apply Ha; now left).
  specialize (IH (fun H => Ha (or_intror H)) Hb).
  cbn [app]. destruct (a ++ b) as [|d t] eqn:E; [reflexivity|].
  rewrite no_double_equals_unfold, IH.
  apply N.eqb_neq in Hc. now rewrite Hc.
Qed.

Lemma no_double_equals_equals b :
  ~ In EQUALS (firstn 1 b) -> no_double_equals b = true ->
  no_double_equals (EQUALS :: b) = true.
Proof.
  intros Hh Hb. destruct b as [|d t]; [reflexivity|].
  rewrite no_double_equals_unfold, Hb.
  assert (Hd : d <> EQUALS) by (intros ->; apply Hh; now left).
  apply N.eqb_neq in Hd. now rewrite Hd, andb_false_r.
Qed.

(** A pair as [createHash] writes it, and what may follow it. *)
Lemma no_double_equals_pair k e tail :
  ~ In EQUALS k -> ~ In EQUALS e ->
  ~ In EQUALS (firstn 1 tail) -> no_double_equals tail = true ->
  no_double_equals (k ++ EQUALS :: e ++ tail) = true.
Proof.
  intros Hk He Ht Hn. apply no_double_equals_plain; [assumption|].
  apply no_double_equals_equals.
  - destruct e as [|c e]; [assumption|]. cbn [app firstn].
    intros [->|[]]. apply He. now left.
  - now apply no_double_equals_plain.
Qed.

Lemma createHash_each_no_double_equals params : forall hash,
  History.createHash_each params = Some hash ->
  no_double_equals (join AMP hash) = true.
Proof.
  induction params as [|[key v] params IH]; intros hash.
  - now intros [= <-].
  - cbn [History.createHash_each]. destruct v as [| |s]; try now apply IH.
    destruct (History.encode key) as [k|] eqn:Ek; [|discriminate].
    destruct (History.encode s) as [e|] eqn:Ee; [|discriminate].
    destruct (History.createHash_each params) as [hash'|]; [|discriminate].
    intros [= <-]. specialize (IH _ eq_refl).
    apply encode_chars, encoded_no_equals in Ek, Ee.
    cbn [join]. destruct hash' as [|q hash'].
    + replace (k ++ EQUALS :: e) with (k ++ EQUALS :: e ++ [])
        by now rewrite app_nil_r.
      apply no_double_equals_pair; auto.
    + change (k ++ EQUALS :: e) with (k ++ [EQUALS] ++ e).
      rewrite <- !app_assoc. cbn [app].
      apply no_double_equals_pair; auto.
      * cbn [firstn]. intros [H|[]]. discriminate.
      * change (AMP :: join AMP (q :: hash')) with ([AMP] ++ join AMP (q :: hash')).
        apply no_double_equals_plain; [|assumption]. intros [H|[]]. discriminate.
Qed.

Lemma createHash_no_double_equals params h :
  History.createHash params = Some h -> no_double_equals h = true.
Proof.
  unfold History.createHash.
  destruct (History.createHash_each params) as [hash|] eqn:E; [|discriminate].
  intros [= <-]. exact (createHash_each_no_double_equals _ E).
Qed.

(** The hash [createHash] writes does not start with ['#']. *)
Lemma createHash_head state h :
  History.createHash state = Some h -> charAt0_is HASH h = false.
Proof.
  unfold History.createHash.
  destruct (History.createHash_each state) as [hash|] eqn:E; [|discriminate].
  intros [= <-]. revert hash E.
  induction state as [|[key v] state IH]; intros hash.
  - now intros [= <-].
  - cbn [History.createHash_each]. destruct v as [| |s]; try now apply IH.
    destruct (History.encode key) as [k|] eqn:Ek; [|discriminate].
    destruct (History.encode s) as [e|]; [|discriminate].
    destruct (History.createHash_each state) as [hash'|]; [|discriminate].
    intros [= <-]. apply encode_chars in Ek.
    assert (H : charAt0_is HASH (k ++ EQUALS :: e) = false).
    { destruct k as [|c k]; [reflexivity|]. cbn [app charAt0_is].
      inversion Ek as [|? ? Hc _]; subst. apply encoded_char_plain in Hc.
      apply N.eqb_neq. tauto. }
    cbn [join]. destruct hash' as [|q hash']; [assumption|].
    destruct (k ++ EQUALS :: e) as [|c t]; [reflexivity | exact H].
Qed.

Lemma parseHash_no_double_equals w h params :
  no_double_equals h = true -> History.parseHash (Some h) w = Some params ->
  no_empty_value params.
Proof.
  intros Hn. destruct (parseHash_stripped w h) as (h' & -> & Hn').
  unfold parse_unprefixed. apply parseHash_each_no_empty_value.
  - apply matches_have_values. auto.
  - intros k. discriminate.
Qed.

Lemma parse_unprefixed_no_value key :
  ~ In EQUALS key -> parse_unprefixed (key ++ [EQUALS]) = Some [].
Proof.
  intros H. unfold parse_unprefixed. now rewrite match_REGEX_HASH_no_value.
Qed.

(** C10 (amended).  Where the fragment has no two ['='] in a row, the map
    [parseHash] returns binds no key to the empty string.  A pair ["key="],
    with nothing between the ['='] and the next ['&'] or the end, is dropped
    entirely.  The fragments [createHash] writes have no two ['='] in a row,
    so an empty-string value does not come back from the fragment. *)
Theorem parseHash_binds_no_empty_value :
  (forall w h params,
      no_double_equals h = true -> History.parseHash (Some h) w = Some params ->
      no_empty_value params)
  /\ (forall key rest,
         ~ In EQUALS key ->
         parse_unprefixed (key ++ [EQUALS]) = Some []
         /\ parse_unprefixed ((key ++ [EQUALS]) ++ AMP :: rest) = parse_unprefixed rest
         /\ parse_unprefixed (rest ++ AMP :: key ++ [EQUALS]) = parse_unprefixed rest)
  /\ (forall state h w params,
         History.createHash state = Some h ->
         History.parseHash (Some h) w = Some params ->
         no_empty_value params).
Proof.
  split; [|split].
  - apply parseHash_no_double_equals.
  - intros key rest H. split; [|split].
    + now apply parse_unprefixed_no_value.
    + unfold parse_unprefixed. rewrite match_REGEX_HASH_app by lia.
      now rewrite match_REGEX_HASH_no_value.
    + unfold parse_unprefixed. rewrite match_REGEX_HASH_app by lia.
      now rewrite (match_REGEX_HASH_no_value key), app_nil_r.
  - intros state h w params Hc. apply parseHash_no_double_equals.
    exact (createHash_no_double_equals _ Hc).
Qed.

Lemma parseHash_binds_no_empty_value_witness :
  no_empty_value [(js "b", str (js "1"))]
  /\ parse_unprefixed (js "a=&b=1") = parse_unprefixed (js "b=1")
  /\ History.createHash [(js "a", str []); (js "b", str (js "1"))] = Some (js "a=&b=1").
Proof.
  destruct parseHash_binds_no_empty_value as (H1 & H2 & H3). split; [|split].
  - apply (H1 (world_with_prefix []) (js "a=&b=1")); reflexivity.
  - apply (H2 (js "a") (js "b=1")). vm_compute. intuition discriminate.
  - reflexivity.
Defined.

(** C10, as stated, fails: in ["a==b"] the pattern matches all four
    characters (its first group gives back one ['=']), [split] finds an
    empty second parameter, and [a] is bound to the empty string. *)
Lemma parseHash_double_equals_binds_empty_string :
  History.parseHash (Some (js "a==b")) (world_with_prefix [])
  = Some [(js "a", str [])]
  /\ ~ no_empty_value [(js "a", str [])].
Proof.
  split; [reflexivity|]. intros H. apply (H (js "a")). reflexivity.
Qed.

(* ================================================================== *)
(** ** createHash, then parseHash *)

Lemma split_no_sep sep s : ~ In sep s -> split sep s = [s].
Proof.
  induction s as [|c s IH]; intros H; [reflexivity|].
  cbn [split]. destruct (N.eqb_spec c sep) as [->|Hc].
  - exfalso. apply H. now left.
  - now rewrite IH by (intros Hin; apply H; now right).
Qed.

Lemma split_at_sep sep a b :
  ~ In sep a -> split sep (a ++ sep :: b) = a :: split sep b.
Proof.
  induction a as [|c a IH]; intros H.
  - cbn [app split]. now rewrite N.eqb_refl.
  - cbn [app split]. destruct (N.eqb_spec c sep) as [->|Hc].
    + exfalso. apply H. now left.
    + now rewrite IH by (intros Hin; apply H; now right).
Qed.

Lemma split_pair k e :
  ~ In EQUALS k -> ~ In EQUALS e -> split EQUALS (k ++ EQUALS :: e) = [k; e].
Proof. intros Hk He. now rewrite split_at_sep, split_no_sep. Qed.

Lemma encoded_classes e :
  Forall (fun c => encoded_char c = true) e ->
  forallb History.class1 e = true /\ forallb History.class2 e = true.
Proof.
  induction 1 as [|c e Hc _ [IH1 IH2]]; [now split|].
  apply encoded_char_plain in Hc as (_ & Ha & Hh & Hq).
  cbn [forallb]. rewrite IH1, IH2. unfold History.class1, History.class2.
  apply N.eqb_neq in Ha, Hh, Hq. now rewrite Ha, Hh, Hq.
Qed.

Lemma REGEX_HASH_at_equals_first e :
  ~ In EQUALS e -> History._REGEX_HASH_at (EQUALS :: e) = None.
Proof.
  intros He. cbn [History._REGEX_HASH_at].
  rewrite REGEX_HASH_at_no_equals by assumption.
  destruct e as [|c e]; [reflexivity|]. cbn [History.equals_group2].
  destruct (N.eqb_spec c EQUALS) as [->|Hc]; [|reflexivity].
  exfalso. apply He. now left.
Qed.

(** On a pair as [createHash] writes it, the pattern matches the whole
    pair: the encoded key, then the encoded value. *)
Lemma REGEX_HASH_at_pair k e :
  k <> [] -> e <> [] ->
  Forall (fun c => encoded_char c = true) k ->
  Forall (fun c => encoded_char c = true) e ->
  History._REGEX_HASH_at (k ++ EQUALS :: e) = Some (k, e, []).
Proof.
  intros Hk He Fk Fe.
  pose proof (encoded_no_equals Fe) as Hne.
  destruct (encoded_classes Fe) as [_ He2].
  induction Fk as [|c k Hc Fk IH]; [contradiction|].
  apply encoded_char_plain in Hc as (_ & Ha & Hh & Hq).
  cbn [app History._REGEX_HASH_at].
  replace (History.class1 c) with true.
  2:{ unfold History.class1. apply N.eqb_neq in Ha, Hh, Hq. now rewrite Ha, Hh, Hq. }
  destruct k as [|d k].
  - cbn [app]. rewrite REGEX_HASH_at_equals_first by assumption.
    cbn [History.equals_group2]. rewrite N.eqb_refl, span_all by assumption.
    now destruct e.
  - now rewrite IH.
Qed.

Lemma match_REGEX_HASH_pair k e :
  k <> [] -> e <> [] ->
  Forall (fun c => encoded_char c = true) k ->
  Forall (fun c => encoded_char c = true) e ->
  History.match_REGEX_HASH O (k ++ EQUALS :: e) = [k ++ EQUALS :: e].
Proof.
  intros Hk He Fk Fe. pose proof (REGEX_HASH_at_pair Hk He Fk Fe) as H.
  destruct k as [|c k]; [contradiction|].
  cbn [app] in *. cbn [History.match_REGEX_HASH]. rewrite H. f_equal.
  apply match_REGEX_HASH_skip_all. rewrite length_app. simpl. lia.
Qed.

(** [encode] writes nothing only for the empty string. *)
Lemma encode_nonempty s e : s <> [] -> History.encode s = Some e -> e <> [].
Proof.
  intros Hs He. assert (Hwf : well_formed s = true).
  { apply encode_total_iff. eauto. }
  destruct (encode_decode s Hwf) as (e' & He' & Hd & _).
  assert (e' = e) by congruence. subst e'. intros ->.
  apply Hs. vm_compute in Hd. congruence.
Qed.

(** What [createHash] writes for a hashable state. *)
Lemma createHash_each_hashable state :
  Forall hashable_pair state ->
  exists hash,
    History.createHash_each state = Some hash /\ Forall2 written_as state hash.
Proof.
  induction 1 as [|[key v] state (Hk & Hwk & s & Hv & Hs & Hws) _ (hash & E & F)].
  - exists []. split; [reflexivity | constructor].
  - cbn [fst snd] in *. subst v.
    destruct (encode_decode key Hwk) as (k & Ek & _).
    destruct (encode_decode s Hws) as (e & Ee & _).
    exists ((k ++ EQUALS :: e) :: hash). cbn [History.createHash_each].
    rewrite Ek, Ee, E. split; [reflexivity|]. constructor; [|assumption].
    exists k, s, e. cbn [fst snd]. repeat split; try assumption.
    + exact (encode_nonempty Hk Ek).
    + exact (encode_nonempty Hs Ee).
Qed.

Lemma match_REGEX_HASH_written state hash :
  Forall2 written_as state hash ->
  flat_map (History.match_REGEX_HASH O) hash = hash.
Proof.
  induction 1 as [|p seg state hash (k & s & e & _ & Ek & Ee & -> & Hk & He) _ IH];
    [reflexivity|].
  cbn [flat_map]. rewrite IH.
  rewrite match_REGEX_HASH_pair; auto; eapply encode_chars; eassumption.
Qed.

Lemma parseHash_each_written state : forall hash params,
  Forall2 written_as state hash ->
  Forall (fun p => well_formed (fst p) = true) state ->
  (forall p s, In p state -> snd p = str s -> well_formed s = true) ->
  NoDup (map fst params ++ map fst state) ->
  History.parseHash_each hash params = Some (params ++ state).
Proof.
  induction state as [|[key v] state IH]; intros hash params F Hwk Hwv Hnd;
    inversion F as [|? seg ? hash' (k & s & e & Hv & Ek & Ee & -> & Hk & He) F']; subst.
  - now rewrite app_nil_r.
  - cbn [fst snd] in *. subst v. cbn [History.parseHash_each].
    pose proof (encoded_no_equals (encode_chars _ Ek)) as Nk.
    pose proof (encoded_no_equals (encode_chars _ Ee)) as Ne.
    rewrite split_pair by assumption.
    inversion Hwk as [|? ? Hwkey Hwk']; subst. cbn [fst] in Hwkey.
    assert (Hws : well_formed s = true) by (apply (Hwv (key, str s)); [now left | reflexivity]).
    destruct (encode_decode key Hwkey) as (k' & Ek' & Dk & _).
    destruct (encode_decode s Hws) as (e' & Ee' & De & _).
    assert (k' = k) by congruence. assert (e' = e) by congruence. subst k' e'.
    rewrite Dk, De.
    assert (Hl : lookup params key = None).
    { apply lookup_None_keys. intros Hin.
      apply NoDup_remove_2 in Hnd. apply Hnd, in_or_app. now left. }
    rewrite set_prop_absent by assumption.
    rewrite (IH hash' (params ++ [(key, str s)])); try assumption.
    + now rewrite <- app_assoc.
    + intros p s' Hp. apply Hwv. now right.
    + rewrite map_app. cbn [map fst]. now rewrite <- app_assoc.
Qed.

(** [parseHash] leaves alone a string that does not start with the prefix
    nor with ['#']. *)
Lemma parseHash_not_stripped w h :
  charAt0_is HASH h = false ->
  hashPrefix w = [] \/ starts_with (hashPrefix w) h = false ->
  History.parseHash (Some h) w = parse_unprefixed h.
Proof.
  intros Hh Hp. unfold History.parseHash, parse_unprefixed.
  destruct (hashPrefix w) as [|c p]; [reflexivity|].
  destruct Hp as [Hp|Hp]; [discriminate|].
  destruct (indexOf h (c :: p)) as [[|[|i]]|] eqn:Ei; try reflexivity.
  - apply indexOf_zero in Ei. congruence.
  - now rewrite Hh.
Qed.

(** A hashable state comes back from the hash written for it, when no
    prefix is set or the hash does not start with the prefix. *)
Lemma createHash_parseHash state :
  hashable state ->
  exists h,
    History.createHash state = Some h
    /\ forall w,
         hashPrefix w = [] \/ starts_with (hashPrefix w) h = false ->
         History.parseHash (Some h) w = Some state.
Proof.
  intros [Hnd Hp].
  destruct (createHash_each_hashable Hp) as (hash & E & F).
  assert (Ec : History.createHash state = Some (join AMP hash)).
  { unfold History.createHash. now rewrite E. }
  exists (join AMP hash). split; [assumption|]. intros w Hw.
  rewrite parseHash_not_stripped; [|exact (createHash_head _ Ec)|assumption].
  unfold parse_unprefixed.
  rewrite match_REGEX_HASH_join, (match_REGEX_HASH_written F).
  apply (@parseHash_each_written state hash []); try assumption.
  - eapply Forall_impl; [|exact Hp]. now intros p (_ & H & _).
  - intros p s Hin Hs. rewrite Forall_forall in Hp.
    destruct (Hp p Hin) as (_ & _ & s' & Hs' & _ & Hw'). congruence.
Qed.

Lemma encode_then_decode s e : History.encode s = Some e -> History.decode e = Some s.
Proof.
  intros He. assert (Hwf : well_formed s = true).
  { apply encode_total_iff. eauto. }
  destruct (encode_decode s Hwf) as (e' & He' & Hd & _). congruence.
Qed.

Lemma encode_ill_formed s : well_formed s = false -> History.encode s = None.
Proof.
  intros Hwf. destruct (History.encode s) as [e|] eqn:E; [|reflexivity].
  assert (H : well_formed s = true) by (apply encode_total_iff; eauto).
  congruence.
Qed.

(** C9 (amended).  [decode] inverts [encode] wherever [encode] returns a
    string, and it returns one exactly for the well-formed strings (no
    unpaired surrogate; on the others [encodeURIComponent] throws).
    Consequently a state of distinct, non-empty, well-formed keys with
    non-empty, well-formed string values comes back, pair by pair and in
    order, from the hash that [createHash] writes for it, when no prefix is
    set or the hash does not start with the prefix. *)
Theorem decode_inverts_encode_on_well_formed_strings :
  (forall s, well_formed s = true ->
             exists e, History.encode s = Some e /\ History.decode e = Some s)
  /\ (forall s e, History.encode s = Some e -> History.decode e = Some s)
  /\ (forall s, well_formed s = false -> History.encode s = None)
  /\ (forall state,
         hashable state ->
         exists h,
           History.createHash state = Some h
           /\ forall w,
                hashPrefix w = [] \/ starts_with (hashPrefix w) h = false ->
                History.parseHash (Some h) w = Some state).
Proof.
  split; [|split; [|split]].
  - intros s Hwf. destruct (encode_decode s Hwf) as (e & He & Hd & _). eauto.
  - apply encode_then_decode.
  - apply encode_ill_formed.
  - apply createHash_parseHash.
Qed.

Lemma decode_inverts_encode_on_well_formed_strings_witness :
  (exists e, History.encode (js "a b+c") = Some e
             /\ History.decode e = Some (js "a b+c"))
  /\ History.parseHash (Some (js "a=1&b=2")) (world_with_prefix [])
     = Some [(js "a", str (js "1")); (js "b", str (js "2"))]
  /\ exists h,
       History.createHash [(js "a", str (js "1")); (js "b", str (js "2"))] = Some h
       /\ forall w,
            hashPrefix w = [] \/ starts_with (hashPrefix w) h = false ->
            History.parseHash (Some h) w
            = Some [(js "a", str (js "1")); (js "b", str (js "2"))].
Proof.
  destruct decode_inverts_encode_on_well_formed_strings as (H1 & _ & _ & H4).
  split; [|split].
  - apply (H1 (js "a b+c")). reflexivity.
  - reflexivity.
  - apply (H4 [(js "a", str (js "1")); (js "b", str (js "2"))]). split.
    + repeat constructor; simpl; intuition discriminate.
    + repeat constructor; try discriminate; simpl; eexists; repeat split; discriminate.
Defined.

(** C9, as stated, fails.  [encode] has no result for a string with an
    unpaired surrogate, so nothing is there for [decode] to invert.  A pair
    that [parseHash] reads with an empty value (from ["a==b"]) or an empty
    key (from ["=a=b"]) is written by [createHash] as ["a="] or ["=a"],
    which [parseHash] does not read back.  And with the prefix ["!"] the key
    ["!a"], read from ["#!!a=1"], is written as ["!a=1"] and read back as
    [a]. *)
Lemma encode_rejects_lone_surrogate_and_empty_value_is_lost :
  History.encode [0xD800] = None
  /\ (History.parseHash (Some (js "a==b")) (world_with_prefix [])
      = Some [(js "a", str [])]
      /\ History.createHash [(js "a", str [])] = Some (js "a=")
      /\ History.parseHash (Some (js "a=")) (world_with_prefix []) = Some [])
  /\ (History.parseHash (Some (js "=a=b")) (world_with_prefix [])
      = Some [([], str (js "a"))]
      /\ History.createHash [([], str (js "a"))] = Some (js "=a")
      /\ History.parseHash (Some (js "=a")) (world_with_prefix []) = Some [])
  /\ (History.parseHash (Some (js "#!!a=1")) (world_with_prefix (js "!"))
      = Some [(js "!a", str (js "1"))]
      /\ History.createHash [(js "!a", str (js "1"))] = Some (js "!a=1")
      /\ History.parseHash (Some (js "!a=1")) (world_with_prefix (js "!"))
         = Some [(js "a", str (js "1"))]).
Proof. repeat split. Qed.

(* ================================================================== *)
(** ** History: the location hash *)

Lemma substr1_location_hash w : substr1 (location_hash w) = fragment w.
Proof. unfold location_hash. now destruct (fragment w). Qed.

Lemma getHash_set_state s w : History.getHash (set_state s w) = History.getHash w.
Proof. reflexivity. Qed.

(** After [replaceHash] the hash read back is the hash written, if this
    does not start with ['#']. *)
Lemma getHash_replaceHash h w :
  charAt0_is HASH h = false ->
  History.getHash (fst (History.replaceHash h w)) = h.
Proof.
  intros Hh. unfold History.replaceHash, History.getHash. rewrite Hh.
  cbn [fst]. rewrite substr1_location_hash. cbn [fragment hashPrefix set_fragment].
  destruct (hashPrefix w) as [|c p] eqn:E; [reflexivity|].
  now rewrite indexOf_app, replace_first_app.
Qed.

(** The same after [setHash], if the prefix does not start with ['#']
    either. *)
Lemma getHash_setHash h w :
  charAt0_is HASH h = false -> charAt0_is HASH (hashPrefix w) = false ->
  History.getHash (fst (History.setHash h w)) = h.
Proof.
  intros Hh Hp. unfold History.setHash, History.getHash. rewrite Hh.
  cbn [fst]. rewrite substr1_location_hash. cbn [fragment hashPrefix set_fragment].
  destruct (hashPrefix w) as [|c p] eqn:E.
  - cbn [app]. now rewrite Hh.
  - cbn [app charAt0_is] in *. rewrite Hp.
    change (c :: p ++ h) with ((c :: p) ++ h).
    now rewrite indexOf_app, replace_first_app.
Qed.

(** What the [_storeState] of [History] does, given the new hash. *)
Lemma History_storeState_eq src newState w newHash :
  History.createHash newState = Some newHash ->
  History._storeState src newState w
  = let w1 := set_state newState w in
    if str_eqb (History.getHash w) newHash then Some (w1, [])
    else match src with
         | SRC_REPLACE =>
             Some (fst (History.replaceHash newHash w1), [call_replaceHash newHash])
         | _ => Some (fst (History.setHash newHash w1), [call_setHash newHash])
         end.
Proof.
  intros E. unfold History._storeState, HistoryBase._storeState. rewrite E.
  rewrite getHash_set_state. cbv zeta.
  destruct (str_eqb (History.getHash w) newHash); [reflexivity|].
  destruct src; reflexivity.
Qed.

Lemma History_storeState_state src newState w w' es :
  History._storeState src newState w = Some (w', es) -> _state w' = newState.
Proof.
  unfold History._storeState, HistoryBase._storeState.
  destruct (History.createHash newState) as [h|]; [|discriminate].
  destruct (negb _); [|now intros [= <- _]].
  destruct src; intros [= <- _]; reflexivity.
Qed.

(** A second [replace]-sourced store whose state encodes to the same hash
    writes nothing: the first left the fragment equal to that hash. *)
Lemma History_storeState_replace_twice newState newState' w w1 es newHash :
  History.createHash newState = Some newHash ->
  History.createHash newState' = Some newHash ->
  History._storeState SRC_REPLACE newState w = Some (w1, es) ->
  History._storeState SRC_REPLACE newState' w1 = Some (set_state newState' w1, []).
Proof.
  intros E E' H. rewrite (@History_storeState_eq _ _ _ _ E) in H.
  rewrite (@History_storeState_eq _ _ _ _ E'). cbv zeta in *.
  assert (Hg : History.getHash w1 = newHash).
  { destruct (str_eqb (History.getHash w) newHash) eqn:Eg.
    - injection H as <- _. rewrite getHash_set_state. now apply str_eqb_eq.
    - injection H as <- _.
      apply (@getHash_replaceHash newHash (set_state newState w)).
      exact (@createHash_head _ _ E). }
  now rewrite Hg, str_eqb_refl.
Qed.

(** *** A run of [_resolveChanges], whatever the instance *)

Lemma key_events_are_events src (ch : object item_change) (rm : object value) :
  Forall (fun e => is_event e = true)
    (flat_map (fun p => HistoryBase._fireChangeEvent src (fst p) (snd p)) ch
     ++ flat_map (fun p => HistoryBase._fireRemoveEvent src (fst p) (snd p)) rm).
Proof.
  apply Forall_app. split.
  - induction ch as [|[k v] ch IH]; simpl; constructor; auto.
  - induction rm as [|[k v] rm IH]; simpl; constructor; auto.
Qed.

Lemma fireEvents_eq {this : this_type} src c w :
  HistoryBase._fireEvents src c w
  = let? (w', stored) := this_storeState src (newState c) w in
    Some (w',
          fire_change (changed c) (newState c) (prevState c) (removed c) src
          :: stored
          ++ flat_map (fun p => HistoryBase._fireChangeEvent src (fst p) (snd p))
               (changed c)
          ++ flat_map (fun p => HistoryBase._fireRemoveEvent src (fst p) (snd p))
               (removed c)).
Proof.
  unfold HistoryBase._fireEvents, HistoryBase._defChangeFn.
  destruct (this_storeState src (newState c) w) as [[w' st]|]; [|reflexivity].
  now rewrite !each_fire.
Qed.

(** Nothing happens, or the global event is fired, the state is stored by
    the instance's [_storeState], and the per-item events follow. *)
Lemma resolveChanges_shape {this : this_type} src new w w' es :
  HistoryBase._resolveChanges src new w = Some (w', es) ->
  (es = [] /\ w' = w)
  \/ exists c ns r st kev,
       this_storeState src ns w = Some (w', st)
       /\ es = fire_change c ns (_state w) r src :: st ++ kev
       /\ Forall (fun e => is_event e = true) kev.
Proof.
  unfold HistoryBase._resolveChanges.
  destruct (HistoryBase.added_or_changed _ _) as [ch b1].
  destruct (HistoryBase.removed_from _ _ _) as [[ns rm] b]. destruct b.
  - rewrite fireEvents_eq. cbn [changed newState prevState removed].
    destruct (this_storeState src ns w) as [[w1 st]|] eqn:E; [|discriminate].
    intros [= <- <-]. right. exists ch, ns, rm, st. eexists.
    split; [exact E|]. split; [reflexivity|]. apply key_events_are_events.
  - intros [= <- <-]. now left.
Qed.

(** *** The same call with a string value, a second time *)

Lemma existsb_none {A} (f : A -> bool) l :
  (forall x, In x l -> f x = false) -> existsb f l = false.
Proof.
  induction l as [|a l IH]; intros H; [reflexivity|].
  cbn [existsb]. rewrite (H a) by now left. apply IH. intros x Hx. apply H. now right.
Qed.

Lemma existsb_none_inv {A} (f : A -> bool) l x :
  existsb f l = false -> In x l -> f x = false.
Proof.
  intros He Hin. destruct (f x) eqn:E; [|reflexivity].
  rewrite <- He. symmetry. apply existsb_exists. eauto.
Qed.

Section SecondCall.
Context {this : this_type}.
Hypothesis stores : forall src ns w w' es,
  this_storeState src ns w = Some (w', es) -> _state w' = ns.

(** After [add(k, v)] or [replace(k, v)] with a string [v] the state has
    distinct keys, holds [v] at [k], and holds [null] nowhere. *)
Lemma change_string_result src w k v w1 es1 :
  NoDup (map fst (_state w)) ->
  HistoryBase._change src (a_key k (str v)) w = Some (w1, es1) ->
  NoDup (map fst (_state w1))
  /\ lookup (_state w1) k = Some (str v)
  /\ (forall j, lookup (_state w1) j <> Some null).
Proof.
  intros Hnd. unfold HistoryBase._change. rewrite merge_key by assumption.
  set (merged := set_prop (_state w) k (str v)).
  assert (Hndm : NoDup (map fst merged)) by now apply NoDup_set_prop.
  assert (Hk : lookup merged k = Some (str v)) by apply lookup_set_prop_same.
  assert (Hrk : forall pv, is_removed merged (k, pv) = false).
  { intros pv. unfold is_removed, Obj.owns, get. cbn [fst]. now rewrite Hk. }
  assert (Hnull : forall j, lookup merged j = Some null ->
                            In (j, null) (_state w)
                            /\ is_removed merged (j, null) = true).
  { intros j Hj. assert (Hne : k <> j) by (intros ->; congruence).
    unfold merged in Hj. rewrite lookup_set_prop_other in Hj by assumption.
    split; [now apply lookup_In|].
    unfold is_removed, get. cbn [fst]. fold merged.
    unfold merged at 2. rewrite lookup_set_prop_other, Hj by assumption.
    apply orb_true_r. }
  rewrite resolveChanges_eq by assumption. cbv zeta.
  destruct (existsb (differs (_state w)) merged) eqn:Ed;
    [|destruct (existsb (is_removed merged) (_state w)) eqn:Er]; cbn [orb].
  3:{ intros [= <- <-]. split; [assumption|]. split.
      - pose proof (existsb_none_inv _ _ (k, str v) Ed (lookup_In _ _ Hk)) as Hd.
        unfold differs in Hd. cbn [fst snd] in Hd.
        apply negb_false_iff, strict_eq_eq in Hd. unfold get in Hd.
        destruct (lookup (_state w) k) as [x|]; [congruence | discriminate].
      - intros j Hj.
        assert (Hjm : lookup merged j = Some null).
        { unfold merged. destruct (list_eq_dec N.eq_dec k j) as [->|Hne].
          - pose proof (existsb_none_inv _ _ (j, str v) Ed (lookup_In _ _ Hk)) as Hd.
            unfold differs, get in Hd. cbn [fst snd] in Hd. rewrite Hj in Hd.
            discriminate.
          - now rewrite lookup_set_prop_other. }
        destruct (Hnull j Hjm) as [Hin Hr].
        rewrite (existsb_none_inv _ _ _ Er Hin) in Hr. discriminate. }
  all: rewrite fireEvents_eq; cbn [changed newState prevState removed];
    set (rem := filter (is_removed merged) (_state w));
    destruct (this_storeState src _ w) as [[w2 st]|] eqn:Es; [|discriminate];
    intros [= <- <-]; rewrite (stores _ _ _ Es);
    (split; [now apply NoDup_fold_delete|]);
    assert (Hkr : ~ In k (map fst rem))
      by (intros Hin; apply in_map_iff in Hin as [[k' pv] [Hk' Hin]];
          cbn [fst] in Hk'; subst k'; apply filter_In in Hin as [_ Hr];
          rewrite Hrk in Hr; discriminate);
    (split; [now rewrite lookup_fold_delete_out|]);
    intros j Hj;
    destruct (in_dec (list_eq_dec N.eq_dec) j (map fst rem)) as [Hin|Hin];
    [rewrite lookup_fold_delete_in in Hj by assumption; discriminate|];
    rewrite lookup_fold_delete_out in Hj by assumption;
    destruct (Hnull j Hj) as [Hjs Hr];
    apply Hin, in_map_iff; exists (j, null); split; [reflexivity|];
    apply filter_In; split; assumption.
Qed.

(** On such a state the same call changes nothing and does nothing. *)
Lemma change_string_silent src w k v :
  NoDup (map fst (_state w)) ->
  lookup (_state w) k = Some (str v) ->
  (forall j, lookup (_state w) j <> Some null) ->
  HistoryBase._change src (a_key k (str v)) w = Some (w, []).
Proof.
  intros Hnd Hk Hnull. unfold HistoryBase._change.
  rewrite merge_key, set_prop_present by assumption.
  rewrite resolveChanges_eq by assumption. cbv zeta.
  rewrite !existsb_none; [reflexivity| |].
  - intros [j x] Hin. pose proof (NoDup_lookup _ _ _ Hnd Hin) as Hl.
    unfold is_removed, Obj.owns, get. cbn [fst]. rewrite Hl. cbn [negb orb].
    destruct x; try reflexivity. exfalso. exact (Hnull j Hl).
  - intros [j x] Hin. pose proof (NoDup_lookup _ _ _ Hnd Hin) as Hl.
    unfold differs, get. cbn [fst snd]. rewrite Hl.
    now rewrite strict_eq_refl.
Qed.

Lemma change_string_twice src src' w k v w1 es1 :
  NoDup (map fst (_state w)) ->
  HistoryBase._change src (a_key k (str v)) w = Some (w1, es1) ->
  HistoryBase._change src' (a_key k (str v)) w1 = Some (w1, []).
Proof.
  intros Hnd H. destruct (change_string_result _ _ _ _ Hnd H) as (H1 & H2 & H3).
  now apply change_string_silent.
Qed.

End SecondCall.

Lemma HistoryBase_stores src ns w w' es :
  this_storeState (this_type := HistoryBase.this) src ns w = Some (w', es) ->
  _state w' = ns.
Proof. now intros [= <- _]. Qed.

Lemma History_stores src ns w w' es :
  this_storeState (this_type := History.this) src ns w = Some (w', es) ->
  _state w' = ns.
Proof. apply History_storeState_state. Qed.

(** With a string value, [add(k, v)] right after [add(k, v)] fires nothing
    and leaves the state as it is. *)
Lemma add_same_string_twice_is_silent w k v w1 es1 :
  NoDup (map fst (_state w)) ->
  HistoryBase.add (this := HistoryBase.this) (a_key k (str v)) w = Some (w1, es1) ->
  HistoryBase.add (this := HistoryBase.this) (a_key k (str v)) w1 = Some (w1, []).
Proof. apply (change_string_twice HistoryBase_stores). Qed.

(** *** The writes of a [History] instance *)

(** Every write of the fragment in a run of [_resolveChanges] is the one
    call of [_storeState]: the hash of the state stored, which the fragment
    did not equal, through [replaceHash] for [SRC_REPLACE] and through
    [setHash] otherwise. *)
Lemma History_resolveChanges_writes src new w w' es :
  HistoryBase._resolveChanges (this := History.this) src new w = Some (w', es) ->
  forall e, In e es -> is_hash_write e = true ->
  exists h,
    History.createHash (_state w') = Some h
    /\ History.getHash w <> h
    /\ e = match src with
           | SRC_REPLACE => call_replaceHash h
           | _ => call_setHash h
           end.
Proof.
  intros H e Hin He.
  apply resolveChanges_shape in H
    as [[-> _]|(c & ns & r & st & kev & Hs & -> & Hk)]; [destruct Hin|].
  cbn [this_storeState History.this] in Hs.
  pose proof (History_storeState_state _ _ _ Hs) as Hst.
  destruct (History.createHash ns) as [h|] eqn:Eh.
  2:{ unfold History._storeState in Hs. rewrite Eh in Hs. discriminate. }
  rewrite (@History_storeState_eq _ _ _ _ Eh) in Hs. cbv zeta in Hs.
  destruct Hin as [<-|Hin]; [discriminate|].
  apply in_app_or in Hin as [Hin|Hin].
  2:{ rewrite Forall_forall in Hk. apply Hk in Hin.
      unfold is_hash_write in He. rewrite Hin in He. discriminate. }
  exists h. rewrite Hst. split; [assumption|].
  destruct (str_eqb (History.getHash w) h) eqn:Eg.
  - injection Hs as _ <-. destruct Hin.
  - apply str_eqb_false in Eg. split; [assumption|].
    destruct src; injection Hs as _ <-; destruct Hin as [<-|[]]; reflexivity.
Qed.

(** The same after an [add]-sourced store, if the prefix does not start
    with ['#']. *)
Lemma History_storeState_add_twice newState newState' w w1 es newHash :
  charAt0_is HASH (hashPrefix w) = false ->
  History.createHash newState = Some newHash ->
  History.createHash newState' = Some newHash ->
  History._storeState SRC_ADD newState w = Some (w1, es) ->
  History._storeState SRC_ADD newState' w1 = Some (set_state newState' w1, []).
Proof.
  intros Hp E E' H. rewrite (@History_storeState_eq _ _ _ _ E) in H.
  rewrite (@History_storeState_eq _ _ _ _ E'). cbv zeta in *.
  assert (Hg : History.getHash w1 = newHash).
  { destruct (str_eqb (History.getHash w) newHash) eqn:Eg.
    - injection H as <- _. rewrite getHash_set_state. now apply str_eqb_eq.
    - injection H as <- _.
      apply (@getHash_setHash newHash (set_state newState w));
        [exact (@createHash_head _ _ E) | exact Hp]. }
  now rewrite Hg, str_eqb_refl.
Qed.

(** On a [History] instance too [replace] fires the events of [add], with
    [SRC_REPLACE] for [SRC_ADD], and stores the same state; the two differ
    besides in the call that writes the fragment. *)
Lemma History_replace_fires_as_add a w :
  match HistoryBase.add (this := History.this) a w,
        HistoryBase.replace (this := History.this) a w with
  | Some (w1, es1), Some (w2, es2) =>
      _state w1 = _state w2
      /\ map (with_src SRC_REPLACE) (filter is_event es1) = filter is_event es2
  | None, None => True
  | _, _ => False
  end.
Proof.
  unfold HistoryBase.add, HistoryBase.replace, HistoryBase._change,
    HistoryBase._resolveChanges.
  destruct (HistoryBase.added_or_changed _ _) as [ch b1].
  destruct (HistoryBase.removed_from _ _ _) as [[ns rm] b]. destruct b; [|auto].
  rewrite !fireEvents_eq. cbn [changed newState prevState removed this_storeState History.this].
  destruct (History.createHash ns) as [h|] eqn:Eh.
  2:{ unfold History._storeState. now rewrite Eh. }
  rewrite !(@History_storeState_eq _ _ _ _ Eh). cbv zeta.
  assert (Hk : forall src,
             filter is_event
               (flat_map (fun p => HistoryBase._fireChangeEvent src (fst p) (snd p)) ch
                ++ flat_map (fun p => HistoryBase._fireRemoveEvent src (fst p) (snd p)) rm)
             = flat_map (fun p => HistoryBase._fireChangeEvent src (fst p) (snd p)) ch
               ++ flat_map (fun p => HistoryBase._fireRemoveEvent src (fst p) (snd p)) rm).
  { intros src. apply forallb_filter_id. apply forallb_forall.
    apply Forall_forall. apply key_events_are_events. }
  assert (Hm : map (with_src SRC_REPLACE)
                 (fire_change ch ns (_state w) rm SRC_ADD
                  :: flat_map (fun p => HistoryBase._fireChangeEvent SRC_ADD (fst p) (snd p)) ch
                  ++ flat_map (fun p => HistoryBase._fireRemoveEvent SRC_ADD (fst p) (snd p)) rm)
               = fire_change ch ns (_state w) rm SRC_REPLACE
                 :: flat_map (fun p => HistoryBase._fireChangeEvent SRC_REPLACE (fst p) (snd p)) ch
                 ++ flat_map (fun p => HistoryBase._fireRemoveEvent SRC_REPLACE (fst p) (snd p)) rm)
    by apply map_with_src_fired.
  destruct (str_eqb (History.getHash w) h).
  - split; [reflexivity|]. cbn [app filter is_event effect_src].
    now rewrite !Hk.
  - split; [reflexivity|]. cbn [app filter is_event effect_src].
    now rewrite !Hk.
Qed.

(** C7.  [_storeState] of the hash-backed store encodes the new state and
    compares the result with the fragment as [getHash] reads it: when they
    are equal nothing is written; otherwise [replaceHash] is called with the
    new hash if the source is [SRC_REPLACE], and [setHash] if it is
    [SRC_ADD].  In a run of [add] or [replace] these are the only writes.
    A [replace]-sourced store leaves the fragment equal to the hash, so a
    second one with a state of the same hash writes nothing; and a second
    [replace(k, v)] with the same string does not even reach the store. *)
Theorem History_storeState_compares_then_writes :
  (forall src newState w newHash,
      History.createHash newState = Some newHash ->
      History._storeState src newState w
      = if str_eqb (History.getHash w) newHash
        then Some (set_state newState w, [])
        else match src with
             | SRC_REPLACE =>
                 Some (fst (History.replaceHash newHash (set_state newState w)),
                       [call_replaceHash newHash])
             | _ =>
                 Some (fst (History.setHash newHash (set_state newState w)),
                       [call_setHash newHash])
             end)
  /\ (forall src a w w' es e,
         HistoryBase._change (this := History.this) src a w = Some (w', es) ->
         In e es -> is_hash_write e = true ->
         exists h,
           History.createHash (_state w') = Some h
           /\ History.getHash w <> h
           /\ e = match src with
                  | SRC_REPLACE => call_replaceHash h
                  | _ => call_setHash h
                  end)
  /\ (forall newState newState' w w1 es newHash,
         History.createHash newState = Some newHash ->
         History.createHash newState' = Some newHash ->
         History._storeState SRC_REPLACE newState w = Some (w1, es) ->
         History._storeState SRC_REPLACE newState' w1
         = Some (set_state newState' w1, []))
  /\ (forall w k v w1 es1,
         NoDup (map fst (_state w)) ->
         HistoryBase.replace (this := History.this) (a_key k (str v)) w
         = Some (w1, es1) ->
         HistoryBase.replace (this := History.this) (a_key k (str v)) w1
         = Some (w1, [])).
Proof.
  split; [|split; [|split]].
  - intros src newState w newHash E. now rewrite (@History_storeState_eq _ _ _ _ E).
  - intros src a w w' es e H. unfold HistoryBase._change in H.
    exact (History_resolveChanges_writes _ _ _ H e).
  - apply History_storeState_replace_twice.
  - intros w k v w1 es1. apply (change_string_twice History_stores).
Qed.

Lemma History_storeState_compares_then_writes_witness :
  History._storeState SRC_REPLACE [(js "a", str (js "1"))] (world_of [])
  = Some ({| _state := [(js "a", str (js "1"))]; hashPrefix := [];
             fragment := js "a=1" |},
          [call_replaceHash (js "a=1")])
  /\ History._storeState SRC_REPLACE [(js "a", str (js "1"))]
       {| _state := [(js "a", str (js "1"))]; hashPrefix := [];
          fragment := js "a=1" |}
     = Some ({| _state := [(js "a", str (js "1"))]; hashPrefix := [];
                fragment := js "a=1" |}, [])
  /\ HistoryBase.replace (this := History.this) (a_key (js "a") (str (js "1")))
       {| _state := [(js "a", str (js "1"))]; hashPrefix := [];
          fragment := js "a=1" |}
     = Some ({| _state := [(js "a", str (js "1"))]; hashPrefix := [];
                fragment := js "a=1" |}, []).
Proof.
  destruct History_storeState_compares_then_writes as (H1 & _ & H3 & H4).
  split; [|split].
  - now rewrite (H1 SRC_REPLACE [(js "a", str (js "1"))] (world_of []) (js "a=1")).
  - apply (H3 [(js "a", str (js "1"))] [(js "a", str (js "1"))] (world_of [])
              {| _state := [(js "a", str (js "1"))]; hashPrefix := [];
                 fragment := js "a=1" |}
              [call_replaceHash (js "a=1")] (js "a=1")); reflexivity.
  - apply (H4 (world_of []) (js "a") (js "1")
              {| _state := [(js "a", str (js "1"))]; hashPrefix := [];
                 fragment := js "a=1" |}
              [fire_change
                 [(js "a", {| newVal := str (js "1"); prevVal := undefined |})]
                 [(js "a", str (js "1"))] [] [] SRC_REPLACE;
               call_replaceHash (js "a=1");
               fire_key_Change (js "a") (str (js "1")) undefined SRC_REPLACE]).
    + constructor.
    + reflexivity.
Defined.

(** C6 (amended).  While a change of source [SRC_HASH] is handled,
    [replaceHash] is never called, and [setHash] is called only with the
    hash of the state stored and only when the fragment, as [getHash] reads
    it, is not that hash: a fragment already in the form [createHash] gives
    it is not written again. *)
Theorem hashchange_writes_only_a_differing_hash f w w' es :
  History.hashchange f w = Some (w', es) ->
  (forall e, In e es -> is_hash_write e = true ->
             exists h,
               e = call_setHash h
               /\ History.createHash (_state w') = Some h
               /\ History.getHash (set_fragment f w) <> h)
  /\ (History.createHash (_state w') = Some (History.getHash (set_fragment f w)) ->
      forall e, In e es -> is_hash_write e = false).
Proof.
  unfold History.hashchange, History._afterHashChange. intros H.
  destruct (History.parseHash _ _) as [s|]; [|discriminate].
  pose proof (History_resolveChanges_writes _ _ _ H) as Hw.
  split.
  - intros e Hin He. destruct (Hw e Hin He) as (h & Hc & Hg & ->). eauto.
  - intros Hc e Hin. destruct (is_hash_write e) eqn:He; [|reflexivity].
    destruct (Hw e Hin He) as (h & Hc' & Hg & _). congruence.
Qed.

Lemma hashchange_writes_only_a_differing_hash_witness :
  is_hash_write
    (fire_change [(js "a", {| newVal := str (js "1"); prevVal := undefined |})]
       [(js "a", str (js "1"))] [] [] SRC_HASH) = false
  /\ is_hash_write (fire_key_Change (js "a") (str (js "1")) undefined SRC_HASH)
     = false.
Proof.
  destruct (hashchange_writes_only_a_differing_hash (js "a=1") (world_of [])
              (w' := {| _state := [(js "a", str (js "1"))]; hashPrefix := [];
                        fragment := js "a=1" |})
              (es := [fire_change
                        [(js "a", {| newVal := str (js "1"); prevVal := undefined |})]
                        [(js "a", str (js "1"))] [] [] SRC_HASH;
                      fire_key_Change (js "a") (str (js "1")) undefined SRC_HASH])
              eq_refl) as [_ H].
  split; apply (H eq_refl); simpl; auto.
Defined.

(** C6, as stated, fails: the fragment ["a=1&junk"], set from outside,
    decodes to [{a: "1"}], whose hash ["a=1"] is not the fragment, and the
    handler of the change, of source [SRC_HASH], calls [setHash]. *)
Lemma hashchange_of_uncanonical_fragment_calls_setHash :
  History.hashchange (js "a=1&junk") (world_of [])
  = Some ({| _state := [(js "a", str (js "1"))]; hashPrefix := [];
             fragment := js "a=1" |},
          [fire_change [(js "a", {| newVal := str (js "1"); prevVal := undefined |})]
             [(js "a", str (js "1"))] [] [] SRC_HASH;
           call_setHash (js "a=1");
           fire_key_Change (js "a") (str (js "1")) undefined SRC_HASH]).
Proof. reflexivity. Qed.

(** The same happens when the fragment becomes a plain anchor. *)
Example hashchange_to_anchor_calls_setHash :
  History.hashchange (js "top")
    {| _state := [(js "a", str (js "1"))]; hashPrefix := []; fragment := js "a=1" |}
  = Some ({| _state := []; hashPrefix := []; fragment := [] |},
          [fire_change [] [] [(js "a", str (js "1"))] [(js "a", str (js "1"))] SRC_HASH;
           call_setHash [];
           fire_key_Remove (js "a") (str (js "1")) SRC_HASH]).
Proof. reflexivity. Qed.

(* ================================================================== *)
(** * Further properties *)

(** ** Reading the state: [get] after [add], [replace] and a hash change *)

(** [Y.mix(r, s, true)] read at a key: the property of [s], else that of
    [r]. *)
Lemma lookup_mix {A} (s : object A) : forall r k,
  NoDup (map fst s) ->
  lookup (mix r s) k
  = match lookup s k with Some v => Some v | None => lookup r k end.
Proof.
  induction s as [|[j x] s IH]; intros r k Hnd; [reflexivity|].
  inversion Hnd as [|? ? Hnin Hnd']; subst.
  change (mix r ((j, x) :: s)) with (mix (set_prop r j x) s).
  rewrite IH by assumption. cbn [lookup].
  destruct (str_eqb j k) eqn:E.
  - apply str_eqb_eq in E. subst k.
    assert (Hn : lookup s j = None) by now apply lookup_None_keys.
    rewrite Hn. apply lookup_set_prop_same.
  - apply str_eqb_false in E.
    destruct (lookup s k); [reflexivity|]. now apply lookup_set_prop_other.
Qed.

Lemma lookup_merge {A} (a b : object A) k :
  NoDup (map fst a) -> NoDup (map fst b) ->
  lookup (merge a b) k
  = match lookup b k with Some v => Some v | None => lookup a k end.
Proof.
  intros Ha Hb. unfold merge. rewrite mix_nil_NoDup by assumption.
  now apply lookup_mix.
Qed.

Lemma get_merge (a b : object value) k :
  NoDup (map fst a) -> NoDup (map fst b) ->
  get (merge a b) k = if Obj.owns b k then get b k else get a k.
Proof.
  intros Ha Hb. unfold get, Obj.owns. rewrite lookup_merge by assumption.
  now destruct (lookup b k).
Qed.

Lemma owns_merge {A} (a b : object A) k :
  NoDup (map fst a) -> NoDup (map fst b) ->
  Obj.owns (merge a b) k = Obj.owns a k || Obj.owns b k.
Proof.
  intros Ha Hb. unfold Obj.owns. rewrite lookup_merge by assumption.
  destruct (lookup b k), (lookup a k); reflexivity.
Qed.

(** The keys that the second loop of [_resolveChanges] removes. *)
Lemma removed_keys (new prev : object value) k :
  NoDup (map fst prev) ->
  In k (map fst (filter (is_removed new) prev))
  <-> Obj.owns prev k = true
      /\ (Obj.owns new k = false \/ get new k = null).
Proof.
  intros Hnd. rewrite in_map_iff. split.
  - intros [[j pv] [Hj Hin]]. cbn [fst] in Hj. subst j.
    apply filter_In in Hin as [Hin Hr].
    unfold Obj.owns at 1. rewrite (NoDup_lookup _ _ _ Hnd Hin). split; [reflexivity|].
    unfold is_removed in Hr. cbn [fst] in Hr.
    apply orb_true_iff in Hr as [Hr|Hr].
    + left. now apply negb_true_iff.
    + right. now apply strict_eq_eq.
  - intros [Ho Hr]. unfold Obj.owns in Ho.
    destruct (lookup prev k) as [pv|] eqn:El; [|discriminate].
    exists (k, pv). split; [reflexivity|]. apply filter_In.
    split; [now apply lookup_In|]. unfold is_removed. cbn [fst].
    destruct Hr as [Hr|Hr]; rewrite Hr; [reflexivity|apply orb_true_r].
Qed.

Section Reads.
Context {this : this_type}.
Hypothesis stores : forall src ns w w' es,
  this_storeState src ns w = Some (w', es) -> _state w' = ns.

(** What the state reads as after [_resolveChanges]: a key of the previous
    state whose new value is [null] is gone, every other key has its new
    value. *)
Lemma resolveChanges_get src new w w' es k :
  NoDup (map fst (_state w)) -> NoDup (map fst new) ->
  HistoryBase._resolveChanges src new w = Some (w', es) ->
  get (_state w') k
  = if Obj.owns (_state w) k && strict_eq (get new k) null then undefined
    else get new k.
Proof.
  intros Hnd Hnew. rewrite resolveChanges_eq by assumption. cbv zeta.
  set (prev := _state w). set (rem := filter (is_removed new) prev).
  destruct (existsb (differs prev) new || existsb (is_removed new) prev) eqn:E.
  - rewrite fireEvents_eq. cbn [changed newState prevState removed].
    destruct (this_storeState src _ w) as [[w2 st]|] eqn:Es; [|discriminate].
    intros [= <- <-]. rewrite (stores _ _ _ Es).
    pose proof (@removed_keys new prev k Hnd) as Hrk. fold prev rem in Hrk.
    destruct (in_dec (list_eq_dec N.eq_dec) k (map fst rem)) as [Hin|Hin].
    + unfold get at 1. rewrite lookup_fold_delete_in by assumption.
      apply Hrk in Hin as [Ho Hr]. rewrite Ho. cbn [andb].
      destruct Hr as [Hr|Hr].
      * unfold Obj.owns in Hr. unfold get.
        destruct (lookup new k); [discriminate|reflexivity].
      * rewrite Hr. reflexivity.
    + unfold get at 1. rewrite lookup_fold_delete_out by assumption.
      fold (get new k).
      destruct (Obj.owns prev k) eqn:Ho; [|reflexivity]. cbn [andb].
      destruct (strict_eq (get new k) null) eqn:En; [|reflexivity].
      exfalso. apply Hin, Hrk. split; [reflexivity|]. right. now apply strict_eq_eq.
  - apply orb_false_iff in E as [Ed Er]. intros [= <- <-]. fold prev.
    unfold Obj.owns. destruct (lookup prev k) as [pv|] eqn:El.
    + pose proof (existsb_none_inv _ _ (k, pv) Er (lookup_In _ _ El)) as Hr.
      unfold is_removed in Hr. cbn [fst] in Hr.
      apply orb_false_iff in Hr as [Ho Hn]. rewrite Hn. cbn [andb].
      unfold Obj.owns in Ho. destruct (lookup new k) as [v|] eqn:En; [|discriminate].
      pose proof (existsb_none_inv _ _ (k, v) Ed (lookup_In _ _ En)) as Hd.
      unfold differs in Hd. cbn [fst snd] in Hd.
      apply negb_false_iff, strict_eq_eq in Hd.
      rewrite (get_lookup _ _ En). now symmetry.
    + cbn [andb]. rewrite (get_absent _ _ El).
      destruct (lookup new k) as [v|] eqn:En.
      * pose proof (existsb_none_inv _ _ (k, v) Ed (lookup_In _ _ En)) as Hd.
        unfold differs in Hd. cbn [fst snd] in Hd.
        apply negb_false_iff, strict_eq_eq in Hd.
        rewrite (get_absent _ _ El) in Hd. rewrite (get_lookup _ _ En). now symmetry.
      * now rewrite (get_absent _ _ En).
Qed.

(** The same for [add] and [replace] with an object. *)
Lemma change_get src o w w' es k :
  NoDup (map fst (_state w)) -> NoDup (map fst o) ->
  HistoryBase._change src (a_state o) w = Some (w', es) ->
  get (_state w') k
  = let merged := if Obj.owns o k then get o k else get (_state w) k in
    if Obj.owns (_state w) k && strict_eq merged null then undefined
    else merged.
Proof.
  intros Hnd Ho H. unfold HistoryBase._change in H.
  rewrite (@resolveChanges_get _ _ _ _ _ k Hnd (NoDup_merge _ _) H).
  now rewrite get_merge.
Qed.

End Reads.

(** Distinct keys of a literal object. *)
Ltac distinct_keys :=
  repeat (constructor; [vm_compute; intuition discriminate|]); constructor.

Lemma instance_stores (this : this_type) :
  is_instance this ->
  forall src ns w w' es,
    this_storeState src ns w = Some (w', es) -> _state w' = ns.
Proof.
  intros [-> | ->]; [exact HistoryBase_stores | exact History_stores].
Qed.

Lemma get_one_value (w : world) (key : jsstring) :
  key <> [] -> HistoryBase.get (Some key) w = HistoryBase.one_value (get (_state w) key).
Proof.
  intros Hk. destruct key as [|c key]; [contradiction|].
  unfold HistoryBase.get, Obj.owns, get.
  now destruct (lookup (_state w) (c :: key)).
Qed.

Section Calls.
Context {this : this_type}.
Hypothesis stores : forall src ns w w' es,
  this_storeState src ns w = Some (w', es) -> _state w' = ns.

(** The keys of the state stay distinct. *)
Lemma resolveChanges_NoDup src new w w' es :
  NoDup (map fst (_state w)) -> NoDup (map fst new) ->
  HistoryBase._resolveChanges src new w = Some (w', es) ->
  NoDup (map fst (_state w')).
Proof.
  intros Hnd Hnew. rewrite resolveChanges_eq by assumption. cbv zeta.
  destruct (_ || _).
  - rewrite fireEvents_eq. cbn [changed newState prevState removed].
    destruct (this_storeState src _ w) as [[w2 st]|] eqn:Es; [|discriminate].
    intros [= <- <-]. rewrite (stores _ _ _ Es). now apply NoDup_fold_delete.
  - now intros [= <- <-].
Qed.

(** A second call with the same object, none of whose values is [null],
    finds nothing to do. *)
Lemma change_object_twice src src' o w w1 es :
  NoDup (map fst (_state w)) -> NoDup (map fst o) ->
  (forall k, lookup o k <> Some null) ->
  HistoryBase._change src (a_state o) w = Some (w1, es) ->
  HistoryBase._change src' (a_state o) w1 = Some (w1, []).
Proof.
  intros Hnd Ho Hnull H.
  assert (Hnd1 : NoDup (map fst (_state w1)))
    by exact (@resolveChanges_NoDup _ _ _ _ _ Hnd (NoDup_merge _ _) H).
  assert (Hget : forall k, get (_state w1) k
                 = let merged := if Obj.owns o k then get o k
                                 else get (_state w) k in
                   if Obj.owns (_state w) k && strict_eq merged null
                   then undefined else merged)
    by (intros k; exact (@change_get _ stores _ _ _ _ _ k Hnd Ho H)).
  assert (Hon : forall k, Obj.owns o k = true -> strict_eq (get o k) null = false).
  { intros k. unfold Obj.owns, get. specialize (Hnull k).
    destruct (lookup o k) as [[| |s]|]; try reflexivity; try discriminate.
    congruence. }
  unfold HistoryBase._change.
  rewrite resolveChanges_eq by (assumption || apply NoDup_merge). cbv zeta.
  rewrite !existsb_none; [reflexivity| |].
  - intros [j pv] Hin. pose proof (NoDup_lookup _ _ _ Hnd1 Hin) as Hl.
    unfold is_removed. cbn [fst]. rewrite owns_merge, get_merge by assumption.
    unfold Obj.owns at 1. rewrite Hl. cbn [orb negb].
    destruct (Obj.owns o j) eqn:Eo; [now apply Hon|].
    specialize (Hget j). cbv zeta in Hget. rewrite Eo in Hget.
    destruct (strict_eq (get (_state w1) j) null) eqn:En; [|reflexivity].
    apply strict_eq_eq in En. rewrite En in Hget.
    unfold Obj.owns, get in Hget.
    destruct (lookup (_state w) j) as [[| |s]|]; cbn in Hget; discriminate.
  - intros [j x] Hin.
    pose proof (NoDup_lookup _ _ _ (NoDup_merge _ _) Hin) as Hl.
    unfold differs. cbn [fst snd]. apply negb_false_iff, strict_eq_eq.
    apply get_lookup in Hl. rewrite get_merge in Hl by assumption.
    rewrite <- Hl. destruct (Obj.owns o j) eqn:Eo; [|reflexivity].
    rewrite Hget. cbv zeta. rewrite Eo, (Hon _ Eo), andb_false_r. reflexivity.
Qed.

(** Giving [null] to a key that holds a value other than [null]. *)
Lemma change_null_removes src w k v w' es :
  NoDup (map fst (_state w)) -> lookup (_state w) k = Some v -> v <> null ->
  HistoryBase._change src (a_key k null) w = Some (w', es) ->
  lookup (_state w') k = None
  /\ exists c n r rest,
       es = fire_change c n (_state w) r src :: rest
       /\ _state w' = n
       /\ lookup r k = Some v
       /\ In (fire_key_Remove k v src) rest.
Proof.
  intros Hnd Hk Hv. unfold HistoryBase._change. rewrite merge_key by assumption.
  set (merged := set_prop (_state w) k null).
  assert (Hndm : NoDup (map fst merged)) by now apply NoDup_set_prop.
  assert (Hm : lookup merged k = Some null) by apply lookup_set_prop_same.
  rewrite resolveChanges_eq by assumption. cbv zeta.
  assert (He : existsb (differs (_state w)) merged = true).
  { apply existsb_exists. exists (k, null). split; [now apply lookup_In|].
    unfold differs. cbn [fst snd]. rewrite (get_lookup _ _ Hk).
    destruct v; try reflexivity. contradiction. }
  rewrite He. cbn [orb]. rewrite fireEvents_eq.
  cbn [changed newState prevState removed].
  destruct (this_storeState src _ w) as [[w2 st]|] eqn:Es; [|discriminate].
  intros [= <- <-]. rewrite (stores _ _ _ Es).
  assert (Hr : lookup (filter (is_removed merged) (_state w)) k = Some v).
  { apply lookup_filter; [assumption | assumption |].
    unfold is_removed. cbn [fst]. rewrite (get_lookup _ _ Hm). apply orb_true_r. }
  apply lookup_In in Hr as Hin. split.
  - apply lookup_fold_delete_in. apply in_map_iff. now exists (k, v).
  - eexists _, _, _, _. split; [reflexivity|]. split; [reflexivity|].
    split; [exact Hr|]. apply in_or_app. right. apply in_or_app. right.
    apply in_flat_map. exists (k, v). split; [exact Hin | now left].
Qed.

End Calls.

(** X1. After [add(o)] or [replace(o)] with an object [o], on either kind
    of instance, [get(key)] returns for every non-empty key: the value [o]
    gives the key, else the value it had; except that a key the previous
    state owned and whose value is now [null] reads [undefined] (it was
    removed). *)
Theorem get_after_add_reads_the_merged_value
  (this : this_type) (o : object value) (w w' : world) (es : list effect)
  (key : jsstring) :
  is_instance this -> key <> [] ->
  NoDup (map fst (_state w)) -> NoDup (map fst o) ->
  HistoryBase.add (a_state o) w = Some (w', es)
  \/ HistoryBase.replace (a_state o) w = Some (w', es) ->
  HistoryBase.get (Some key) w'
  = HistoryBase.one_value
      (let merged := if Obj.owns o key then get o key
                     else get (_state w) key in
       if Obj.owns (_state w) key && strict_eq merged null then undefined
       else merged).
Proof.
  intros Hi Hk Hnd Ho H. rewrite get_one_value by assumption. f_equal.
  destruct H as [H|H];
    exact (@change_get _ (instance_stores Hi) _ _ _ _ _ key Hnd Ho H).
Qed.

Lemma get_after_add_reads_the_merged_value_witness :
  HistoryBase.get (Some (js "a"))
    (world_of [(js "b", str (js "2")); (js "c", str (js "3"))])
  = HistoryBase.one_value undefined.
Proof.
  apply (@get_after_add_reads_the_merged_value HistoryBase.this
           [(js "a", null); (js "c", str (js "3"))]
           (world_of [(js "a", str (js "1")); (js "b", str (js "2"))])
           (world_of [(js "b", str (js "2")); (js "c", str (js "3"))])
           [fire_change
              [(js "a", {| newVal := null; prevVal := str (js "1") |});
               (js "c", {| newVal := str (js "3"); prevVal := undefined |})]
              [(js "b", str (js "2")); (js "c", str (js "3"))]
              [(js "a", str (js "1")); (js "b", str (js "2"))]
              [(js "a", str (js "1"))]
              SRC_ADD;
            fire_key_Change (js "a") null (str (js "1")) SRC_ADD;
            fire_key_Change (js "c") (str (js "3")) undefined SRC_ADD;
            fire_key_Remove (js "a") (str (js "1")) SRC_ADD]
           (js "a")).
  - left. reflexivity.
  - discriminate.
  - distinct_keys.
  - distinct_keys.
  - left. reflexivity.
Defined.

(** X2. The empty string is falsy: an item stored under the key [""]
    is in the state, but [get("")] does not return it; like [get()] it
    returns a copy of the whole state. *)
Theorem get_of_the_empty_key_returns_the_whole_state
  (this : this_type) (v : jsstring) (w w' : world) (es : list effect) :
  is_instance this -> NoDup (map fst (_state w)) ->
  HistoryBase.add (a_key [] (str v)) w = Some (w', es) ->
  lookup (_state w') [] = Some (str v)
  /\ HistoryBase.get (Some []) w' = HistoryBase.all_values (_state w')
  /\ HistoryBase.get None w' = HistoryBase.all_values (_state w').
Proof.
  intros Hi Hnd H.
  destruct (@change_string_result _ (instance_stores Hi) _ _ _ _ _ _ Hnd H)
    as (Hnd' & Hl & _).
  split; [exact Hl|]. unfold HistoryBase.get.
  rewrite mix_nil_NoDup by assumption. split; reflexivity.
Qed.

Lemma get_of_the_empty_key_returns_the_whole_state_witness :
  lookup [([], str (js "v"))] [] = Some (str (js "v"))
  /\ HistoryBase.get (Some []) (world_of [([], str (js "v"))])
     = HistoryBase.all_values [([], str (js "v"))]
  /\ HistoryBase.get None (world_of [([], str (js "v"))])
     = HistoryBase.all_values [([], str (js "v"))].
Proof.
  apply (@get_of_the_empty_key_returns_the_whole_state HistoryBase.this
           (js "v") (world_of []) (world_of [([], str (js "v"))])
           [fire_change [([], {| newVal := str (js "v"); prevVal := undefined |})]
              [([], str (js "v"))] [] [] SRC_ADD;
            fire_key_Change [] (str (js "v")) undefined SRC_ADD]).
  - left. reflexivity.
  - constructor.
  - reflexivity.
Defined.

(** X3. [add(k, v)] leaves every other key as it reads, whatever [v] is;
    only a key that held [null] is dropped by the call and reads
    [undefined] afterwards. *)
Theorem add_of_a_key_leaves_the_other_keys
  (this : this_type) (k j : jsstring) (v : value) (w w' : world)
  (es : list effect) :
  is_instance this -> j <> k -> NoDup (map fst (_state w)) ->
  HistoryBase.add (a_key k v) w = Some (w', es) ->
  get (_state w') j
  = if strict_eq (get (_state w) j) null then undefined else get (_state w) j.
Proof.
  intros Hi Hjk Hnd H.
  assert (Ho : NoDup (map fst [(k, v)])) by (repeat constructor; intros []).
  change (HistoryBase.add (a_key k v) w)
    with (HistoryBase._change SRC_ADD (a_state [(k, v)]) w) in H.
  rewrite (@change_get _ (instance_stores Hi) _ _ _ _ _ j Hnd Ho H). cbv zeta.
  assert (Hj : Obj.owns [(k, v)] j = false).
  { unfold Obj.owns. cbn [lookup]. now rewrite str_eqb_neq by congruence. }
  rewrite Hj. unfold Obj.owns, get. now destruct (lookup (_state w) j) as [[| |s]|].
Qed.

Lemma add_of_a_key_leaves_the_other_keys_witness :
  get [(js "b", str (js "2")); (js "a", str (js "1"))] (js "b") = str (js "2").
Proof.
  apply (@add_of_a_key_leaves_the_other_keys HistoryBase.this
           (js "a") (js "b") (str (js "1"))
           (world_of [(js "b", str (js "2"))])
           (world_of [(js "b", str (js "2")); (js "a", str (js "1"))])
           [fire_change [(js "a", {| newVal := str (js "1"); prevVal := undefined |})]
              [(js "b", str (js "2")); (js "a", str (js "1"))]
              [(js "b", str (js "2"))] [] SRC_ADD;
            fire_key_Change (js "a") (str (js "1")) undefined SRC_ADD]).
  - left. reflexivity.
  - discriminate.
  - distinct_keys.
  - reflexivity.
Defined.

(** X4. [add(k, null)] for a key that holds a value other than [null]
    removes it: the key is no longer in the state, the facade of the change
    event lists it in [removed] with the old value, and the event
    [kRemove] is fired with that value. *)
Theorem add_of_null_removes_a_held_key
  (this : this_type) (k : jsstring) (v : value) (w w' : world)
  (es : list effect) :
  is_instance this ->
  NoDup (map fst (_state w)) -> lookup (_state w) k = Some v -> v <> null ->
  HistoryBase.add (a_key k null) w = Some (w', es) ->
  lookup (_state w') k = None
  /\ exists c n r rest,
       es = fire_change c n (_state w) r SRC_ADD :: rest
       /\ _state w' = n
       /\ lookup r k = Some v
       /\ In (fire_key_Remove k v SRC_ADD) rest.
Proof.
  intros Hi Hnd Hk Hv H.
  exact (@change_null_removes _ (instance_stores Hi) _ _ _ _ _ _ Hnd Hk Hv H).
Qed.

Lemma add_of_null_removes_a_held_key_witness :
  lookup (_state (world_of [])) (js "a") = None
  /\ exists c n r rest,
       [fire_change [(js "a", {| newVal := null; prevVal := str (js "1") |})]
          [] [(js "a", str (js "1"))] [(js "a", str (js "1"))] SRC_ADD;
        fire_key_Change (js "a") null (str (js "1")) SRC_ADD;
        fire_key_Remove (js "a") (str (js "1")) SRC_ADD]
       = fire_change c n (_state (world_of [(js "a", str (js "1"))])) r SRC_ADD
         :: rest
       /\ _state (world_of []) = n
       /\ lookup r (js "a") = Some (str (js "1"))
       /\ In (fire_key_Remove (js "a") (str (js "1")) SRC_ADD) rest.
Proof.
  apply (@add_of_null_removes_a_held_key HistoryBase.this (js "a")
           (str (js "1")) (world_of [(js "a", str (js "1"))]) (world_of [])).
  - left. reflexivity.
  - distinct_keys.
  - reflexivity.
  - discriminate.
  - reflexivity.
Defined.

(** X5. Calling [add] a second time with the same object, none of whose
    values is [null], changes nothing: no event is fired and, on a
    [History] instance, the hash is not written. *)
Theorem add_of_the_same_object_twice_is_silent
  (this : this_type) (o : object value) (w w1 : world) (es : list effect) :
  is_instance this ->
  NoDup (map fst (_state w)) -> NoDup (map fst o) ->
  (forall k, lookup o k <> Some null) ->
  HistoryBase.add (a_state o) w = Some (w1, es) ->
  HistoryBase.add (a_state o) w1 = Some (w1, []).
Proof.
  intros Hi Hnd Ho Hnull H.
  exact (@change_object_twice _ (instance_stores Hi) _ SRC_ADD _ _ _ _
           Hnd Ho Hnull H).
Qed.

Lemma add_of_the_same_object_twice_is_silent_witness :
  HistoryBase.add (this := History.this) (a_state [(js "a", str (js "1"))])
    {| _state := [(js "a", str (js "1"))]; hashPrefix := [];
       fragment := js "a=1" |}
  = Some ({| _state := [(js "a", str (js "1"))]; hashPrefix := [];
             fragment := js "a=1" |}, []).
Proof.
  apply (@add_of_the_same_object_twice_is_silent History.this
           [(js "a", str (js "1"))] (world_of [])
           {| _state := [(js "a", str (js "1"))]; hashPrefix := [];
              fragment := js "a=1" |}
           [fire_change [(js "a", {| newVal := str (js "1"); prevVal := undefined |})]
              [(js "a", str (js "1"))] [] [] SRC_ADD;
            call_setHash (js "a=1");
            fire_key_Change (js "a") (str (js "1")) undefined SRC_ADD]).
  - right. reflexivity.
  - constructor.
  - distinct_keys.
  - intros k. cbn [lookup]. destruct (str_eqb (js "a") k); discriminate.
  - reflexivity.
Defined.

(** ** Initialization *)

Lemma set_prop_app_absent {A} (a b : object A) k v :
  lookup a k = None -> set_prop (a ++ b) k v = a ++ set_prop b k v.
Proof.
  induction a as [|[j x] a IH]; intros H; [reflexivity|].
  cbn [lookup] in H. cbn [app set_prop].
  destruct (str_eqb j k); [discriminate|]. now rewrite IH.
Qed.

(** Writing to an object the properties it has already, in its own order,
    gives the object written. *)
Lemma mix_overwrite {A} (s : object A) : forall a b,
  map fst b = map fst s -> NoDup (map fst a ++ map fst b) ->
  mix (a ++ b) s = a ++ s.
Proof.
  induction s as [|[k y] s IH]; intros a b Hk Hnd.
  - destruct b; [reflexivity | discriminate].
  - destruct b as [|[k' x] b]; [discriminate|].
    cbn [map fst] in Hk. injection Hk as -> Hk.
    change (mix (a ++ (k, x) :: b) ((k, y) :: s))
      with (mix (set_prop (a ++ (k, x) :: b) k y) s).
    assert (Ha : lookup a k = None).
    { apply lookup_None_keys. intros Hin. cbn [map fst] in Hnd.
      apply NoDup_remove_2 in Hnd. apply Hnd, in_or_app. now left. }
    rewrite set_prop_app_absent by assumption. cbn [set_prop].
    rewrite str_eqb_refl.
    change (a ++ (k, y) :: b) with (a ++ [(k, y)] ++ b).
    change (a ++ (k, y) :: s) with (a ++ [(k, y)] ++ s).
    rewrite !app_assoc. apply IH; [assumption|].
    rewrite map_app, <- app_assoc. exact Hnd.
Qed.

(** [Y.mix] keeps the properties of the receiver first. *)
Lemma mix_keys_prefix {A} (s : object A) : forall r,
  exists t, map fst (mix r s) = map fst r ++ t.
Proof.
  induction s as [|[k y] s IH]; intros r.
  - exists []. now rewrite app_nil_r.
  - change (mix r ((k, y) :: s)) with (mix (set_prop r k y) s).
    destruct (IH (set_prop r k y)) as [t Ht]. rewrite Ht.
    destruct (lookup r k) as [x|] eqn:E.
    + exists t. now rewrite (keys_set_prop_present _ _ y E).
    + exists (k :: t). rewrite keys_set_prop_absent by assumption.
      now rewrite <- app_assoc.
Qed.

(** Merging the merged state into the state again changes nothing. *)
Lemma merge_merge (S o : object value) :
  NoDup (map fst S) -> merge S (merge S o) = merge S o.
Proof.
  intros Hnd. unfold merge. rewrite mix_nil_NoDup by assumption.
  set (M := mix S o).
  assert (HndM : NoDup (map fst M)) by now apply NoDup_mix.
  destruct (mix_keys_prefix o S) as [t Ht]. fold M in Ht.
  assert (Hk : map fst S = map fst (firstn (List.length S) M)).
  { rewrite <- firstn_map, Ht. rewrite <- (length_map fst S).
    now rewrite firstn_app, Nat.sub_diag, firstn_all, firstn_O, app_nil_r. }
  rewrite <- (firstn_skipn (List.length S) M) in HndM |- *.
  rewrite mix_app.
  pose proof (@mix_overwrite _ (firstn (List.length S) M) [] S Hk) as Hm.
  cbn [map app] in Hm. rewrite (Hm Hnd).
  now apply mix_nil_NoDup_aux.
Qed.

(** X6. A constructor given an initial state does what [add] does with
    it: the state is merged into the current one, the events of the change
    are fired, and on a [History] instance the hash is written. *)
Theorem init_with_an_initial_state_is_add
  (this : this_type) (initialState : object value) (w : world) :
  NoDup (map fst (_state w)) ->
  HistoryBase._init (Some initialState) w
  = HistoryBase.add (a_state initialState) w.
Proof.
  intros Hnd. unfold HistoryBase._init, HistoryBase.add, HistoryBase._change.
  now rewrite merge_merge.
Qed.

Lemma init_with_an_initial_state_is_add_witness :
  HistoryBase._init (this := History.this) (Some [(js "a", str (js "1"))])
    (world_of [(js "b", str (js "2"))])
  = HistoryBase.add (this := History.this) (a_state [(js "a", str (js "1"))])
      (world_of [(js "b", str (js "2"))]).
Proof.
  apply (@init_with_an_initial_state_is_add History.this
           [(js "a", str (js "1"))] (world_of [(js "b", str (js "2"))])).
  distinct_keys.
Defined.

(** ** What [createHash] writes *)

Lemma createHash_each_filter state :
  History.createHash_each (filter (fun p => Lang.isValue (snd p)) state)
  = History.createHash_each state.
Proof.
  induction state as [|[k v] state IH]; [reflexivity|].
  cbn [filter snd]. destruct v; cbn [Lang.isValue History.createHash_each];
    [exact IH | exact IH |].
  now rewrite IH.
Qed.

Lemma delete_absent {A} (o : object A) k : lookup o k = None -> delete o k = o.
Proof.
  unfold delete. induction o as [|[j x] o IH]; intros H; [reflexivity|].
  cbn [lookup] in H. cbn [filter fst].
  destruct (str_eqb j k); [discriminate|]. cbn [negb]. now rewrite IH.
Qed.

Lemma filter_set_prop_no_value (state : object value) k v :
  NoDup (map fst state) -> Lang.isValue v = false ->
  filter (fun p => Lang.isValue (snd p)) (set_prop state k v)
  = filter (fun p => Lang.isValue (snd p)) (delete state k).
Proof.
  intros Hnd Hv. induction state as [|[j x] state IH].
  - cbn [set_prop filter snd]. now rewrite Hv.
  - inversion Hnd as [|? ? Hnin Hnd']; subst.
    change (delete ((j, x) :: state) k)
      with (if negb (str_eqb j k) then (j, x) :: delete state k
            else delete state k).
    cbn [set_prop]. destruct (str_eqb j k) eqn:E; cbn [negb filter snd].
    + rewrite Hv. apply str_eqb_eq in E. subst j.
      rewrite delete_absent; [reflexivity|]. now apply lookup_None_keys.
    + now rewrite IH.
Qed.

(** X7. An item whose value is [null] or [undefined] is not written to
    the hash: giving a key such a value and deleting the key give the same
    hash string. *)
Theorem createHash_leaves_out_a_key_without_value
  (state : object value) (k : jsstring) (v : value) :
  NoDup (map fst state) -> Lang.isValue v = false ->
  History.createHash (set_prop state k v) = History.createHash (delete state k).
Proof.
  intros Hnd Hv. unfold History.createHash.
  rewrite <- (createHash_each_filter (set_prop state k v)).
  rewrite <- (createHash_each_filter (delete state k)).
  now rewrite filter_set_prop_no_value.
Qed.

Lemma createHash_leaves_out_a_key_without_value_witness :
  History.createHash
    (set_prop [(js "a", str (js "1")); (js "b", str (js "2"))] (js "a") null)
  = History.createHash
      (delete [(js "a", str (js "1")); (js "b", str (js "2"))] (js "a")).
Proof.
  apply (@createHash_leaves_out_a_key_without_value
           [(js "a", str (js "1")); (js "b", str (js "2"))] (js "a") null).
  - distinct_keys.
  - reflexivity.
Defined.

Lemma encoded_char_ascii c :
  encoded_char c = true ->
  c < 128 /\ c <> HASH /\ c <> QUESTION /\ c <> SPACE /\ c <> AMP /\ c <> EQUALS.
Proof.
  unfold encoded_char. intros H.
  apply orb_true_iff in H as [H|H]; [apply orb_true_iff in H as [H|H]|].
  - apply uriUnescaped_range in H. intuition.
  - apply N.eqb_eq in H. subst c. repeat split; (reflexivity || discriminate).
  - apply N.eqb_eq in H. subst c. repeat split; (reflexivity || discriminate).
Qed.

Lemma createHash_each_chars state : forall hash,
  History.createHash_each state = Some hash ->
  Forall (fun c => c < 128 /\ c <> HASH /\ c <> QUESTION /\ c <> SPACE)
    (join AMP hash).
Proof.
  assert (Henc : forall e, Forall (fun c => encoded_char c = true) e ->
            Forall (fun c => c < 128 /\ c <> HASH /\ c <> QUESTION /\ c <> SPACE) e).
  { intros e He. eapply Forall_impl; [|exact He].
    intros c Hc. apply encoded_char_ascii in Hc. intuition. }
  induction state as [|[k v] state IH]; intros hash H.
  - injection H as <-. constructor.
  - cbn [History.createHash_each] in H. destruct v as [| |s]; cbn [Lang.isValue] in H;
      [now apply IH | now apply IH |].
    destruct (History.encode k) as [ke|] eqn:Ek; [|discriminate].
    destruct (History.encode s) as [se|] eqn:Es; [|discriminate].
    destruct (History.createHash_each state) as [hash'|]; [|discriminate].
    injection H as <-. specialize (IH _ eq_refl).
    apply encode_chars in Ek, Es.
    assert (Hseg : Forall (fun c => c < 128 /\ c <> HASH /\ c <> QUESTION /\ c <> SPACE)
                     (ke ++ EQUALS :: se)).
    { apply Forall_app. split; [now apply Henc|]. constructor; [|now apply Henc].
      repeat split; (reflexivity || discriminate). }
    cbn [join]. destruct hash' as [|seg hash']; [exact Hseg|].
    apply Forall_app. split; [exact Hseg|]. constructor; [|exact IH].
    repeat split; (reflexivity || discriminate).
Qed.

(** X8. The hash string [createHash] returns is plain ASCII and holds no
    ['#'], no ['?'], no space and no two ['='] in a row; it does not begin
    with ['#']. *)
Theorem createHash_writes_plain_characters (state : object value) (h : jsstring) :
  History.createHash state = Some h ->
  Forall (fun c => c < 128 /\ c <> HASH /\ c <> QUESTION /\ c <> SPACE) h
  /\ no_double_equals h = true.
Proof.
  intros H. split; [|exact (createHash_no_double_equals _ H)].
  unfold History.createHash in H.
  destruct (History.createHash_each state) as [hash|] eqn:E; [|discriminate].
  injection H as <-. now apply createHash_each_chars with (state := state).
Qed.

Lemma createHash_writes_plain_characters_witness :
  Forall (fun c => c < 128 /\ c <> HASH /\ c <> QUESTION /\ c <> SPACE)
    (js "a+b=%23%3F&c=1")
  /\ no_double_equals (js "a+b=%23%3F&c=1") = true.
Proof.
  apply (@createHash_writes_plain_characters
           [(js "a b", str (js "#?")); (js "c", str (js "1"))]
           (js "a+b=%23%3F&c=1")).
  reflexivity.
Defined.

(** ** What [decode] accepts *)

Lemma Decode_plain s : ~ In PERCENT s -> Decode None s = Some s.
Proof.
  induction s as [|c s IH]; intros H; [reflexivity|].
  cbn [Decode]. destruct (c =? PERCENT) eqn:E.
  - apply N.eqb_eq in E. subst c. exfalso. apply H. now left.
  - rewrite IH; [reflexivity|]. intros Hin. apply H. now right.
Qed.

(** X9. [decode] touches only ['%'] escapes and ['+']: a string without
    ['%'] is decoded to itself with every ['+'] turned into a space, and
    never rejected. *)
Theorem decode_of_a_string_without_escapes (s : jsstring) :
  ~ In PERCENT s -> History.decode s = Some (replace_plus s).
Proof.
  intros H. unfold History.decode, decodeURIComponent. apply Decode_plain.
  unfold replace_plus. intros Hin. apply in_map_iff in Hin as [c [Hc Hin]].
  destruct (c =? PLUS); [discriminate|]. subst c. contradiction.
Qed.

Lemma decode_of_a_string_without_escapes_witness :
  History.decode (js "a+b c") = Some (js "a b c").
Proof.
  apply (@decode_of_a_string_without_escapes (js "a+b c")).
  vm_compute. intuition discriminate.
Defined.

(** A ['%'] with fewer than two characters after it is rejected, whatever
    comes before. *)
Lemma Decode_truncated n : forall s st,
  (List.length s <= n)%nat -> Decode st (s ++ [PERCENT]) = None.
Proof.
  induction n as [|n IH]; intros s st Hl.
  - destruct s; [reflexivity | cbn in Hl; lia].
  - destruct s as [|C s1]; [reflexivity|].
    cbn [List.length] in Hl. cbn [app Decode].
    destruct (C =? PERCENT).
    + destruct s1 as [|h1 [|h2 s3]]; cbn [app]; [reflexivity| |].
      * change (hexVal PERCENT) with (@None N). now destruct (hexVal h1).
      * cbn [List.length] in Hl.
        assert (H3 : forall st', Decode st' (s3 ++ [PERCENT]) = None)
          by (intros st'; apply IH; lia).
        destruct (hexVal h1) as [d1|]; [|reflexivity].
        destruct (hexVal h2) as [d2|]; [|reflexivity].
        cbv zeta.
        destruct st as [[[j m] V]|].
        -- destruct (_ && _); [|reflexivity].
           destruct j; rewrite H3; [|reflexivity].
           now destruct (decoded_units _ _).
        -- rewrite !H3. repeat (destruct (_ <? _); try reflexivity).
    + destruct st; [reflexivity|]. rewrite IH by lia. reflexivity.
Qed.

Lemma decode_truncated s : History.decode (s ++ [PERCENT]) = None.
Proof.
  unfold History.decode, decodeURIComponent, replace_plus.
  rewrite map_app. cbn [map]. change (PERCENT =? PLUS) with false. cbv iota.
  eapply Decode_truncated. apply Nat.le_refl.
Qed.

Lemma getHash_no_prefix w : hashPrefix w = [] -> History.getHash w = fragment w.
Proof.
  intros H. unfold History.getHash. rewrite H, substr1_location_hash.
  reflexivity.
Qed.

(** X10. A fragment whose last pair ends in a truncated escape makes
    [parseHash] throw ([URIError] of [decodeURIComponent]); so do the
    handler of a hash change to it and the constructor of a [History]
    instance that reads it as the bookmarked state. *)
Theorem parseHash_throws_on_a_truncated_escape (w : world) (k v : jsstring) :
  hashPrefix w = [] -> k <> [] ->
  Forall (fun c => encoded_char c = true) k ->
  Forall (fun c => encoded_char c = true) v ->
  History.parseHash (Some (k ++ EQUALS :: v ++ [PERCENT])) w = None
  /\ History.hashchange (k ++ EQUALS :: v ++ [PERCENT]) w = None
  /\ History._init None (set_fragment (k ++ EQUALS :: v ++ [PERCENT]) w) = None.
Proof.
  intros Hp Hk Fk Fv. set (f := k ++ EQUALS :: v ++ [PERCENT]).
  assert (Fv' : Forall (fun c => encoded_char c = true) (v ++ [PERCENT])).
  { apply Forall_app. split; [assumption|]. now repeat constructor. }
  assert (Hv' : v ++ [PERCENT] <> []) by now destruct v.
  assert (H : forall w', hashPrefix w' = [] -> History.parseHash (Some f) w' = None).
  { intros w' Hp'. rewrite parseHash_no_prefix by assumption.
    unfold parse_unprefixed, f. rewrite match_REGEX_HASH_pair by assumption.
    cbn [History.parseHash_each].
    rewrite split_pair by now apply encoded_no_equals.
    rewrite decode_truncated. now destruct (History.decode k). }
  assert (Hg : History.getHash (set_fragment f w) = f)
    by now rewrite getHash_no_prefix.
  split; [now apply H|]. split.
  - unfold History.hashchange, History._afterHashChange. cbv zeta.
    rewrite Hg, H; reflexivity || assumption.
  - unfold History._init.
    change (History.parseHash None (set_fragment f w))
      with (History.parseHash (Some (History.getHash (set_fragment f w)))
              (set_fragment f w)).
    rewrite Hg, H; reflexivity || assumption.
Qed.

Lemma parseHash_throws_on_a_truncated_escape_witness :
  History.parseHash (Some (js "a=50%")) (world_of []) = None
  /\ History.hashchange (js "a=50%") (world_of []) = None
  /\ History._init None (set_fragment (js "a=50%") (world_of [])) = None.
Proof.
  apply (@parseHash_throws_on_a_truncated_escape (world_of []) (js "a") (js "50")).
  - reflexivity.
  - discriminate.
  - repeat constructor.
  - repeat constructor.
Defined.

(** ** Writing and reading the location hash *)

Lemma encoded_char_kept c : encoded_char c = true -> kept_by_location c = true.
Proof.
  unfold encoded_char, kept_by_location, uriUnescaped, PERCENT, PLUS.
  cbn [js list_ascii_of_string map existsb]. cbv [N_of_ascii N_of_digits].
  cbn [N.add N.mul Pos.add Pos.succ Pos.mul].
  intros H. b2p; cmp; reflexivity.
Qed.

(** Every hash that [createHash] writes is made of characters the location
    keeps. *)
Lemma createHash_each_kept state : forall hash,
  History.createHash_each state = Some hash ->
  forallb kept_by_location (join AMP hash) = true.
Proof.
  assert (Henc : forall s e, History.encode s = Some e ->
                             forallb kept_by_location e = true).
  { intros s e He. apply encode_chars in He. apply forallb_forall.
    rewrite Forall_forall in He. intros c Hc. now apply encoded_char_kept, He. }
  induction state as [|[k v] state IH]; intros hash H.
  - injection H as <-. reflexivity.
  - cbn [History.createHash_each] in H.
    destruct v as [| |s]; cbn [Lang.isValue] in H; [now apply IH | now apply IH |].
    destruct (History.encode k) as [ke|] eqn:Ek; [|discriminate].
    destruct (History.encode s) as [se|] eqn:Es; [|discriminate].
    destruct (History.createHash_each state) as [hash'|]; [|discriminate].
    injection H as <-. specialize (IH _ eq_refl).
    apply Henc in Ek, Es.
    destruct hash' as [|seg hash'].
    + cbn [join]. rewrite forallb_app, Ek. cbn [forallb]. now rewrite Es.
    + change (join AMP ((ke ++ EQUALS :: se) :: seg :: hash'))
        with ((ke ++ EQUALS :: se) ++ AMP :: join AMP (seg :: hash')).
      rewrite !forallb_app. cbn [forallb]. now rewrite Ek, Es, IH.
Qed.

Lemma createHash_kept_by_location state h :
  History.createHash state = Some h -> forallb kept_by_location h = true.
Proof.
  unfold History.createHash.
  destruct (History.createHash_each state) as [hash|] eqn:E; [|discriminate].
  intros [= <-]. now apply createHash_each_kept with (state := state).
Qed.

(** X11. A hash made of characters the location keeps as they are
    assigned (printable ASCII other than the space, the double quote,
    ['<'], ['>'] and the backquote; every hash [createHash] writes is of
    this kind), written by [setHash] or [replaceHash] with a prefix of such
    characters or none, is what [getHash] reads back; one leading ['#'] of
    the argument is dropped. *)
Theorem getHash_reads_back_the_hash_written (h : jsstring) (w : world) :
  forallb kept_by_location h = true ->
  forallb kept_by_location (hashPrefix w) = true ->
  charAt0_is HASH h = false -> charAt0_is HASH (hashPrefix w) = false ->
  forallb kept_by_location (fragment (fst (History.setHash h w))) = true
  /\ History.getHash (fst (History.setHash h w)) = h
  /\ History.getHash (fst (History.replaceHash h w)) = h
  /\ fst (History.setHash (HASH :: h) w) = fst (History.setHash h w)
  /\ fst (History.replaceHash (HASH :: h) w) = fst (History.replaceHash h w).
Proof.
  intros Kh Kp Hh Hp. split.
  { unfold History.setHash. cbn [fst fragment set_fragment]. rewrite Hh.
    assert (Hv : charAt0_is HASH (hashPrefix w ++ h) = false)
      by (destruct (hashPrefix w); assumption).
    rewrite Hv, forallb_app, Kp, Kh. reflexivity. }
  split; [now apply getHash_setHash|].
  split; [now apply getHash_replaceHash|].
  unfold History.setHash, History.replaceHash. cbn [fst charAt0_is substr1 tl].
  rewrite N.eqb_refl, Hh. split; reflexivity.
Qed.

Lemma getHash_reads_back_the_hash_written_witness :
  forallb kept_by_location
    (fragment (fst (History.setHash (js "a=1") (world_with_prefix (js "!")))))
  = true
  /\ History.getHash (fst (History.setHash (js "a=1") (world_with_prefix (js "!"))))
     = js "a=1"
  /\ History.getHash
       (fst (History.replaceHash (js "a=1") (world_with_prefix (js "!"))))
     = js "a=1"
  /\ fst (History.setHash (HASH :: js "a=1") (world_with_prefix (js "!")))
     = fst (History.setHash (js "a=1") (world_with_prefix (js "!")))
  /\ fst (History.replaceHash (HASH :: js "a=1") (world_with_prefix (js "!")))
     = fst (History.replaceHash (js "a=1") (world_with_prefix (js "!"))).
Proof.
  apply (@getHash_reads_back_the_hash_written (js "a=1")
           (world_with_prefix (js "!"))); reflexivity.
Defined.

(** ** Reading pairs *)

Lemma parseHash_each_app ms1 : forall ms2 params,
  History.parseHash_each (ms1 ++ ms2) params
  = let? r := History.parseHash_each ms1 params in History.parseHash_each ms2 r.
Proof.
  induction ms1 as [|m ms1 IH]; intros ms2 params.
  - cbn [app History.parseHash_each]. reflexivity.
  - cbn [app History.parseHash_each].
    destruct (split EQUALS m) as [|p0 [|p1 ps]]; try reflexivity.
    destruct (History.decode p0); [|reflexivity].
    destruct (History.decode p1); [|reflexivity]. apply IH.
Qed.

(** X12. A pair written after the others is read last and wins: the hash
    [h&key=value], with the pair encoded, is read as [h] is, with the key
    then set to the value; an earlier binding of the key is overwritten
    and keeps its place. *)
Theorem parseHash_of_an_appended_pair
  (w : world) (h k v ke ve : jsstring) :
  hashPrefix w = [] -> k <> [] -> v <> [] ->
  History.encode k = Some ke -> History.encode v = Some ve ->
  History.parseHash (Some (h ++ AMP :: ke ++ EQUALS :: ve)) w
  = let? params := History.parseHash (Some h) w in
    Some (set_prop params k (str v)).
Proof.
  intros Hp Hk Hv Ek Ev. rewrite !parseHash_no_prefix by assumption.
  unfold parse_unprefixed.
  rewrite match_REGEX_HASH_app by apply Nat.le_0_l.
  rewrite match_REGEX_HASH_pair;
    [| now apply (encode_nonempty Hk) | now apply (encode_nonempty Hv)
     | now apply encode_chars with (s := k)
     | now apply encode_chars with (s := v)].
  rewrite parseHash_each_app.
  destruct (History.parseHash_each _ []) as [params|]; [|reflexivity].
  cbn [History.parseHash_each].
  rewrite split_pair;
    [| apply encoded_no_equals; now apply encode_chars with (s := k)
     | apply encoded_no_equals; now apply encode_chars with (s := v)].
  now rewrite (encode_then_decode _ Ek), (encode_then_decode _ Ev).
Qed.

Lemma parseHash_of_an_appended_pair_witness :
  History.parseHash (Some (js "a=1&b=2" ++ AMP :: js "a" ++ EQUALS :: js "3"))
    (world_of [])
  = let? params := History.parseHash (Some (js "a=1&b=2")) (world_of []) in
    Some (set_prop params (js "a") (str (js "3"))).
Proof.
  apply (@parseHash_of_an_appended_pair (world_of []) (js "a=1&b=2")
           (js "a") (js "3") (js "a") (js "3")).
  - reflexivity.
  - discriminate.
  - discriminate.
  - reflexivity.
  - reflexivity.
Defined.

(** ** The state and the hash of a [History] instance *)

Lemma set_prop_values {A} (Q : A -> Prop) (o : object A) k v :
  Forall (fun p => Q (snd p)) o -> Q v ->
  Forall (fun p => Q (snd p)) (set_prop o k v).
Proof.
  intros Ho Hv. induction o as [|[j x] o IH]; [now repeat constructor|].
  inversion Ho; subst. cbn [set_prop].
  destruct (str_eqb j k); constructor; auto.
Qed.

(** What [parseHash] returns has distinct keys and strings as values. *)
Lemma parseHash_each_strings ms : forall params r,
  NoDup (map fst params) ->
  Forall (fun p => exists s, snd p = str s) params ->
  History.parseHash_each ms params = Some r ->
  NoDup (map fst r) /\ Forall (fun p => exists s, snd p = str s) r.
Proof.
  induction ms as [|m ms IH]; intros params r Hnd Hs H.
  - injection H as <-. now split.
  - cbn [History.parseHash_each] in H.
    destruct (split EQUALS m) as [|p0 [|p1 ps]]; try discriminate.
    destruct (History.decode p0) as [k|]; [|discriminate].
    destruct (History.decode p1) as [v|]; [|discriminate].
    apply IH in H; [assumption | now apply NoDup_set_prop |].
    apply set_prop_values with (Q := fun x => exists s, x = str s);
      [assumption | now exists v].
Qed.

Lemma parseHash_strings hash w r :
  History.parseHash hash w = Some r ->
  NoDup (map fst r) /\ forall k, get r k <> null.
Proof.
  unfold History.parseHash. intros H.
  apply parseHash_each_strings in H as [Hnd Hs];
    [|constructor|constructor].
  split; [assumption|]. intros k. unfold get.
  destruct (lookup r k) as [x|] eqn:E; [|discriminate].
  apply lookup_In in E. rewrite Forall_forall in Hs.
  destruct (Hs _ E) as [s Hx]. cbn [snd] in Hx. now subst x.
Qed.

(** X13. After a hash change the state reads as the hash does: for every
    key, [get] gives what [parseHash] of the new hash gives; keys that the
    hash lacks are gone.  The change is not merged into the state. *)
Theorem hashchange_makes_the_state_read_as_the_hash
  (f : jsstring) (w w' : world) (es : list effect) :
  NoDup (map fst (_state w)) ->
  History.hashchange f w = Some (w', es) ->
  exists parsed,
    History.parseHash (Some (History.getHash (set_fragment f w)))
      (set_fragment f w) = Some parsed
    /\ forall k, get (_state w') k = get parsed k.
Proof.
  intros Hnd. unfold History.hashchange, History._afterHashChange. cbv zeta.
  destruct (History.parseHash _ _) as [parsed|] eqn:Ep; [|discriminate].
  intros H. exists parsed. split; [reflexivity|]. intros k.
  destruct (parseHash_strings _ _ Ep) as [Hndp Hnull].
  rewrite (@resolveChanges_get _ History_stores _ _ (set_fragment f w) _ _ k
             Hnd Hndp H).
  specialize (Hnull k). destruct (get parsed k); try reflexivity.
  - now rewrite andb_false_r.
  - contradiction.
  - now rewrite andb_false_r.
Qed.

Lemma hashchange_makes_the_state_read_as_the_hash_witness :
  exists parsed,
    History.parseHash
      (Some (History.getHash
               (set_fragment (js "b=2")
                  {| _state := [(js "a", str (js "1"))]; hashPrefix := [];
                     fragment := js "a=1" |})))
      (set_fragment (js "b=2")
         {| _state := [(js "a", str (js "1"))]; hashPrefix := [];
            fragment := js "a=1" |})
    = Some parsed
    /\ forall k,
         get (_state {| _state := [(js "b", str (js "2"))]; hashPrefix := [];
                        fragment := js "b=2" |}) k
         = get parsed k.
Proof.
  apply (@hashchange_makes_the_state_read_as_the_hash (js "b=2")
           {| _state := [(js "a", str (js "1"))]; hashPrefix := [];
              fragment := js "a=1" |}
           {| _state := [(js "b", str (js "2"))]; hashPrefix := [];
              fragment := js "b=2" |}
           [fire_change [(js "b", {| newVal := str (js "2"); prevVal := undefined |})]
              [(js "b", str (js "2"))] [(js "a", str (js "1"))]
              [(js "a", str (js "1"))] SRC_HASH;
            fire_key_Change (js "b") (str (js "2")) undefined SRC_HASH;
            fire_key_Remove (js "a") (str (js "1")) SRC_HASH]).
  - distinct_keys.
  - reflexivity.
Defined.

(** Resolving the state against itself finds no change, unless the state
    holds [null]. *)
Lemma resolveChanges_same {this : this_type} src w :
  NoDup (map fst (_state w)) ->
  (forall k, lookup (_state w) k <> Some null) ->
  HistoryBase._resolveChanges src (_state w) w = Some (w, []).
Proof.
  intros Hnd Hnull. rewrite resolveChanges_eq by assumption. cbv zeta.
  rewrite !existsb_none; [reflexivity| |].
  - intros [j x] Hin. pose proof (NoDup_lookup _ _ _ Hnd Hin) as Hl.
    unfold is_removed, Obj.owns, get. cbn [fst]. rewrite Hl. cbn [negb orb].
    destruct x; try reflexivity. exfalso. exact (Hnull j Hl).
  - intros [j x] Hin. pose proof (NoDup_lookup _ _ _ Hnd Hin) as Hl.
    unfold differs, get. cbn [fst snd]. rewrite Hl.
    now rewrite strict_eq_refl.
Qed.

Lemma hashable_no_null state k : hashable state -> lookup state k <> Some null.
Proof.
  intros [_ Hf] Hl. apply lookup_In in Hl. rewrite Forall_forall in Hf.
  destruct (Hf _ Hl) as (_ & _ & s & Hs & _). discriminate.
Qed.

(** When the hash is the encoding of the state, a hash change to it is
    handled without any effect. *)
Lemma hashchange_of_the_state_hash w :
  hashPrefix w = [] -> hashable (_state w) ->
  History.createHash (_state w) = Some (History.getHash w) ->
  History.hashchange (fragment w) w = Some (w, []).
Proof.
  intros Hp Hh Hc. destruct w as [S p f]. cbn [_state hashPrefix fragment] in *.
  subst p. unfold History.hashchange, History._afterHashChange, set_fragment.
  cbn [_state hashPrefix fragment]. set (w := {| _state := S |}) in *.
  destruct (createHash_parseHash Hh) as (h & Eh & Hparse).
  rewrite Hc in Eh. injection Eh as <-.
  rewrite (Hparse w) by now left.
  apply (@resolveChanges_same History.this SRC_HASH w); [exact (proj1 Hh)|].
  intros k. now apply hashable_no_null.
Qed.

(** After a call that stored a state, the hash is the encoding of the
    state. *)
Lemma History_change_hash src a w w1 es :
  charAt0_is HASH (hashPrefix w) = false ->
  HistoryBase._change (this := History.this) src a w = Some (w1, es) ->
  es <> [] ->
  src <> SRC_HASH ->
  hashPrefix w1 = hashPrefix w
  /\ History.createHash (_state w1) = Some (History.getHash w1).
Proof.
  intros Hp H Hes Hsrc. unfold HistoryBase._change in H.
  apply resolveChanges_shape in H as [[He _]|(c & ns & r & st & kev & Hs & _)];
    [contradiction|].
  change (History._storeState src ns w = Some (w1, st)) in Hs.
  destruct (History.createHash ns) as [newHash|] eqn:Ec;
    [|unfold History._storeState in Hs; now rewrite Ec in Hs].
  rewrite (@History_storeState_eq src ns w newHash Ec) in Hs. cbv zeta in Hs.
  pose proof (@createHash_head ns newHash Ec) as Hh.
  destruct (str_eqb (History.getHash w) newHash) eqn:E.
  - injection Hs as <- <-. split; [reflexivity|].
    cbn [_state set_state]. rewrite getHash_set_state.
    apply str_eqb_eq in E. now rewrite E.
  - assert (Hp1 : charAt0_is HASH (hashPrefix (set_state ns w)) = false)
      by exact Hp.
    destruct src; [| |contradiction].
    + remember (fst (History.setHash newHash (set_state ns w))) as w2 eqn:Ew.
      assert (G : History.getHash w2 = newHash)
        by (subst w2; now apply getHash_setHash).
      assert (P : hashPrefix w2 = hashPrefix w /\ _state w2 = ns)
        by (subst w2; split; reflexivity).
      clear Ew. injection Hs as <- <-. destruct P as [P S].
      split; [exact P|]. now rewrite S, G.
    + remember (fst (History.replaceHash newHash (set_state ns w))) as w2 eqn:Ew.
      assert (G : History.getHash w2 = newHash)
        by (subst w2; now apply getHash_replaceHash).
      assert (P : hashPrefix w2 = hashPrefix w /\ _state w2 = ns)
        by (subst w2; split; reflexivity).
      clear Ew. injection Hs as <- <-. destruct P as [P S].
      split; [exact P|]. now rewrite S, G.
Qed.

(** X14. The hash change that a [History] instance causes by writing the
    hash in [add] or [replace] changes nothing when it is handled: no
    event, no further write.  (No prefix set; the state stored is one
    whose keys and values are non-empty well-formed strings.) *)
Theorem hashchange_after_add_is_silent
  (a : state_arg) (w w1 : world) (es : list effect) :
  hashPrefix w = [] ->
  HistoryBase.add (this := History.this) a w = Some (w1, es)
  \/ HistoryBase.replace (this := History.this) a w = Some (w1, es) ->
  es <> [] -> hashable (_state w1) ->
  History.hashchange (fragment w1) w1 = Some (w1, []).
Proof.
  intros Hp H Hes Hh.
  assert (Hp' : charAt0_is HASH (hashPrefix w) = false) by now rewrite Hp.
  assert (Hc : hashPrefix w1 = hashPrefix w
               /\ History.createHash (_state w1) = Some (History.getHash w1)).
  { destruct H as [H|H];
      [apply (@History_change_hash SRC_ADD a w w1 es)
      |apply (@History_change_hash SRC_REPLACE a w w1 es)];
      assumption || discriminate. }
  destruct Hc as [Hp1 Hc]. apply hashchange_of_the_state_hash; congruence.
Qed.

Lemma hashchange_after_add_is_silent_witness :
  History.hashchange
    (fragment {| _state := [(js "a", str (js "1"))]; hashPrefix := [];
                 fragment := js "a=1" |})
    {| _state := [(js "a", str (js "1"))]; hashPrefix := [];
       fragment := js "a=1" |}
  = Some ({| _state := [(js "a", str (js "1"))]; hashPrefix := [];
             fragment := js "a=1" |}, []).
Proof.
  apply (@hashchange_after_add_is_silent (a_key (js "a") (str (js "1")))
           (world_of [])
           {| _state := [(js "a", str (js "1"))]; hashPrefix := [];
              fragment := js "a=1" |}
           [fire_change [(js "a", {| newVal := str (js "1"); prevVal := undefined |})]
              [(js "a", str (js "1"))] [] [] SRC_ADD;
            call_setHash (js "a=1");
            fire_key_Change (js "a") (str (js "1")) undefined SRC_ADD]).
  - reflexivity.
  - left. reflexivity.
  - discriminate.
  - split; [distinct_keys|]. repeat constructor; try discriminate.
    exists (js "1"). repeat split. discriminate.
Defined.

(** X15. A [History] instance constructed without an initial state, on a
    page whose hash is the encoding of a state (keys and values non-empty
    well-formed strings) and whose state is still empty, takes that state;
    it fires events only and does not write the hash. *)
Theorem init_takes_the_bookmarked_state
  (state : object value) (h : jsstring) (w : world) :
  hashable state -> History.createHash state = Some h ->
  _state w = [] -> hashPrefix w = [] -> fragment w = h ->
  exists es,
    History._init None w = Some (set_state state w, es)
    /\ Forall (fun e => is_event e = true) es.
Proof.
  intros Hh Hc Hs Hp Hf. destruct w as [S p f].
  cbn [_state hashPrefix fragment] in *. subst S p f.
  set (w := {| _state := []; hashPrefix := []; fragment := h |}).
  assert (Hg : History.getHash w = h) by now apply getHash_no_prefix.
  destruct (createHash_parseHash Hh) as (h' & Eh & Hparse).
  rewrite Hc in Eh. injection Eh as <-.
  unfold History._init.
  change (History.parseHash None w)
    with (History.parseHash (Some (History.getHash w)) w).
  rewrite Hg, (Hparse w) by now left.
  unfold HistoryBase._init, HistoryBase.add, HistoryBase._change.
  assert (Hm : merge (_state w) (merge (_state w) state) = state).
  { change (merge (_state w) (merge (_state w) state))
      with (mix [] (mix [] state)).
    pose proof (proj1 Hh) as Hnd.
    now rewrite !(@mix_nil_NoDup _ state Hnd). }
  rewrite Hm.
  rewrite resolveChanges_eq by (exact (proj1 Hh) || constructor). cbv zeta.
  cbn [_state w filter existsb map fold_left]. rewrite orb_false_r.
  destruct (existsb _ state) eqn:Ed.
  - rewrite fireEvents_eq. cbn [changed newState prevState removed].
    change (this_storeState SRC_ADD state w)
      with (History._storeState SRC_ADD state w).
    rewrite (@History_storeState_eq SRC_ADD state w h Hc). cbv zeta.
    rewrite Hg, str_eqb_refl. eexists. split; [reflexivity|].
    constructor; [reflexivity|]. cbn [app flat_map].
    rewrite app_nil_r.
    pose proof (key_events_are_events SRC_ADD
                  (flat_map (changed_entry []) state) []) as Hk.
    cbn [flat_map] in Hk. rewrite app_nil_r in Hk. exact Hk.
  - destruct state as [|[k v] state].
    + exists []. split; [reflexivity | constructor].
    + exfalso. cbn [existsb] in Ed. apply orb_false_iff in Ed as [Ed _].
      unfold differs in Ed. cbn [fst snd get lookup] in Ed.
      destruct Hh as [_ Hf]. inversion Hf as [|? ? Hp0 _].
      destruct Hp0 as (_ & _ & s & Hs & _). cbn [snd] in Hs. subst v.
      discriminate.
Qed.

Lemma init_takes_the_bookmarked_state_witness :
  exists es,
    History._init None
      {| _state := []; hashPrefix := []; fragment := js "a=1" |}
    = Some (set_state [(js "a", str (js "1"))]
              {| _state := []; hashPrefix := []; fragment := js "a=1" |}, es)
    /\ Forall (fun e => is_event e = true) es.
Proof.
  apply (@init_takes_the_bookmarked_state [(js "a", str (js "1"))] (js "a=1")
           {| _state := []; hashPrefix := []; fragment := js "a=1" |}).
  - split; [distinct_keys|]. repeat constructor; try discriminate.
    exists (js "1"). repeat split. discriminate.
  - reflexivity.
  - reflexivity.
  - reflexivity.
  - reflexivity.
Defined.

(** ** Strings that cannot be encoded *)

Lemma createHash_each_ill_formed state k v :
  In (k, str v) state -> well_formed k = false \/ well_formed v = false ->
  History.createHash_each state = None.
Proof.
  intros Hin Hw. induction state as [|[j x] state IH]; [destruct Hin|].
  cbn [History.createHash_each].
  destruct Hin as [Heq|Hin].
  - injection Heq as -> ->. cbn [Lang.isValue].
    destruct Hw as [Hw|Hw].
    + now rewrite (encode_ill_formed _ Hw).
    + rewrite (encode_ill_formed _ Hw). now destruct (History.encode k).
  - specialize (IH Hin). rewrite IH.
    destruct x as [| |s]; cbn [Lang.isValue]; try reflexivity.
    destruct (History.encode j); [|reflexivity].
    now destruct (History.encode s).
Qed.

(** X16. A state that holds a key, bound to a string, or a string value
    with an unpaired surrogate cannot be written to the hash: [createHash]
    throws ([URIError] of [encodeURIComponent]), and so does
    [_storeState] of a [History] instance, before anything is stored; a
    [HistoryBase] instance stores the state. *)
Theorem History_storeState_throws_on_an_ill_formed_string
  (src : source) (newState : object value) (w : world) (k v : jsstring) :
  In (k, str v) newState ->
  well_formed k = false \/ well_formed v = false ->
  History.createHash newState = None
  /\ History._storeState src newState w = None
  /\ HistoryBase._storeState src newState w = Some (set_state newState w, []).
Proof.
  intros Hin Hw.
  assert (H : History.createHash newState = None).
  { unfold History.createHash.
    now rewrite (createHash_each_ill_formed _ _ _ Hin Hw). }
  split; [exact H|]. split; [|reflexivity].
  unfold History._storeState. now rewrite H.
Qed.

Lemma History_storeState_throws_on_an_ill_formed_string_witness :
  History.createHash [(js "a", str [0xD800])] = None
  /\ History._storeState SRC_ADD [(js "a", str [0xD800])] (world_of []) = None
  /\ HistoryBase._storeState SRC_ADD [(js "a", str [0xD800])] (world_of [])
     = Some (set_state [(js "a", str [0xD800])] (world_of []), []).
Proof.
  apply (@History_storeState_throws_on_an_ill_formed_string SRC_ADD
           [(js "a", str [0xD800])] (world_of []) (js "a") [0xD800]).
  - now left.
  - now right.
Defined.

(** ** What [_REGEX_HASH] matches *)

Lemma class2_false c : History.class2 c = false -> c = AMP.
Proof.
  unfold History.class2. intros H. apply negb_false_iff in H.
  now apply N.eqb_eq.
Qed.

(** X17. A match of [_REGEX_HASH] at the head of a string is a non-empty
    run of characters other than ['?'], ['#'] and ['&'], then ['='], then a
    non-empty run of characters other than ['&'] which goes on to the next
    ['&'] or to the end of the string. *)
Theorem REGEX_HASH_match_shape (s g1 g2 rest : jsstring) :
  History._REGEX_HASH_at s = Some (g1, g2, rest) ->
  s = g1 ++ EQUALS :: g2 ++ rest
  /\ g1 <> [] /\ forallb History.class1 g1 = true
  /\ g2 <> [] /\ forallb History.class2 g2 = true
  /\ (rest = [] \/ exists r, rest = AMP :: r).
Proof.
  intros H. destruct (REGEX_HASH_at_eq _ H) as (Hs & H1 & H2).
  destruct (@REGEX_HASH_at_sound s g1 g2 rest H) as (C1 & C2 & Hr).
  repeat split; try assumption.
  destruct rest as [|c r]; [now left|]. right. exists r.
  now rewrite (class2_false _ Hr).
Qed.

Lemma REGEX_HASH_match_shape_witness :
  js "a=b=c&d=e" = js "a=b" ++ EQUALS :: js "c" ++ js "&d=e"
  /\ js "a=b" <> [] /\ forallb History.class1 (js "a=b") = true
  /\ js "c" <> [] /\ forallb History.class2 (js "c") = true
  /\ (js "&d=e" = [] \/ exists r, js "&d=e" = AMP :: r).
Proof.
  apply (@REGEX_HASH_match_shape (js "a=b=c&d=e") (js "a=b") (js "c") (js "&d=e")).
  reflexivity.
Defined.

(** ** The facade of the change event *)

Lemma lookup_filter_eq {A} (f : jsstring * A -> bool) (o : object A) k :
  NoDup (map fst o) ->
  lookup (filter f o) k
  = match lookup o k with
    | Some v => if f (k, v) then Some v else None
    | None => None
    end.
Proof.
  induction o as [|[j x] o IH]; intros Hnd; [reflexivity|].
  inversion Hnd as [|? ? Hnin Hnd']; subst. cbn [filter lookup].
  destruct (str_eqb j k) eqn:E.
  - apply str_eqb_eq in E. subst j. destruct (f (k, x)).
    + cbn [lookup]. now rewrite str_eqb_refl.
    + apply lookup_None_keys. intros Hin. apply Hnin.
      now apply (@keys_filter_incl _ f o).
  - destruct (f (j, x)); [cbn [lookup]; rewrite E|]; now apply IH.
Qed.

Lemma lookup_changed_entries prev (new : object value) k :
  NoDup (map fst new) ->
  lookup (flat_map (changed_entry prev) new) k
  = match lookup new k with
    | Some v =>
        if strict_eq v (get prev k) then None
        else Some {| newVal := v; prevVal := get prev k |}
    | None => None
    end.
Proof.
  induction new as [|[j x] new IH]; intros Hnd; [reflexivity|].
  inversion Hnd as [|? ? Hnin Hnd']; subst. cbn [flat_map lookup].
  rewrite lookup_app. unfold changed_entry at 1, differs. cbn [fst snd].
  destruct (str_eqb j k) eqn:E.
  - apply str_eqb_eq in E. subst j.
    destruct (strict_eq x (get prev k)); cbn [negb lookup].
    + apply lookup_None_keys. intros Hin. apply Hnin.
      now apply (@keys_changed_entries prev new).
    + now rewrite str_eqb_refl.
  - destruct (strict_eq x (get prev j)); cbn [negb lookup]; [|rewrite E];
      now apply IH.
Qed.

(** X19. The facade of the change event that [_resolveChanges] fires,
    key by key: [changed] holds a key when the new state has it with a
    value that is not [===] the previous one, with both values; [removed]
    holds a key of the previous state, with its previous value, when the
    new state lacks it or gives it [null]; [newVal] is the new state
    without the keys that [removed] holds; [prevVal] is the previous
    state. *)
Theorem change_event_lists_what_changed
  (this : this_type) (src : source) (new : object value) (w w' : world)
  (es : list effect) :
  NoDup (map fst (_state w)) -> NoDup (map fst new) ->
  HistoryBase._resolveChanges src new w = Some (w', es) -> es <> [] ->
  exists c n r rest,
    es = fire_change c n (_state w) r src :: rest
    /\ (forall k,
          lookup c k
          = match lookup new k with
            | Some v =>
                if strict_eq v (get (_state w) k) then None
                else Some {| newVal := v; prevVal := get (_state w) k |}
            | None => None
            end)
    /\ (forall k,
          lookup r k
          = match lookup (_state w) k with
            | Some pv =>
                if negb (Obj.owns new k) || strict_eq (get new k) null
                then Some pv else None
            | None => None
            end)
    /\ (forall k,
          lookup n k
          = if Obj.owns (_state w) k && strict_eq (get new k) null then None
            else lookup new k).
Proof.
  intros Hnd Hnew. rewrite resolveChanges_eq by assumption. cbv zeta.
  destruct (_ || _); [|intros [= <- <-] Hes; contradiction].
  rewrite fireEvents_eq. cbn [changed newState prevState removed].
  destruct (this_storeState src _ w) as [[w2 st]|]; [|discriminate].
  intros [= <- <-] _. eexists _, _, _, _. split; [reflexivity|].
  split; [intros k; now apply lookup_changed_entries|].
  split; [intros k; now rewrite lookup_filter_eq|].
  intros k. pose proof (@removed_keys new (_state w) k Hnd) as Hrk.
  destruct (in_dec (list_eq_dec N.eq_dec) k
              (map fst (filter (is_removed new) (_state w)))) as [Hin|Hin].
  - rewrite lookup_fold_delete_in by assumption.
    apply Hrk in Hin as [Ho Hr]. rewrite Ho. cbn [andb].
    destruct Hr as [Hr|Hr].
    + unfold Obj.owns in Hr. destruct (lookup new k); [discriminate|].
      now destruct (strict_eq _ _).
    + now rewrite Hr.
  - rewrite lookup_fold_delete_out by assumption.
    destruct (Obj.owns (_state w) k) eqn:Ho; [|reflexivity]. cbn [andb].
    destruct (strict_eq (get new k) null) eqn:En; [|reflexivity].
    exfalso. apply Hin, Hrk. split; [reflexivity|]. right.
    now apply strict_eq_eq.
Qed.

Lemma change_event_lists_what_changed_witness :
  exists c n r rest,
    [fire_change
       [(js "a", {| newVal := null; prevVal := str (js "1") |});
        (js "c", {| newVal := str (js "3"); prevVal := undefined |})]
       [(js "b", str (js "2")); (js "c", str (js "3"))]
       [(js "a", str (js "1")); (js "b", str (js "2"))]
       [(js "a", str (js "1"))]
       SRC_ADD;
     fire_key_Change (js "a") null (str (js "1")) SRC_ADD;
     fire_key_Change (js "c") (str (js "3")) undefined SRC_ADD;
     fire_key_Remove (js "a") (str (js "1")) SRC_ADD]
    = fire_change c n
        (_state (world_of [(js "a", str (js "1")); (js "b", str (js "2"))]))
        r SRC_ADD :: rest
    /\ (forall k,
          lookup c k
          = match lookup [(js "a", null); (js "b", str (js "2"));
                          (js "c", str (js "3"))] k with
            | Some v =>
                if strict_eq v
                     (get (_state (world_of [(js "a", str (js "1"));
                                             (js "b", str (js "2"))])) k)
                then None
                else Some {| newVal := v;
                             prevVal :=
                               get (_state (world_of [(js "a", str (js "1"));
                                                      (js "b", str (js "2"))])) k |}
            | None => None
            end)
    /\ (forall k,
          lookup r k
          = match lookup (_state (world_of [(js "a", str (js "1"));
                                            (js "b", str (js "2"))])) k with
            | Some pv =>
                if negb (Obj.owns [(js "a", null); (js "b", str (js "2"));
                                   (js "c", str (js "3"))] k)
                   || strict_eq (get [(js "a", null); (js "b", str (js "2"));
                                      (js "c", str (js "3"))] k) null
                then Some pv else None
            | None => None
            end)
    /\ (forall k,
          lookup n k
          = if Obj.owns (_state (world_of [(js "a", str (js "1"));
                                           (js "b", str (js "2"))])) k
               && strict_eq (get [(js "a", null); (js "b", str (js "2"));
                                  (js "c", str (js "3"))] k) null
            then None
            else lookup [(js "a", null); (js "b", str (js "2"));
                         (js "c", str (js "3"))] k).
Proof.
  apply (@change_event_lists_what_changed HistoryBase.this SRC_ADD
           [(js "a", null); (js "b", str (js "2")); (js "c", str (js "3"))]
           (world_of [(js "a", str (js "1")); (js "b", str (js "2"))])
           (world_of [(js "b", str (js "2")); (js "c", str (js "3"))])).
  - distinct_keys.
  - distinct_keys.
  - reflexivity.
  - discriminate.
Defined.

(** ** Query strings *)

Lemma REGEX_HASH_at_no_equals_before u : forall c h,
  ~ In EQUALS u -> History.class1 c = false ->
  History._REGEX_HASH_at (u ++ c :: h) = None.
Proof.
  induction u as [|x u IH]; intros c h Hu Hc.
  - cbn [app History._REGEX_HASH_at]. now rewrite Hc.
  - cbn [app History._REGEX_HASH_at]. destruct (History.class1 x); [|reflexivity].
    rewrite IH; [|intros Hin; apply Hu; now right|assumption].
    assert (He : History.equals_group2 (u ++ c :: h) = None).
    { destruct u as [|y u]; cbn [app History.equals_group2].
      - destruct (c =? EQUALS) eqn:E; [|reflexivity].
        apply N.eqb_eq in E. subst c. discriminate.
      - destruct (y =? EQUALS) eqn:E; [|reflexivity].
        apply N.eqb_eq in E. subst y. exfalso. apply Hu. right. now left. }
    now rewrite He.
Qed.

Lemma match_REGEX_HASH_no_equals_before u : forall c h,
  ~ In EQUALS u -> History.class1 c = false ->
  History.match_REGEX_HASH O (u ++ c :: h) = History.match_REGEX_HASH O h.
Proof.
  induction u as [|x u IH]; intros c h Hu Hc.
  - cbn [app History.match_REGEX_HASH History._REGEX_HASH_at]. now rewrite Hc.
  - change (History.match_REGEX_HASH O ((x :: u) ++ c :: h))
      with (match History._REGEX_HASH_at ((x :: u) ++ c :: h) with
            | Some (g1, g2, _) =>
                (g1 ++ EQUALS :: g2)
                :: History.match_REGEX_HASH (List.length g1 + List.length g2)
                     (u ++ c :: h)
            | None => History.match_REGEX_HASH O (u ++ c :: h)
            end).
    rewrite REGEX_HASH_at_no_equals_before by assumption.
    apply IH; [|assumption]. intros Hin. apply Hu. now right.
Qed.

(** X20. [parseHash] reads a query string or a whole URL as well: what
    stands before a ['?'] or a ['#'] and holds no ['='] (the path, say) is
    skipped, and the pairs after it are read as if they stood alone. *)
Theorem parseHash_skips_what_precedes_the_pairs (w : world) (u h : jsstring) :
  hashPrefix w = [] -> ~ In EQUALS u ->
  History.parseHash (Some (u ++ QUESTION :: h)) w = History.parseHash (Some h) w
  /\ History.parseHash (Some (u ++ HASH :: h)) w = History.parseHash (Some h) w.
Proof.
  intros Hp Hu. rewrite !parseHash_no_prefix by assumption.
  unfold parse_unprefixed.
  now rewrite !match_REGEX_HASH_no_equals_before.
Qed.

Lemma parseHash_skips_what_precedes_the_pairs_witness :
  History.parseHash (Some (js "/path/page" ++ QUESTION :: js "a=1&b=2"))
    (world_of [])
  = History.parseHash (Some (js "a=1&b=2")) (world_of [])
  /\ History.parseHash (Some (js "/path/page" ++ HASH :: js "a=1&b=2"))
       (world_of [])
     = History.parseHash (Some (js "a=1&b=2")) (world_of []).
Proof.
  apply (@parseHash_skips_what_precedes_the_pairs (world_of [])
           (js "/path/page") (js "a=1&b=2")).
  - reflexivity.
  - vm_compute. intuition discriminate.
Defined.

(** ** [replace] on a [History] instance *)

Lemma as_replace_events es :
  Forall (fun e => is_event e = true) es ->
  map as_replace es = map (with_src SRC_REPLACE) es.
Proof.
  induction 1 as [|e es He _ IH]; [reflexivity|].
  cbn [map]. rewrite IH. now destruct e.
Qed.

(** With a hash that [createHash] made, [setHash] and [replaceHash] leave
    the same location. *)
Lemma setHash_replaceHash_location state h w :
  charAt0_is HASH (hashPrefix w) = false ->
  History.createHash state = Some h ->
  fst (History.setHash h w) = fst (History.replaceHash h w).
Proof.
  intros Hp Hc. pose proof (@createHash_head state h Hc) as Hh.
  unfold History.setHash, History.replaceHash. cbn [fst]. rewrite Hh.
  assert (Hv : charAt0_is HASH (hashPrefix w ++ h) = false).
  { destruct (hashPrefix w) as [|c p]; [exact Hh | exact Hp]. }
  now rewrite Hv.
Qed.

(** X18. On a [History] instance [replace(a)] is [add(a)] with
    [replaceHash] called where [add] calls [setHash] and with the source
    [SRC_REPLACE] in every event: the two throw together, store the same
    state, leave the same location, and do corresponding things in the
    same order. *)
Theorem History_replace_is_add_with_replaceHash (a : state_arg) (w : world) :
  charAt0_is HASH (hashPrefix w) = false ->
  HistoryBase.replace (this := History.this) a w
  = match HistoryBase.add (this := History.this) a w with
    | Some (w', es) => Some (w', map as_replace es)
    | None => None
    end.
Proof.
  intros Hp.
  unfold HistoryBase.add, HistoryBase.replace, HistoryBase._change,
    HistoryBase._resolveChanges.
  destruct (HistoryBase.added_or_changed _ _) as [ch b1].
  destruct (HistoryBase.removed_from _ _ _) as [[ns rm] b];
    destruct b; [|reflexivity].
  rewrite !fireEvents_eq.
  cbn [changed newState prevState removed this_storeState History.this].
  destruct (History.createHash ns) as [h|] eqn:Eh.
  2:{ unfold History._storeState. now rewrite Eh. }
  rewrite !(@History_storeState_eq _ _ _ _ Eh). cbv zeta.
  pose proof (key_events_are_events SRC_ADD ch rm) as Hk.
  pose proof (map_with_src_fired SRC_REPLACE SRC_ADD ch ns (_state w) rm ch rm)
    as Hm.
  cbn [map] in Hm. injection Hm as Hm.
  destruct (str_eqb (History.getHash w) h).
  - cbn [app map as_replace with_src].
    now rewrite (as_replace_events Hk), Hm.
  - cbn [app map as_replace with_src].
    rewrite (as_replace_events Hk), Hm.
    now rewrite (@setHash_replaceHash_location ns h (set_state ns w) Hp Eh).
Qed.

Lemma History_replace_is_add_with_replaceHash_witness :
  HistoryBase.replace (this := History.this) (a_key (js "a") (str (js "1")))
    (world_with_prefix (js "!"))
  = match HistoryBase.add (this := History.this)
            (a_key (js "a") (str (js "1"))) (world_with_prefix (js "!")) with
    | Some (w', es) => Some (w', map as_replace es)
    | None => None
    end.
Proof.
  apply (@History_replace_is_add_with_replaceHash
           (a_key (js "a") (str (js "1"))) (world_with_prefix (js "!"))).
  reflexivity.
Defined.

(* ================================================================== *)
(** ** [add] and [replace] as one run *)

Lemma flat_map_singleton {A B} (f : A -> B) l :
  flat_map (fun x => [f x]) l = map f l.
Proof. induction l as [|x l IH]; [reflexivity|]. cbn [flat_map map app]. now rewrite IH. Qed.

Lemma existsb_filter {A} (f : A -> bool) l :
  existsb f l = match filter f l with [] => false | _ :: _ => true end.
Proof.
  induction l as [|x l IH]; [reflexivity|].
  cbn [existsb filter]. now destruct (f x).
Qed.

Lemma existsb_changed_entries prev (new : object value) :
  existsb (differs prev) new
  = match flat_map (changed_entry prev) new with [] => false | _ :: _ => true end.
Proof.
  induction new as [|p new IH]; [reflexivity|].
  cbn [existsb flat_map]. unfold changed_entry at 1.
  now destruct (differs prev p).
Qed.

(** [_change] in closed form, for any instance and any source. *)
Lemma change_eq {this : this_type} src a w :
  NoDup (map fst (_state w)) ->
  HistoryBase._change src a w
  = let prev := _state w in
    let merged :=
      merge prev
        match a with a_key key v => [(key, v)] | a_state state => state end in
    let changed_items := flat_map (changed_entry prev) merged in
    let removed_items := filter (is_removed merged) prev in
    let stored_state := fold_left (@delete value) (map fst removed_items) merged in
    if existsb (differs prev) merged || existsb (is_removed merged) prev then
      let? (w', written) := this_storeState src stored_state w in
      Some (w',
            fire_change changed_items stored_state prev removed_items src
            :: written
            ++ map (fun p => fire_key_Change (fst p) (newVal (snd p))
                               (prevVal (snd p)) src) changed_items
            ++ map (fun p => fire_key_Remove (fst p) (snd p) src) removed_items)
    else Some (w, []).
Proof.
  intros Hnd. unfold HistoryBase._change.
  change (match a with a_key key v => set_prop [] key v | a_state state => state end)
    with (match a with a_key key v => [(key, v)] | a_state state => state end).
  rewrite resolveChanges_eq by (assumption || apply NoDup_merge). cbv zeta.
  destruct (_ || _); [|reflexivity].
  rewrite fireEvents_eq. cbn [changed newState prevState removed].
  unfold HistoryBase._fireChangeEvent, HistoryBase._fireRemoveEvent.
  now rewrite !flat_map_singleton.
Qed.

(** C4. [add] and [replace] are one run with two source tags, on every
    kind of instance.  For a state of distinct keys both merge the update
    into the state, find the items whose new value is not [===] the
    previous one and the items of the previous state that the merged state
    lacks or gives [null]; when there is such an item they fire the global
    change event (with the changed items, the state to store, the previous
    state and the removed items), store the state through [_storeState],
    and fire one [<key>Change] for every changed item and one
    [<key>Remove] for every removed item, in this order; otherwise they do
    nothing.  The source tag, [SRC_ADD] or [SRC_REPLACE], is the one thing
    that differs: it is carried by every event and handed to
    [_storeState].  So on a [HistoryBase] instance the result of [replace]
    is that of [add] with the tag of every event changed; on a [History]
    instance the states stored are the same and the events are the same but
    for the tag. *)
Theorem replace_is_add_with_src_replace (a : state_arg) (w : world) :
  NoDup (map fst (_state w)) ->
  (forall this : this_type,
     let prev := _state w in
     let merged :=
       merge prev
         match a with a_key key v => [(key, v)] | a_state state => state end in
     let changed_items :=
       flat_map
         (fun p =>
            if negb (strict_eq (snd p) (get prev (fst p)))
            then [(fst p, {| newVal := snd p; prevVal := get prev (fst p) |})]
            else [])
         merged in
     let removed_items :=
       filter
         (fun p =>
            negb (Obj.owns merged (fst p)) || strict_eq (get merged (fst p)) null)
         prev in
     let stored_state := fold_left (@delete value) (map fst removed_items) merged in
     let run := fun src =>
       match changed_items, removed_items with
       | [], [] => Some (w, [])
       | _, _ =>
           let? (w', written) := this_storeState src stored_state w in
           Some (w',
                 fire_change changed_items stored_state prev removed_items src
                 :: written
                 ++ map (fun p => fire_key_Change (fst p) (newVal (snd p))
                                    (prevVal (snd p)) src) changed_items
                 ++ map (fun p => fire_key_Remove (fst p) (snd p) src)
                      removed_items)
       end in
     HistoryBase.add a w = run SRC_ADD
     /\ HistoryBase.replace a w = run SRC_REPLACE)
  /\ HistoryBase.replace (this := HistoryBase.this) a w
     = match HistoryBase.add (this := HistoryBase.this) a w with
       | Some (w', es) => Some (w', map (with_src SRC_REPLACE) es)
       | None => None
       end
  /\ match HistoryBase.add (this := History.this) a w,
           HistoryBase.replace (this := History.this) a w with
     | Some (w1, es1), Some (w2, es2) =>
         _state w1 = _state w2
         /\ map (with_src SRC_REPLACE) (filter is_event es1) = filter is_event es2
     | None, None => True
     | _, _ => False
     end.
Proof.
  intros Hnd. split; [|split].
  - intros this. cbv zeta. unfold HistoryBase.add, HistoryBase.replace.
    rewrite !change_eq by assumption. cbv zeta.
    set (merged := merge (_state w) _).
    change (fun p : jsstring * value =>
              if negb (strict_eq (snd p) (get (_state w) (fst p)))
              then [(fst p, {| newVal := snd p; prevVal := get (_state w) (fst p) |})]
              else [])
      with (changed_entry (_state w)).
    change (fun p : jsstring * value =>
              negb (Obj.owns merged (fst p)) || strict_eq (get merged (fst p)) null)
      with (is_removed merged).
    rewrite existsb_changed_entries, existsb_filter.
    destruct (flat_map (changed_entry (_state w)) merged),
      (filter (is_removed merged) (_state w)); split; reflexivity.
  - apply change_base_src.
  - apply History_replace_fires_as_add.
Qed.

Lemma replace_is_add_with_src_replace_witness :
  HistoryBase.add (this := History.this)
    (a_state [(js "a", null); (js "c", str (js "3"))])
    {| _state := [(js "a", str (js "1")); (js "b", str (js "2"))];
       hashPrefix := []; fragment := js "a=1&b=2" |}
  = Some ({| _state := [(js "b", str (js "2")); (js "c", str (js "3"))];
             hashPrefix := []; fragment := js "b=2&c=3" |},
          [fire_change
             [(js "a", {| newVal := null; prevVal := str (js "1") |});
              (js "c", {| newVal := str (js "3"); prevVal := undefined |})]
             [(js "b", str (js "2")); (js "c", str (js "3"))]
             [(js "a", str (js "1")); (js "b", str (js "2"))]
             [(js "a", str (js "1"))]
             SRC_ADD;
           call_setHash (js "b=2&c=3");
           fire_key_Change (js "a") null (str (js "1")) SRC_ADD;
           fire_key_Change (js "c") (str (js "3")) undefined SRC_ADD;
           fire_key_Remove (js "a") (str (js "1")) SRC_ADD])
  /\ HistoryBase.replace (this := History.this)
       (a_state [(js "a", null); (js "c", str (js "3"))])
       {| _state := [(js "a", str (js "1")); (js "b", str (js "2"))];
          hashPrefix := []; fragment := js "a=1&b=2" |}
     = Some ({| _state := [(js "b", str (js "2")); (js "c", str (js "3"))];
                hashPrefix := []; fragment := js "b=2&c=3" |},
             [fire_change
                [(js "a", {| newVal := null; prevVal := str (js "1") |});
                 (js "c", {| newVal := str (js "3"); prevVal := undefined |})]
                [(js "b", str (js "2")); (js "c", str (js "3"))]
                [(js "a", str (js "1")); (js "b", str (js "2"))]
                [(js "a", str (js "1"))]
                SRC_REPLACE;
              call_replaceHash (js "b=2&c=3");
              fire_key_Change (js "a") null (str (js "1")) SRC_REPLACE;
              fire_key_Change (js "c") (str (js "3")) undefined SRC_REPLACE;
              fire_key_Remove (js "a") (str (js "1")) SRC_REPLACE]).
Proof.
  destruct (@replace_is_add_with_src_replace
              (a_state [(js "a", null); (js "c", str (js "3"))])
              {| _state := [(js "a", str (js "1")); (js "b", str (js "2"))];
                 hashPrefix := []; fragment := js "a=1&b=2" |}) as [H _].
  - distinct_keys.
  - exact (H History.this).
Defined.
